(** * ai_news_digest: enrichment, scoring, de-duplication and grouping

    A shallow embedding of the core pipeline of
    [execution/ai_news_digest.py]: [truncate_summary],
    [fetch_article_summary], [enrich_summaries], [calculate_score],
    [deduplicate_articles] and the grouping loop of [format_html_email],
    together with the part of Python's [difflib.SequenceMatcher] that
    [deduplicate_articles] calls.

    Conventions of the embedding
    - a Python [str] is the list of its characters ([pystr]); a
      character is an 8-bit value, read as a code point below 256, and
      strings holding other code points are outside the embedding;
    - a Python [int] is a [Z]; indices returned by [rfind] are [Z] with
      [-1] for "not found", as in Python;
    - floats that only ever hold small integers (the score) are [Z];
      float comparisons against a constant are done on exact rationals
      ([Q]);
    - an article dictionary is a record with the keys every connector
      sets; [score] is absent ([None]) until [main] stores it. *)

From Stdlib Require Import Ascii String QArith DecimalString.
From stdpp Require Import gmap strings list sorting.

Local Open Scope Z_scope.

(** ** Python strings *)

Definition pystr := list ascii.

(** String literals. *)
Definition lit (s : string) : pystr := list_ascii_of_string s.

(** [len(s)] *)
Definition len (s : pystr) : Z := Z.of_nat (length s).

(** [s[:k]]: a negative bound counts from the end of the string. *)
Definition slice_to (k : Z) (s : pystr) : pystr :=
  if k <? 0 then take (Z.to_nat (len s + k)) s else take (Z.to_nat k) s.

(** [s.rfind(c)] for a one-character needle: the highest index holding
    [c], or [-1]. *)
Fixpoint rfind_from (c : ascii) (s : pystr) (i : Z) (found : Z) : Z :=
  match s with
  | [] => found
  | x :: s' => rfind_from c s' (i + 1) (if Ascii.eqb x c then i else found)
  end.

Definition rfind (c : ascii) (s : pystr) : Z := rfind_from c s 0 (-1).

(** [needle in hay] on strings: [needle] occurs as a contiguous block. *)
Fixpoint starts_with (needle hay : pystr) : bool :=
  match needle, hay with
  | [], _ => true
  | _ :: _, [] => false
  | x :: needle', y :: hay' => Ascii.eqb x y && starts_with needle' hay'
  end.

Fixpoint contains (needle hay : pystr) : bool :=
  starts_with needle hay ||
  match hay with
  | [] => false
  | _ :: hay' => contains needle hay'
  end.

(** [s.lower()]: of the code points below 256 the letters A-Z and the
    capitals U+00C0..U+00DE, the sign U+00D7 apart, move 32 places on;
    the others stay. *)
Definition lower_char (c : ascii) : ascii :=
  let n := nat_of_ascii c in
  if ((65 <=? n) && (n <=? 90)
      || (192 <=? n) && (n <=? 222) && negb (n =? 215))%nat
  then ascii_of_nat (n + 32) else c.

Definition lower (s : pystr) : pystr := map lower_char s.

(** ** Truncator: [truncate_summary] *)

(** [x > y * 0.5] for integers [x], [y], on exact rationals: what the
    float product gives as long as [y] converts to a float without
    rounding ([exact_half]); far beyond, the conversion raises
    [OverflowError]. *)
Definition gt_half (x y : Z) : bool :=
  negb (Qle_bool (inject_Z x) (inject_Z y * (1 # 2))).

(** The integers that every float holds exactly. *)
Definition exact_half (y : Z) : Prop := - 2 ^ 53 ≤ y ≤ 2 ^ 53.

Definition ellipsis : pystr := lit "...".

Definition truncate_summary (text : pystr) (max_length : Z) : pystr :=
  if bool_decide (text = []) || (len text <=? max_length) then text
  else
    let truncated := slice_to max_length text in
    let last_period := rfind "."%char truncated in
    let last_question := rfind "?"%char truncated in
    let last_exclaim := rfind "!"%char truncated in
    let cut_point := Z.max (Z.max last_period last_question) last_exclaim in
    if gt_half cut_point max_length then slice_to (cut_point + 1) text
    else
      let last_space := rfind " "%char truncated in
      if 0 <? last_space then slice_to last_space text ++ ellipsis
      else truncated ++ ellipsis.

(** The default [max_length] of [truncate_summary]. *)
Definition default_max_length : Z := 280.

(** ** [difflib.SequenceMatcher(None, a, b).ratio()]

    The standard-library matcher that [deduplicate_articles] relies on,
    with [isjunk = None] and [autojunk = True] as that call leaves them.
    The junk set is therefore empty: the [not isbjunk(..)] tests are
    always true and the two junk-absorbing loops at the end of
    [find_longest_match] never run. *)

(** [__chain_b], first loop: for each element of [b] the increasing list
    of indices where it occurs. *)
Definition b2j_index (b : pystr) : gmap ascii (list Z) :=
  foldl (λ b2j '(i, elt), <[elt := default [] (b2j !! elt) ++ [i]]> b2j)
        ∅ (imap (λ i elt, (Z.of_nat i, elt)) b).

(** [__chain_b], last loop: when [b] has 200 elements or more, the
    elements occurring more than [n // 100 + 1] times are dropped from
    the index. *)
Definition chain_b (b : pystr) : gmap ascii (list Z) :=
  let b2j := b2j_index b in
  let n := len b in
  if 200 <=? n then
    let ntest := n `div` 100 + 1 in
    filter (λ kv : ascii * list Z, ¬ (ntest < Z.of_nat (length kv.2))) b2j
  else b2j.

(** A matching block [a[m_a : m_a + m_size] == b[m_b : m_b + m_size]]. *)
Record lmatch := Match { m_a : Z; m_b : Z; m_size : Z }.

(** [a[i] == b[j]], for indices inside both sequences. *)
Definition elem_eq (a b : pystr) (i j : Z) : bool :=
  match a !! Z.to_nat i, b !! Z.to_nat j with
  | Some x, Some y => bool_decide (0 <= i) && bool_decide (0 <= j) && Ascii.eqb x y
  | _, _ => false
  end.

(** Inner loop of [find_longest_match]: [for j in b2j.get(a[i], nothing)],
    with its [continue] below [blo] and its [break] at [bhi]. *)
Fixpoint scan_row (i blo bhi : Z) (j2len : gmap Z Z) (js : list Z)
    (newj2len : gmap Z Z) (best : lmatch) : gmap Z Z * lmatch :=
  match js with
  | [] => (newj2len, best)
  | j :: js' =>
      if j <? blo then scan_row i blo bhi j2len js' newj2len best
      else if bhi <=? j then (newj2len, best)
      else
        let k := default 0 (j2len !! (j - 1)) + 1 in
        scan_row i blo bhi j2len js' (<[j := k]> newj2len)
                 (if m_size best <? k then Match (i - k + 1) (j - k + 1) k else best)
  end.

(** Outer loop of [find_longest_match]: [for i in range(alo, ahi)]. *)
Definition longest_in_index (a : pystr) (b2j : gmap ascii (list Z))
    (alo ahi blo bhi : Z) : lmatch :=
  (foldl (λ st i,
            scan_row i blo bhi st.1
                     (default [] (a !! Z.to_nat i ≫= λ x, b2j !! x)) ∅ st.2)
         (∅, Match alo blo 0) (seqZ alo (ahi - alo))).2.

(** First [while]: grow the block to the left over equal elements. *)
Fixpoint extend_left (fuel : nat) (a b : pystr) (alo blo : Z) (m : lmatch) : lmatch :=
  match fuel with
  | O => m
  | S fuel' =>
      if (alo <? m_a m) && (blo <? m_b m) && elem_eq a b (m_a m - 1) (m_b m - 1)
      then extend_left fuel' a b alo blo (Match (m_a m - 1) (m_b m - 1) (m_size m + 1))
      else m
  end.

(** Second [while]: grow the block to the right over equal elements. *)
Fixpoint extend_right (fuel : nat) (a b : pystr) (ahi bhi : Z) (m : lmatch) : lmatch :=
  match fuel with
  | O => m
  | S fuel' =>
      if (m_a m + m_size m <? ahi) && (m_b m + m_size m <? bhi)
         && elem_eq a b (m_a m + m_size m) (m_b m + m_size m)
      then extend_right fuel' a b ahi bhi (Match (m_a m) (m_b m) (m_size m + 1))
      else m
  end.

(** [find_longest_match(alo, ahi, blo, bhi)].  Each [while] loop moves
    one end of the block by one position per turn and stops at the end
    of the range, so the distance to that end bounds its turns. *)
Definition find_longest_match (a b : pystr) (b2j : gmap ascii (list Z))
    (alo ahi blo bhi : Z) : lmatch :=
  let m0 := longest_in_index a b2j alo ahi blo bhi in
  let m1 := extend_left (Z.to_nat (m_a m0 - alo)) a b alo blo m0 in
  extend_right (Z.to_nat (ahi - (m_a m1 + m_size m1))) a b ahi bhi m1.

(** The work list of [get_matching_blocks]; [queue.pop()] takes the most
    recently appended range, so the list is kept newest first.  [None]
    when [fuel] turns do not empty the queue. *)
Fixpoint matching_blocks_loop (fuel : nat) (a b : pystr) (b2j : gmap ascii (list Z))
    (queue : list (Z * Z * Z * Z)) (matching_blocks : list lmatch)
    : option (list lmatch) :=
  match queue with
  | [] => Some matching_blocks
  | (alo, ahi, blo, bhi) :: queue' =>
      match fuel with
      | O => None
      | S fuel' =>
          let x := find_longest_match a b b2j alo ahi blo bhi in
          let '(i, j, k) := (m_a x, m_b x, m_size x) in
          if k =? 0 then matching_blocks_loop fuel' a b b2j queue' matching_blocks
          else
            let q1 := if (alo <? i) && (blo <? j)
                      then (alo, i, blo, j) :: queue' else queue' in
            let q2 := if (i + k <? ahi) && (j + k <? bhi)
                      then (i + k, ahi, j + k, bhi) :: q1 else q1 in
            matching_blocks_loop fuel' a b b2j q2 (matching_blocks ++ [x])
      end
  end.

(** Turns that always empty the queue started at [(0, len a, 0, len b)]
    (lemma [matching_blocks_loop_total]). *)
Definition blocks_fuel (a : pystr) : nat := 2 * length a + 1.

(** [get_matching_blocks], up to the final sort, the merge of adjacent
    blocks and the zero-size sentinel, none of which changes the sum of
    the block sizes that [ratio] takes. *)
Definition get_matching_blocks (a b : pystr) : list lmatch :=
  default [] (matching_blocks_loop (blocks_fuel a) a b (chain_b b)
                                   [(0, len a, 0, len b)] []).

(** [_calculate_ratio] *)
Definition calculate_ratio (matches length : Z) : Q :=
  if length =? 0 then 1%Q
  else (inject_Z 2 * inject_Z matches / inject_Z length)%Q.

(** [SequenceMatcher(None, a, b).ratio()] *)
Definition ratio (a b : pystr) : Q :=
  let matches := foldr Z.add 0 (m_size <$> get_matching_blocks a b) in
  calculate_ratio matches (len a + len b).

(** *** Invariants of the matcher *)

(** Every run length recorded in a row of [j2len] lies in [1, n]. *)
Definition row_ok (n : Z) (j2len : gmap Z Z) : Prop :=
  ∀ j v, j2len !! j = Some v → 1 ≤ v ≤ n.

(** The block lies within [a[alo:hi]]. *)
Definition block_ok (alo hi : Z) (x : lmatch) : Prop :=
  alo ≤ m_a x ∧ 0 ≤ m_size x ∧ m_a x + m_size x ≤ hi.

(** Turns the queue still needs at most: two per element of the ranges
    of [a] waiting in it, and one per range. *)
Definition queue_weight (queue : list (Z * Z * Z * Z)) : nat :=
  foldr (λ r w, (2 * Z.to_nat (r.1.1.2 - r.1.1.1) + 1 + w)%nat) 0%nat queue.

(** ** Articles *)

(** Categories for organization. *)
Definition CATEGORY_NEW_TECH : pystr := lit "New Technology".
Definition CATEGORY_RESEARCH : pystr := lit "Research".
Definition CATEGORY_INDUSTRY : pystr := lit "Industry & Macro".
Definition CATEGORY_COMMUNITY : pystr := lit "Community Highlights".

(** The article dictionary.  [published] is a [datetime], counted in
    microseconds (its resolution); [score] is the key [main] adds after
    enrichment. *)
Record article := Article {
  title : pystr;
  link : pystr;
  summary : pystr;
  source : pystr;
  category : pystr;
  published : Z;
  engagement : Z;
  needs_summary : bool;
  score : option Z
}.

(** [article["summary"] = s; article["needs_summary"] = False] *)
Definition set_summary (s : pystr) (a : article) : article :=
  {| title := title a; link := link a; summary := s; source := source a;
     category := category a; published := published a;
     engagement := engagement a; needs_summary := false; score := score a |}.

(** ** Enricher: [fetch_article_summary] and [enrich_summaries] *)

(** What [fetch_article_summary] reads off a fetched page: the status
    code, the [content] attribute of the first [<meta name="description">]
    and of the first [<meta property="og:description">] ([None] when the
    tag or the attribute is missing), and the [<p>] elements, as markup,
    of the first of [<article>], [<main>], [<body>] that exists ([None]
    when none does). *)
Record response := Response {
  status_code : Z;
  meta_description : option pystr;
  og_description : option pystr;
  paragraphs : option (list pystr)
}.

(** Outcome of a call: it returns, or an exception leaves it. *)
Inductive exn := TimeoutError.

Inductive outcome := Returned | Raised (e : exn).

Section Enricher.

(** [clean_html], which strips markup through BeautifulSoup and
    collapses white space. *)
Variable clean_html : pystr → pystr.

(** The network, as task [i] (the position of its article in the
    list) finds it: [requests_get i url] is the page, or [None] when
    [requests.get] or the parser raises. *)
Variable requests_get : nat → pystr → option response.

(** Whether the task of article [i] is done when the 30-second
    deadline of [as_completed] passes. *)
Variable finished_in_time : nat → bool.

(** The paragraph loop: [for p in paragraphs[:3]]. *)
Fixpoint first_long_paragraph (ps : list pystr) : pystr :=
  match ps with
  | [] => []
  | p :: ps' =>
      let text := clean_html p in
      if 100 <? len text then truncate_summary text default_max_length
      else first_long_paragraph ps'
  end.

(** The body of the [try] block, on the page received. *)
Definition extract_summary (resp : response) : pystr :=
  if negb (status_code resp =? 200) then []
  else
    match meta_description resp with
    | Some (c :: content) => clean_html (c :: content)
    | _ =>
        match og_description resp with
        | Some (c :: content) => clean_html (c :: content)
        | _ =>
            match paragraphs resp with
            | Some ps => first_long_paragraph (take 3 ps)
            | None => []
            end
        end
    end.

(** [fetch_article_summary(url)] as run by task [i]; [except Exception]
    turns every failure into the empty string. *)
Definition fetch_article_summary (i : nat) (url : pystr) : pystr :=
  match requests_get i url with
  | Some resp => extract_summary resp
  | None => []
  end.

(** The closure [fetch_one] of [enrich_summaries]. *)
Definition fetch_one (i : nat) (a : article) : article :=
  if contains (lit "reddit.com") (link a)
     || contains (lit "news.ycombinator.com") (link a)
  then a
  else
    let s := fetch_article_summary i (link a) in
    if bool_decide (s = []) then a else set_summary s a.

(** [a.get("needs_summary") and a.get("link")] *)
Definition wants_summary (a : article) : bool :=
  needs_summary a && negb (bool_decide (link a = [])).

(** The list [needs_summary]: the selected articles, each with its
    position in [articles] standing for the identity of the shared
    dictionary object. *)
Definition needing (articles : list article) : list (nat * article) :=
  filter (λ ia, wants_summary ia.2 = true) (imap (λ i a, (i, a)) articles).

(** The articles after every submitted task has run: task [i] rewrites
    the dictionary at position [i] and no other. *)
Definition run_tasks (tasks : list (nat * article)) (articles : list article)
    : list article :=
  foldl (λ store ia, <[ia.1 := fetch_one ia.1 ia.2]> store) articles tasks.

(** [enrich_summaries(articles)]: the articles as the call leaves them
    and how the call ends.  The tasks are the first 20 of
    [needs_summary].  The iterator of [as_completed(futures,
    timeout=30)] raises [TimeoutError] when a task is still unfinished
    at the deadline; the [try] of the loop body encloses only
    [future.result()], so that exception leaves the [for] statement.
    Leaving the [with] block, on either path, waits for every submitted
    task ([shutdown(wait=True)]), so all their writes are made. *)
Definition enrich_summaries (articles : list article) : list article * outcome :=
  let needs_summary := needing articles in
  if bool_decide (needs_summary = []) then (articles, Returned)
  else
    let tasks := take 20 needs_summary in
    let articles' := run_tasks tasks articles in
    if forallb (λ ia, finished_in_time ia.1) tasks
    then (articles', Returned)
    else (articles', Raised TimeoutError).

End Enricher.

(** ** Scorer: [calculate_score] *)

Definition RSS_FEEDS_NEWS : list (pystr * pystr) :=
  [ (lit "TechCrunch AI", lit "https://techcrunch.com/tag/artificial-intelligence/feed/");
    (lit "VentureBeat AI", lit "https://venturebeat.com/ai/feed/");
    (lit "The Verge AI", lit "https://www.theverge.com/ai-artificial-intelligence/rss/index.xml");
    (lit "Ars Technica AI", lit "https://arstechnica.com/tag/artificial-intelligence/feed/");
    (lit "MIT Tech Review", lit "https://www.technologyreview.com/topic/artificial-intelligence/feed/");
    (lit "Wired AI", lit "https://www.wired.com/feed/tag/ai/latest/rss") ].

Definition high_quality_sources : list pystr :=
  [ lit "OpenAI Blog"; lit "Anthropic Research"; lit "Google AI Blog";
    lit "DeepMind Blog"; lit "MIT Tech Review"; lit "arXiv";
    lit "Papers With Code" ].

(** [key in list] and [key in dict] *)
Definition str_in (x : pystr) (l : list pystr) : bool := bool_decide (x ∈ l).

(** [(now - published).total_seconds() / 3600], both instants in
    microseconds. *)
Definition hours_old (now published : Z) : Q :=
  (inject_Z (now - published) / inject_Z 1000000 / inject_Z 3600)%Q.

(** [calculate_score(article)], with the clock reading [now] that
    [datetime.now()] returns. *)
Definition calculate_score (now : Z) (a : article) : Z :=
  let score := 0 in
  let h := hours_old now (published a) in
  let score :=
    if Qle_bool h (inject_Z 12) then score + 40
    else if Qle_bool h (inject_Z 24) then score + 30
    else if Qle_bool h (inject_Z 48) then score + 20
    else score + 10 in
  let score :=
    if 500 <? engagement a then score + 40
    else if 200 <? engagement a then score + 30
    else if 100 <? engagement a then score + 20
    else if 50 <? engagement a then score + 10
    else score in
  let score :=
    if str_in (source a) high_quality_sources then score + 20
    else if str_in (source a) RSS_FEEDS_NEWS.*1 then score + 10
    else score in
  let score :=
    if negb (bool_decide (summary a = [])) && (100 <? len (summary a))
    then score + 10 else score in
  score.

(** ** Deduplicator: [deduplicate_articles] *)

(** [similarity > 0.6] *)
Definition exceeds_threshold (similarity : Q) : bool :=
  negb (Qle_bool similarity (6 # 10)).

(** The inner loop: some already seen title is too close to [t]. *)
Definition is_duplicate (t : pystr) (seen_titles : list pystr) : bool :=
  existsb (λ seen, exceeds_threshold (ratio t seen)) seen_titles.

(** One turn of the outer loop on the pair [(unique, seen_titles)]. *)
Definition dedup_step (st : list article * list pystr) (a : article)
    : list article * list pystr :=
  let t := lower (title a) in
  if is_duplicate t st.2 then st else (st.1 ++ [a], st.2 ++ [t]).

Definition deduplicate_articles (articles : list article) : list article :=
  (foldl dedup_step ([], []) articles).1.

(** ** Ranker/Grouper: the grouping of [format_html_email] *)

(** The first loop of [format_html_email]: the dictionary [by_category]. *)
Definition by_category (articles : list article) : gmap pystr (list article) :=
  foldl (λ d a,
           let cat := category a in
           let d' := if bool_decide (is_Some (d !! cat)) then d else <[cat := []]> d in
           alter (λ l, l ++ [a]) cat d')
        ∅ articles.

Definition category_order : list pystr :=
  [CATEGORY_NEW_TECH; CATEGORY_RESEARCH; CATEGORY_INDUSTRY; CATEGORY_COMMUNITY].

(** Max 5 per category. *)
Definition max_per_category : nat := 5.

(** [format_html_email(articles)], as the sequence of sections it
    writes: for each category of [category_order] present in
    [by_category], the heading and the articles listed under it.  The
    markup around them is left out. *)
Definition format_html_email (articles : list article)
    : list (pystr * list article) :=
  let d := by_category articles in
  omap (λ c, (λ l, (c, take max_per_category l)) <$> d !! c) category_order.

(** ** Vocabulary of the truncation claims *)

(** A sentence-terminal character. *)
Definition is_terminal (c : ascii) : bool :=
  Ascii.eqb c "." || Ascii.eqb c "?" || Ascii.eqb c "!".

(** The prefix [s[:n]] holds a sentence terminator at an offset greater
    than [n * 0.5]. *)
Definition sentence_boundary (s : pystr) (n : Z) : Prop :=
  ∃ (i : nat) (c : ascii),
    n < 2 * Z.of_nat i ∧ Z.of_nat i < n ∧ s !! i = Some c ∧ is_terminal c = true.

(** The prefix [s[:n]] holds a space. *)
Definition word_boundary (s : pystr) (n : Z) : Prop :=
  ∃ i : nat, Z.of_nat i < n ∧ s !! i = Some " "%char.

(** The prefix [s[:n]] holds a space that is not its first character. *)
Definition inner_word_boundary (s : pystr) (n : Z) : Prop :=
  ∃ i : nat, (0 < i)%nat ∧ Z.of_nat i < n ∧ s !! i = Some " "%char.

(** The truncation bound in the words of the specification: unchanged
    when short enough; otherwise at most [n] when the prefix has a word
    boundary and at most [n + len("...")] when it has none. *)
Definition truncation_bound_as_stated (s : pystr) (n : Z) : Prop :=
  (len s ≤ n → truncate_summary s n = s) ∧
  (n < len s →
     (word_boundary s n → len (truncate_summary s n) ≤ n) ∧
     (¬ word_boundary s n → len (truncate_summary s n) ≤ n + len ellipsis)).

(** ** Vocabulary of the scoring claims *)

(** The four point buckets, as the specification words them. *)
Definition recency_points (hours : Q) : Z :=
  if Qle_bool hours (inject_Z 12) then 40
  else if Qle_bool hours (inject_Z 24) then 30
  else if Qle_bool hours (inject_Z 48) then 20
  else 10.

Definition engagement_points (e : Z) : Z :=
  if 500 <? e then 40
  else if 200 <? e then 30
  else if 100 <? e then 20
  else if 50 <? e then 10
  else 0.

Definition source_points (src : pystr) : Z :=
  if str_in src high_quality_sources then 20
  else if str_in src RSS_FEEDS_NEWS.*1 then 10
  else 0.

Definition summary_points (s : pystr) : Z :=
  if 100 <? len s then 10 else 0.

(** One hour of [datetime] time, in microseconds. *)
Definition hour : Z := 3600 * 1000000.

(** The same article with another [engagement], or another [published]. *)
Definition with_engagement (e : Z) (a : article) : article :=
  {| title := title a; link := link a; summary := summary a; source := source a;
     category := category a; published := published a;
     engagement := e; needs_summary := needs_summary a; score := score a |}.

Definition with_published (p : Z) (a : article) : article :=
  {| title := title a; link := link a; summary := summary a; source := source a;
     category := category a; published := p;
     engagement := engagement a; needs_summary := needs_summary a;
     score := score a |}.

(** The two articles of the specification's scoring scenario, scored at
    the instant [now]: record A, published one hour before, and record
    B, published sixty hours before. *)
Definition record_A (now : Z) : article :=
  {| title := lit "New LLM beats benchmark";
     link := lit "https://arxiv.org/abs/0000.00000";
     summary := repeat "a"%char 150;
     source := lit "arXiv";
     category := CATEGORY_RESEARCH;
     published := now - 1 * hour;
     engagement := 600;
     needs_summary := false;
     score := None |}.

Definition record_B (now : Z) : article :=
  {| title := lit "Startup raises funding round";
     link := lit "https://example.com/funding";
     summary := [];
     source := lit "Some Blog";
     category := CATEGORY_INDUSTRY;
     published := now - 60 * hour;
     engagement := 10;
     needs_summary := true;
     score := None |}.

(** ** Vocabulary of the de-duplication claims *)

(** The key under which an article is compared: [article["title"].lower()]. *)
Definition title_key (a : article) : pystr := lower (title a).

(** Candidate [a] is too close to an accepted article: the ratio of its
    key against the key of some member of [accepted] is above 0.6. *)
Definition near_duplicate (a : article) (accepted : list article) : Prop :=
  ∃ u, u ∈ accepted ∧ (6 # 10 < ratio (title_key a) (title_key u))%Q.

(** A list in which no article is too close to one placed before it. *)
Inductive pairwise_far : list article → Prop :=
  | pairwise_far_nil : pairwise_far []
  | pairwise_far_snoc l a :
      pairwise_far l → ¬ near_duplicate a l → pairwise_far (l ++ [a]).

(** The three articles of the specification's de-duplication example. *)
Definition article_titled (t : string) : article :=
  {| title := lit t; link := lit "https://example.com/a"; summary := [];
     source := lit "Hacker News"; category := CATEGORY_COMMUNITY;
     published := 0; engagement := 0; needs_summary := true; score := None |}.

Definition llm_1 : article := article_titled "New LLM beats benchmark".
Definition llm_2 : article := article_titled "New LLM Beats Benchmark Again".
Definition funding : article := article_titled "Startup raises funding round".

(** ** Vocabulary of the enrichment claims *)

(** A [content] attribute that passes the test
    [meta_desc and meta_desc.get("content")]. *)
Definition is_usable (content : option pystr) : bool :=
  match content with
  | Some (_ :: _) => true
  | _ => false
  end.

(** The link is a Reddit or Hacker News comment page. *)
Definition is_comment_page (url : pystr) : bool :=
  contains (lit "reddit.com") url || contains (lit "news.ycombinator.com") url.

(** The truncation budget the specification gives to enrichment. *)
Definition enrichment_budget : Z := 300.

Section EnricherVocabulary.

Variable clean_html : pystr → pystr.

(** The text the specification has enrichment resolve, before any
    truncation: the meta description, else the og:description, else the
    first paragraph longer than 100 characters among the first three. *)
Definition resolved_text (resp : response) : pystr :=
  if is_usable (meta_description resp)
  then clean_html (default [] (meta_description resp))
  else if is_usable (og_description resp)
  then clean_html (default [] (og_description resp))
  else
    default [] (head (filter (λ t, 100 < len t)
                             (clean_html <$> take 3 (default [] (paragraphs resp))))).

(** Enrichment in the words of the specification: whichever field
    resolves is truncated to 300 characters, so the summary is within
    the budget plus the ellipsis. *)
Definition truncates_as_stated (resp : response) : Prop :=
  status_code resp = 200 →
  extract_summary clean_html resp
  = truncate_summary (resolved_text resp) enrichment_budget
  ∧ len (extract_summary clean_html resp) ≤ enrichment_budget + len ellipsis.

End EnricherVocabulary.

(** A stand-in for [clean_html] on simple markup: every [<] opens a tag
    that ends at the next [>], and there are no entities, comments, nor
    [script], [style], [nav], [header] or [footer] elements.  As
    [get_text(separator=" ", strip=True)] does, it takes the pieces of
    text between the tags, strips each, drops the empty ones and joins
    the others with a space; then runs of white space become one space
    and the ends are stripped. *)

(** [c.isspace()], which is also what [\s] matches, below 256. *)
Definition is_space (c : ascii) : bool :=
  let n := nat_of_ascii c in
  ((9 <=? n) && (n <=? 13) || (28 <=? n) && (n <=? 32)
   || (n =? 133) || (n =? 160))%nat.

(** The pieces of text between the tags; [node] is the piece being
    read. *)
Fixpoint text_nodes (in_tag : bool) (node : pystr) (s : pystr) : list pystr :=
  match s with
  | [] => [node]
  | c :: s' =>
      if in_tag then
        if Ascii.eqb c ">" then text_nodes false [] s'
        else text_nodes true node s'
      else if Ascii.eqb c "<" then node :: text_nodes true [] s'
      else text_nodes false (node ++ [c]) s'
  end.

Fixpoint lstrip (s : pystr) : pystr :=
  match s with
  | [] => []
  | c :: s' => if is_space c then lstrip s' else s
  end.

(** [s.strip()] *)
Definition strip (s : pystr) : pystr := reverse (lstrip (reverse (lstrip s))).

(** [re.sub(r'\s+', ' ', s)]; [in_run] says that the character before
    was white space. *)
Fixpoint squeeze (in_run : bool) (s : pystr) : pystr :=
  match s with
  | [] => []
  | c :: s' =>
      if is_space c then
        if in_run then squeeze true s' else " "%char :: squeeze true s'
      else c :: squeeze false s'
  end.

(** [" ".join(pieces)] *)
Fixpoint join_space (pieces : list pystr) : pystr :=
  match pieces with
  | [] => []
  | [p] => p
  | p :: rest => p ++ " "%char :: join_space rest
  end.

Definition strip_tags (s : pystr) : pystr :=
  join_space (filter (λ p, p ≠ []) (strip <$> text_nodes false [] s)).

Definition plain_text (s : pystr) : pystr :=
  strip (squeeze false (strip_tags s)).

(** A page with no description and one paragraph of 290 letters. *)
Definition page_long_paragraph : response :=
  {| status_code := 200;
     meta_description := None;
     og_description := None;
     paragraphs := Some [lit "<p>" ++ repeat "a"%char 290 ++ lit "</p>"] |}.

(** A page whose meta description has 304 letters. *)
Definition page_long_description : response :=
  {| status_code := 200;
     meta_description := Some (repeat "a"%char 304);
     og_description := None;
     paragraphs := Some [] |}.

(** An article waiting for a summary, and networks serving it. *)
Definition long_read : article := article_titled "A long read".

Definition net_long_paragraph (_ : nat) (_ : pystr) : option response :=
  Some page_long_paragraph.

(** A page with a short meta description. *)
Definition page_described : response :=
  {| status_code := 200;
     meta_description := Some (lit "What the article is about.");
     og_description := None;
     paragraphs := None |}.

Definition net_described (_ : nat) (_ : pystr) : option response :=
  Some page_described.

(** The request of the first task fails; the others get the page. *)
Definition net_first_fails (i : nat) (_ : pystr) : option response :=
  match i with
  | O => None
  | S _ => Some page_described
  end.

(** Every task is done by the deadline, or none is. *)
Definition all_in_time (_ : nat) : bool := true.
Definition none_in_time (_ : nat) : bool := false.

(** Two articles waiting for a summary. *)
Definition article_down : article :=
  {| title := lit "Server is down"; link := lit "https://example.com/down";
     summary := []; source := lit "Hacker News"; category := CATEGORY_COMMUNITY;
     published := 0; engagement := 120; needs_summary := true; score := None |}.

Definition article_up : article :=
  {| title := lit "Server is up"; link := lit "https://example.com/up";
     summary := []; source := lit "Hacker News"; category := CATEGORY_COMMUNITY;
     published := 0; engagement := 80; needs_summary := true; score := None |}.

(** ** Vocabulary of the grouping claim *)

(** The articles of category [c], in their order in [articles]. *)
Definition bucket (c : pystr) (articles : list article) : list article :=
  filter (λ a, category a = c) articles.

(** [a] is scored at least as high as [b]; both carry a score. *)
Definition score_ge (a b : article) : Prop :=
  match score a, score b with
  | Some x, Some y => y ≤ x
  | _, _ => False
  end.

(** Sorted by descending score, as [main] leaves the list. *)
Definition by_descending_score (articles : list article) : Prop :=
  Sorted score_ge articles.

(** A scored article of a given category. *)
Definition scored (t : string) (c : pystr) (x : Z) : article :=
  {| title := lit t; link := lit "https://example.com/a"; summary := [];
     source := lit "arXiv"; category := c; published := 0; engagement := 0;
     needs_summary := false; score := Some x |}.

(** Eight research articles among others, by descending score. *)
Definition ranked_articles : list article :=
  [ scored "r1" CATEGORY_RESEARCH 110; scored "c1" CATEGORY_COMMUNITY 100;
    scored "r2" CATEGORY_RESEARCH 90; scored "r3" CATEGORY_RESEARCH 80;
    scored "n1" CATEGORY_NEW_TECH 80; scored "r4" CATEGORY_RESEARCH 70;
    scored "r5" CATEGORY_RESEARCH 60; scored "r6" CATEGORY_RESEARCH 50;
    scored "r7" CATEGORY_RESEARCH 40; scored "r8" CATEGORY_RESEARCH 30 ].

(** ** Vocabulary of the further enrichment properties *)

(** The number of articles before position [i] that ask for a summary
    and have a link. *)
Definition candidates_before (i : nat) (articles : list article) : nat :=
  length (filter (λ a, wants_summary a = true) (take i articles)).

(** ** Vocabulary of the further matcher properties *)

(** Every run recorded in a row of [j2len] ends inside [b[blo:bhi]] and
    starts there too. *)
Definition row_ok_b (blo bhi : Z) (j2len : gmap Z Z) : Prop :=
  ∀ j v, j2len !! j = Some v → blo ≤ j < bhi ∧ v ≤ j - blo + 1.

(** The block lies within [b[blo:hi]]. *)
Definition block_ok_b (blo hi : Z) (x : lmatch) : Prop :=
  blo ≤ m_b x ∧ m_b x + m_size x ≤ hi.

(** [sum(triple[-1] for triple in blocks)] *)
Definition blocks_total (blocks : list lmatch) : Z :=
  foldr Z.add 0 (m_size <$> blocks).

(** The elements of [a], and of [b], in the ranges waiting in the queue. *)
Definition queue_span_a (queue : list (Z * Z * Z * Z)) : Z :=
  foldr (λ r w, (r.1.1.2 - r.1.1.1) + w) 0 queue.

Definition queue_span_b (queue : list (Z * Z * Z * Z)) : Z :=
  foldr (λ r w, (r.2 - r.1.2) + w) 0 queue.

(** ** The pipeline of [main] *)

(** [article["score"] = x] *)
Definition set_score (x : Z) (a : article) : article :=
  {| title := title a; link := link a; summary := summary a; source := source a;
     category := category a; published := published a;
     engagement := engagement a; needs_summary := needs_summary a;
     score := Some x |}.

(** [for article in all_articles: article["score"] = calculate_score(article)];
    [clock i] is what [datetime.now()] reads in the call for the article
    at position [i]. *)
Definition score_articles (clock : nat → Z) (articles : list article)
    : list article :=
  imap (λ i a, set_score (calculate_score (clock i) a) a) articles.

(** [list.sort(key=..., reverse=True)] is a stable sort: it orders by
    descending key and keeps the input order among equal keys.  The keys
    are computed first; [None] stands for the [KeyError] of an article
    without ["score"].  The sorted list is built by insertion from the
    right, each element going in front of the first one whose key is not
    greater than its own. *)
Fixpoint insert_desc (x : Z * article) (l : list (Z * article))
    : list (Z * article) :=
  match l with
  | [] => [x]
  | y :: l' => if x.1 <? y.1 then y :: insert_desc x l' else x :: y :: l'
  end.

Definition sort_desc (l : list (Z * article)) : list (Z * article) :=
  foldr insert_desc [] l.

Definition sort_by_score (articles : list article) : option (list article) :=
  keyed ← mapM (λ a, (λ x, (x, a)) <$> score a) articles;
  Some (sort_desc keyed).*2.

(** How a run of [main] ends, up to the rendering and sending of the
    digest: without articles, with an exception, or with the sections of
    the e-mail. *)
Inductive run :=
  | NoArticles
  | Crashed (e : exn)
  | Digest (sections : list (pystr * list article)).

Section Pipeline.

Variable clean_html : pystr → pystr.
Variable requests_get : nat → pystr → option response.
Variable finished_in_time : nat → bool.
Variable clock : nat → Z.

(** The list [articles] that [main] hands to [format_html_email] and
    [format_plain_text], from the enriched list. *)
Definition ranked (enriched : list article) : list article :=
  deduplicate_articles
    (default [] (sort_by_score (score_articles clock enriched))).

(** [main()], from the list the connectors filled. *)
Definition main (all_articles : list article) : run :=
  if bool_decide (all_articles = []) then NoArticles
  else
    match enrich_summaries clean_html requests_get finished_in_time all_articles with
    | (_, Raised e) => Crashed e
    | (enriched, Returned) => Digest (format_html_email (ranked enriched))
    end.

End Pipeline.

(** A keyed article carries its own score as key, and [p] stands at
    least as high as [q]. *)
Definition keyed_ok (p : Z * article) : Prop := score p.2 = Some p.1.

Definition keyed_ge (p q : Z * article) : Prop :=
  q.1 ≤ p.1 ∧ keyed_ok p ∧ keyed_ok q.

(** ** The grouping of [format_plain_text] *)

(** The dictionary [by_category] with the order of its keys, which
    [by_category.items()] follows: a key enters at the end when first
    assigned and keeps its place afterwards. *)
Definition items_append (cat : pystr) (a : article)
    (items : list (pystr * list article)) : list (pystr * list article) :=
  let items' :=
    if bool_decide (cat ∈ items.*1) then items else items ++ [(cat, [])] in
  (λ kv, if bool_decide (kv.1 = cat) then (kv.1, kv.2 ++ [a]) else kv) <$> items'.

Definition by_category_items (articles : list article)
    : list (pystr * list article) :=
  foldl (λ items a, items_append (category a) a items) [] articles.

(** [format_plain_text(articles)], as the sequence of sections it
    writes: every category of [by_category], in the order of the
    dictionary, with the articles listed under it ([cat_articles[:5]]).
    The lines written for each are left out. *)
Definition format_plain_text (articles : list article)
    : list (pystr * list article) :=
  (λ kv, (kv.1, take max_per_category kv.2)) <$> by_category_items articles.

(** The distinct elements of a list, in the order of their first
    occurrence. *)
Definition first_seen (l : list pystr) : list pystr :=
  foldl (λ seen c, if bool_decide (c ∈ seen) then seen else seen ++ [c]) [] l.

(** ** Connectors: what each makes of one fetched item

    The connectors read feeds and JSON through libraries; what is
    embedded here is the part written in the module: the function from
    one parsed item, and the clock, to the article appended or to nothing
    when the loop [continue]s.  A missing key is [None]. *)

Definition RSS_FEEDS_BLOGS : list (pystr * pystr) :=
  [ (lit "OpenAI Blog", lit "https://openai.com/blog/rss/");
    (lit "Anthropic Research", lit "https://www.anthropic.com/feed.xml");
    (lit "Google AI Blog", lit "https://blog.google/technology/ai/rss/");
    (lit "DeepMind Blog", lit "https://deepmind.google/blog/rss.xml");
    (lit "Hugging Face Blog", lit "https://huggingface.co/blog/feed.xml") ].

(** [delta.total_seconds()] of a [timedelta] of [d] microseconds. *)
Definition total_seconds (d : Z) : Q := (inject_Z d / inject_Z 1000000)%Q.

(** [(now - pub_date).total_seconds() > limit] *)
Definition older_than (limit : Z) (now pub_date : Z) : bool :=
  negb (Qle_bool (total_seconds (now - pub_date)) (inject_Z limit)).

(** An entry of a parsed feed; the two dates are the instants of
    [published_parsed] and [updated_parsed]. *)
Record feed_entry := FeedEntry {
  entry_title : option pystr;
  entry_link : option pystr;
  entry_summary : option pystr;
  entry_description : option pystr;
  entry_published : option Z;
  entry_updated : option Z
}.

(** [x or y] on values that are absent or truthy. *)
Definition or_else {A} (x y : option A) : option A :=
  match x with
  | Some v => Some v
  | None => y
  end.

Section Connectors.

Variable clean_html : pystr → pystr.

(** The body of the entry loop of [fetch_rss_feeds].  [now_1] is the
    clock read for an undated entry, [now_2] the clock read for the age
    test. *)
Definition rss_article (now_1 now_2 : Z) (source : pystr) (entry : feed_entry)
    : option article :=
  let is_blog := str_in source RSS_FEEDS_BLOGS.*1 in
  let category := if is_blog then CATEGORY_NEW_TECH else CATEGORY_INDUSTRY in
  let pub_date :=
    match or_else (entry_published entry) (entry_updated entry) with
    | Some published => published
    | None => now_1
    end in
  if older_than (48 * 3600) now_2 pub_date then None
  else
    let summary :=
      match entry_summary entry with
      | Some s => s
      | None => default [] (entry_description entry)
      end in
    let summary := clean_html summary in
    let summary := truncate_summary summary default_max_length in
    let summary := if len summary <? 50 then [] else summary in
    Some {| title := clean_html (default (lit "No title") (entry_title entry));
            link := default [] (entry_link entry);
            summary := summary;
            source := source;
            category := category;
            published := pub_date;
            engagement := 0;
            needs_summary := len summary <? 100;
            score := None |}.

(** The body of the entry loop of [fetch_papers_with_code]. *)
Definition papers_with_code_article (now_1 now_2 : Z) (entry : feed_entry)
    : option article :=
  let title := default [] (entry_title entry) in
  let summary := clean_html (default [] (entry_summary entry)) in
  let summary := truncate_summary summary 300 in
  let link := default [] (entry_link entry) in
  if bool_decide (link = []) then None
  else
    let pub_date := default now_1 (entry_published entry) in
    if older_than (7 * 24 * 3600) now_2 pub_date then None
    else
      Some {| title := title;
              link := link;
              summary := summary;
              source := lit "Papers With Code";
              category := CATEGORY_RESEARCH;
              published := pub_date;
              engagement := 0;
              needs_summary := len summary <? 100;
              score := None |}.

(** An [<entry>] of the arXiv answer: the text of its [<title>],
    [<summary>] and [<id>] after [strip()] and the collapse of white
    space, and the instant of [<published>]; a missing element or an
    unreadable date is [None], which the [except] of the loop turns into
    [continue]. *)
Record arxiv_entry := ArxivEntry {
  arxiv_title : option pystr;
  arxiv_abstract : option pystr;
  arxiv_id : option pystr;
  arxiv_published : option Z
}.

(** The body of the entry loop of [fetch_arxiv]. *)
Definition arxiv_article (now : Z) (entry : arxiv_entry) : option article :=
  title ← arxiv_title entry;
  abstract ← arxiv_abstract entry;
  let summary := truncate_summary abstract 300 in
  link ← arxiv_id entry;
  pub_date ← arxiv_published entry;
  if older_than (7 * 24 * 3600) now pub_date then None
  else
    Some {| title := title;
            link := link;
            summary := summary;
            source := lit "arXiv";
            category := CATEGORY_RESEARCH;
            published := pub_date;
            engagement := 0;
            needs_summary := false;
            score := None |}.

(** The [data] of a Reddit post; [created_utc] is in seconds. *)
Record reddit_post := RedditPost {
  post_stickied : bool;
  post_ups : option Z;
  post_created_utc : option Z;
  post_selftext : option pystr;
  post_url : option pystr;
  post_permalink : option pystr;
  post_title : option pystr
}.

(** The body of the post loop of [fetch_reddit]. *)
Definition reddit_article (now : Z) (subreddit category : pystr)
    (post_data : reddit_post) : option article :=
  if post_stickied post_data then None
  else
    let score := default 0 (post_ups post_data) in
    if score <? 50 then None
    else
      let pub_time := default 0 (post_created_utc post_data) * 1000000 in
      if older_than (48 * 3600) now pub_time then None
      else
        let selftext := default [] (post_selftext post_data) in
        let summary :=
          if negb (bool_decide (selftext = [])) && (50 <? len selftext)
          then truncate_summary (clean_html selftext) 300
          else [] in
        let url := default [] (post_url post_data) in
        let url :=
          if contains (lit "reddit.com") url || bool_decide (url = [])
          then lit "https://reddit.com" ++ default [] (post_permalink post_data)
          else url in
        Some {| title := default (lit "No title") (post_title post_data);
                link := url;
                summary := summary;
                source := lit "r/" ++ subreddit;
                category := category;
                published := pub_time;
                engagement := score;
                needs_summary := len summary <? 100;
                score := None |}.

End Connectors.

(** A Hacker News item; [time] is in seconds. *)
Record hn_story := HnStory {
  story_type : option pystr;
  story_title : option pystr;
  story_score : option Z;
  story_time : option Z;
  story_url : option pystr
}.

Definition ai_terms : list pystr :=
  [ lit " ai "; lit "a]i"; lit "[ai"; lit "ai,";
    lit "gpt-"; lit "gpt4"; lit "gpt3"; lit "chatgpt"; lit "llm"; lit "llama";
    lit "claude"; lit "gemini"; lit "openai"; lit "anthropic"; lit "deepmind";
    lit "machine learning"; lit "deep learning"; lit "neural net";
    lit "transformer"; lit "diffusion model"; lit "stable diffusion";
    lit "midjourney"; lit "copilot"; lit "language model"; lit "hugging face";
    lit "agi"; lit "alignment"; lit "multimodal"; lit "generative ai";
    lit "fine-tun"; lit "fine tun"; lit "embedding"; lit "rag "; lit "vector db" ].

Definition generic_terms : list pystr :=
  [ lit "bluetooth"; lit "bitcoin"; lit "crypto"; lit "blockchain"; lit "vpn";
    lit "browser" ].

(** [any(term in title for term in terms)] *)
Definition any_term_in (terms : list pystr) (title : pystr) : bool :=
  existsb (λ term, contains term title) terms.

(** [f"{n}"] for an integer. *)
Definition str_of_int (n : Z) : pystr :=
  lit (DecimalString.NilZero.string_of_int (Z.to_int n)).

(** The body of the story loop of [fetch_hacker_news], on the item
    fetched for [story_id] ([None] when the item is [null]). *)
Definition hn_article (now : Z) (story_id : Z) (item : option hn_story)
    : option article :=
  story ← item;
  if negb (bool_decide (story_type story = Some (lit "story"))) then None
  else
    let title := lower (default [] (story_title story)) in
    if negb (any_term_in ai_terms title) then None
    else if any_term_in generic_terms title then None
    else
      let score := default 0 (story_score story) in
      if score <? 50 then None
      else
        let pub_time := default 0 (story_time story) * 1000000 in
        if older_than (48 * 3600) now pub_time then None
        else
          let url :=
            default (lit "https://news.ycombinator.com/item?id=" ++ str_of_int story_id)
                    (story_url story) in
          Some {| title := default [] (story_title story);
                  link := url;
                  summary := [];
                  source := lit "Hacker News";
                  category := CATEGORY_COMMUNITY;
                  published := pub_time;
                  engagement := score;
                  needs_summary := true;
                  score := None |}.

(** The story loop of [fetch_hacker_news]: it stops at ten articles.
    [items] are the items fetched for the first hundred top stories, with
    their ids; [clock i] is read for the age test of the item at position
    [i]. *)
Fixpoint hn_loop (clock : nat → Z) (i : nat) (items : list (Z * option hn_story))
    (articles : list article) : list article :=
  match items with
  | [] => articles
  | (story_id, item) :: items' =>
      if 10 <=? Z.of_nat (length articles) then articles
      else
        match hn_article (clock i) story_id item with
        | Some a => hn_loop clock (S i) items' (articles ++ [a])
        | None => hn_loop clock (S i) items' articles
        end
  end.

Definition fetch_hacker_news (clock : nat → Z) (items : list (Z * option hn_story))
    : list article :=
  hn_loop clock 0 (take 100 items) [].

(** Items for the examples of the connectors. *)
Definition entry_short : feed_entry :=
  {| entry_title := Some (lit "A short note");
     entry_link := Some (lit "https://example.com/note");
     entry_summary := Some (lit "Too short to keep.");
     entry_description := None;
     entry_published := None;
     entry_updated := None |}.

Definition arxiv_short : arxiv_entry :=
  {| arxiv_title := Some (lit "A paper");
     arxiv_abstract := Some (lit "We prove a theorem.");
     arxiv_id := Some (lit "http://arxiv.org/abs/0000.00000v1");
     arxiv_published := Some 0 |}.

Definition post_self : reddit_post :=
  {| post_stickied := false;
     post_ups := Some 50;
     post_created_utc := Some 0;
     post_selftext := Some (repeat "a"%char 60);
     post_url := Some (lit "https://www.reddit.com/r/LocalLLaMA/comments/1/x/");
     post_permalink := Some (lit "/r/LocalLLaMA/comments/1/x/");
     post_title := Some (lit "A self post") |}.

Definition story_ask : hn_story :=
  {| story_type := Some (lit "story");
     story_title := Some (lit "Ask HN: which LLM do you run locally?");
     story_score := Some 50;
     story_time := Some 0;
     story_url := None |}.

(** ** Vocabulary for a sequence matched against itself *)

Section SelfMatchVocabulary.

Variable s : pystr.
Variable b2j : gmap ascii (list Z).

(** Position [i] of [s] holds an element that the index knows. *)
Definition indexed (i : Z) : Prop :=
  0 ≤ i ∧ ∃ x js, s !! Z.to_nat i = Some x ∧ b2j !! x = Some js.

(** The [k] positions ending at [i] are all indexed. *)
Definition window (i k : Z) : Prop := ∀ t, 0 ≤ t < k → indexed (i - t).

(** The indices the search looks at in row [i]. *)
Definition row_js (i : Z) : list Z :=
  default [] (s !! Z.to_nat i ≫= λ x, b2j !! x).

(** The best block lies on the diagonal and is at least as long as
    every window of indexed positions ending before row [i]. *)
Definition best_inv (i : Z) (best : lmatch) : Prop :=
  0 ≤ m_size best ∧ m_a best = m_b best
  ∧ ∀ r k, 0 ≤ r < i → window r k → k ≤ m_size best.

(** Each run length kept for row [i] is a window in both copies. *)
Definition runs_sound (i : Z) (j2len : gmap Z Z) : Prop :=
  ∀ j v, j2len !! j = Some v → 1 ≤ v ∧ window i v ∧ window j v.

(** The entry of the diagonal is at least as long as every window
    ending at [i]. *)
Definition diagonal_full (i : Z) (j2len : gmap Z Z) : Prop :=
  ∀ k, 1 ≤ k → window i k → ∃ v, j2len !! i = Some v ∧ k ≤ v.

End SelfMatchVocabulary.

(** What [__chain_b] guarantees of an index of [s]: every
    list holds positions of its element, all of them, in ascending
    order. *)
Definition index_of (s : pystr) (b2j : gmap ascii (list Z)) : Prop :=
  (∀ x js j, b2j !! x = Some js → j ∈ js → 0 ≤ j ∧ s !! Z.to_nat j = Some x)
  ∧ (∀ x js (j : nat), b2j !! x = Some js → s !! j = Some x → Z.of_nat j ∈ js)
  ∧ (∀ x js, b2j !! x = Some js → StronglySorted Z.lt js).

(** The title of [llm_1] in capitals. *)
Definition llm_shout : article := article_titled "NEW LLM BEATS BENCHMARK".

Example truncate_short : truncate_summary (lit "Hello world.") 280 = lit "Hello world.".
Proof. reflexivity. Qed.

Example truncate_sentence :
  truncate_summary (lit "One two. Three four five six") 12 = lit "One two.".
Proof. reflexivity. Qed.

Example truncate_word :
  truncate_summary (lit "abcdefghi jklmnop") 10 = lit "abcdefghi...".
Proof. reflexivity. Qed.

Example truncate_raw :
  truncate_summary (lit "abcdefghijklmnop") 10 = lit "abcdefghij...".
Proof. reflexivity. Qed.


(** * Properties *)

(** ** Strings *)

Lemma len_nonneg (s : pystr) : 0 ≤ len s.
Proof. unfold len. lia. Qed.

Lemma len_app (s t : pystr) : len (s ++ t) = len s + len t.
Proof. unfold len. rewrite length_app. lia. Qed.

Lemma slice_to_len (k : Z) (s : pystr) :
  0 ≤ k → len (slice_to k s) = Z.min k (len s).
Proof.
  intros Hk. unfold slice_to, len.
  destruct (Z.ltb_spec k 0) as [?|_]; [lia|].
  rewrite length_take. lia.
Qed.

Lemma slice_to_lookup (k : Z) (s : pystr) (i : nat) :
  0 ≤ k → Z.of_nat i < k → slice_to k s !! i = s !! i.
Proof.
  intros Hk Hi. unfold slice_to.
  destruct (Z.ltb_spec k 0) as [?|_]; [lia|].
  apply lookup_take_lt. lia.
Qed.

(** [rfind_from] either keeps [found] or returns an index of the part
    scanned. *)
Lemma rfind_from_range (c : ascii) (s : pystr) (i found : Z) :
  rfind_from c s i found = found ∨
  i ≤ rfind_from c s i found < i + len s.
Proof.
  revert i found. induction s as [|x s IH]; intros i found; simpl.
  - by left.
  - unfold len in *. simpl length.
    destruct (IH (i + 1) (if Ascii.eqb x c then i else found)) as [E|E].
    + rewrite E. destruct (Ascii.eqb x c); [right; lia | by left].
    + right. lia.
Qed.

Lemma rfind_range (c : ascii) (s : pystr) :
  rfind c s = -1 ∨ 0 ≤ rfind c s < len s.
Proof. unfold rfind. destruct (rfind_from_range c s 0 (-1)); auto. Qed.

(** An occurrence of [c] at offset [j] of the part scanned pushes the
    result to that offset or beyond. *)
Lemma rfind_from_ge (c : ascii) (s : pystr) (i found : Z) (j : nat) :
  s !! j = Some c → i + Z.of_nat j ≤ rfind_from c s i found.
Proof.
  revert i found j. induction s as [|x s IH]; intros i found j Hj; [done|].
  destruct j as [|j]; simpl in *.
  - injection Hj as ->. rewrite Ascii.eqb_refl.
    destruct (rfind_from_range c s (i + 1) i) as [E|E]; lia.
  - specialize (IH (i + 1) (if Ascii.eqb x c then i else found) j Hj). lia.
Qed.

Lemma rfind_ge (c : ascii) (s : pystr) (j : nat) :
  s !! j = Some c → Z.of_nat j ≤ rfind c s.
Proof. intros H. unfold rfind. by apply (rfind_from_ge c s 0 (-1) j). Qed.

(** A result other than [found] is the position of a [c]. *)
Lemma rfind_from_hit (c : ascii) (s : pystr) (i found : Z) :
  rfind_from c s i found ≠ found →
  s !! Z.to_nat (rfind_from c s i found - i) = Some c.
Proof.
  revert i found. induction s as [|x s IH]; intros i found Hne; simpl in *; [done|].
  destruct (Ascii.eqb_spec x c) as [->|Hxc].
  - destruct (decide (rfind_from c s (i + 1) i = i)) as [E|E].
    + rewrite E. by replace (i - i) with 0 by lia.
    + specialize (IH (i + 1) i E).
      destruct (rfind_from_range c s (i + 1) i) as [?|Hr]; [done|].
      replace (Z.to_nat (rfind_from c s (i + 1) i - i))
        with (S (Z.to_nat (rfind_from c s (i + 1) i - (i + 1)))) by lia.
      done.
  - specialize (IH (i + 1) found Hne).
    destruct (rfind_from_range c s (i + 1) found) as [?|Hr]; [done|].
    replace (Z.to_nat (rfind_from c s (i + 1) found - i))
      with (S (Z.to_nat (rfind_from c s (i + 1) found - (i + 1)))) by lia.
    done.
Qed.

Lemma rfind_hit (c : ascii) (s : pystr) :
  0 ≤ rfind c s → s !! Z.to_nat (rfind c s) = Some c.
Proof.
  intros H. unfold rfind in *.
  replace (rfind_from c s 0 (-1)) with (rfind_from c s 0 (-1) - 0) at 1 by lia.
  apply rfind_from_hit. lia.
Qed.

Lemma gt_half_spec (x y : Z) : gt_half x y = true ↔ y < 2 * x.
Proof.
  unfold gt_half. rewrite negb_true_iff, <- not_true_iff_false, Qle_bool_iff.
  unfold Qle. simpl. lia.
Qed.

Lemma len_ellipsis : len ellipsis = 3.
Proof. reflexivity. Qed.

(** ** Truncator *)

Lemma truncate_summary_short (s : pystr) (n : Z) :
  len s ≤ n → truncate_summary s n = s.
Proof.
  intros H. unfold truncate_summary.
  destruct (Z.leb_spec (len s) n); [|lia]. by rewrite orb_true_r.
Qed.

(** The three branches taken on a text longer than [max_length]. *)
Lemma truncate_summary_long (s : pystr) (n : Z) :
  0 ≤ n → n < len s →
  let truncated := slice_to n s in
  let cut_point :=
    Z.max (Z.max (rfind "." truncated) (rfind "?" truncated)) (rfind "!" truncated) in
  let last_space := rfind " " truncated in
  truncate_summary s n =
    if gt_half cut_point n then slice_to (cut_point + 1) s
    else if 0 <? last_space then slice_to last_space s ++ ellipsis
    else truncated ++ ellipsis.
Proof.
  intros Hn H. unfold truncate_summary.
  destruct (Z.leb_spec (len s) n); [lia|].
  rewrite bool_decide_eq_false_2; [done|].
  intros ->. unfold len in H. simpl in H. lia.
Qed.

Lemma cut_point_range (s : pystr) :
  let cut_point := Z.max (Z.max (rfind "." s) (rfind "?" s)) (rfind "!" s) in
  cut_point < len s ∧
  (0 ≤ cut_point → ∃ c, s !! Z.to_nat cut_point = Some c ∧ is_terminal c = true).
Proof.
  intros cut_point. subst cut_point.
  pose proof (len_nonneg s).
  pose proof (rfind_range "." s). pose proof (rfind_range "?" s).
  pose proof (rfind_range "!" s).
  split; [lia|]. intros Hc.
  destruct (Z.max_spec (rfind "." s) (rfind "?" s)) as [[_ E1]|[_ E1]];
    destruct (Z.max_spec (Z.max (rfind "." s) (rfind "?" s)) (rfind "!" s))
      as [[_ E2]|[_ E2]];
    rewrite E2 in *; try rewrite E1 in *;
    eexists; (split; [apply rfind_hit; lia | reflexivity]).
Qed.

Lemma sentence_boundary_cut (s : pystr) (n : Z) :
  0 < n → n < len s →
  let truncated := slice_to n s in
  let cut_point :=
    Z.max (Z.max (rfind "." truncated) (rfind "?" truncated)) (rfind "!" truncated) in
  sentence_boundary s n ↔ n < 2 * cut_point.
Proof.
  intros Hn Hlen truncated cut_point.
  assert (Hl : len truncated = n).
  { unfold truncated. rewrite slice_to_len; lia. }
  split.
  - intros (i & c & Hi1 & Hi2 & Hc & Ht).
    assert (Hc' : truncated !! i = Some c).
    { unfold truncated. rewrite slice_to_lookup; [done|lia..]. }
    assert (Z.of_nat i ≤ cut_point); [|lia].
    unfold is_terminal in Ht. apply orb_prop in Ht as [Ht|Ht];
      [apply orb_prop in Ht as [Ht|Ht]|];
      apply Ascii.eqb_eq in Ht; subst c;
      apply rfind_ge in Hc'; lia.
  - intros Hcut.
    destruct (cut_point_range truncated) as [Hr Hc].
    fold cut_point in Hr, Hc.
    destruct Hc as (c & Hc & Ht); [lia|].
    exists (Z.to_nat cut_point), c.
    split; [lia|]. split; [lia|]. split; [|done].
    rewrite <- Hc. unfold truncated. symmetry. apply slice_to_lookup; lia.
Qed.

(** C3 (as stated): the bound [len(result) <= n] fails for a text
    whose prefix has a word boundary: cutting ["abcdefghi jklmnop"] at 10
    gives ["abcdefghi..."], of length 12. *)
Lemma truncation_bound_as_stated_fails :
  ¬ truncation_bound_as_stated (lit "abcdefghi jklmnop") 10.
Proof.
  intros [_ H]. destruct H as [H _]; [reflexivity|].
  assert (Hw : word_boundary (lit "abcdefghi jklmnop") 10).
  { exists 9%nat. split; [lia | reflexivity]. }
  specialize (H Hw). vm_compute in H. by apply H.
Qed.

(** Lengths of the three results on a text longer than [n]. *)
Lemma truncate_summary_long_len (s : pystr) (n : Z) :
  0 < n → n < len s →
  len (truncate_summary s n) ≤ n + len ellipsis ∧
  (sentence_boundary s n → len (truncate_summary s n) ≤ n) ∧
  (¬ sentence_boundary s n → inner_word_boundary s n →
     len (truncate_summary s n) ≤ n + 2).
Proof.
  intros Hn Hlen.
  pose proof (truncate_summary_long s n ltac:(lia) Hlen) as E. cbv zeta in E.
  pose proof (sentence_boundary_cut s n Hn Hlen) as Hsb. cbv zeta in Hsb.
  set (truncated := slice_to n s) in *.
  set (cut_point := Z.max _ _) in *.
  set (last_space := rfind " " truncated) in *.
  assert (Hl : len truncated = n).
  { unfold truncated. rewrite slice_to_len; lia. }
  destruct (cut_point_range truncated) as [Hcut _]. fold cut_point in Hcut.
  assert (Hsp : last_space < n).
  { destruct (rfind_range " " truncated); unfold last_space; lia. }
  rewrite E, len_ellipsis.
  destruct (gt_half cut_point n) eqn:Hg.
  - apply gt_half_spec in Hg.
    rewrite slice_to_len by lia.
    repeat split; intros; lia.
  - assert (¬ n < 2 * cut_point).
    { rewrite <- gt_half_spec. congruence. }
    destruct (Z.ltb_spec 0 last_space) as [Hs|Hs].
    + rewrite len_app, len_ellipsis, slice_to_len by lia.
      repeat split; intros; try lia; tauto.
    + rewrite len_app, len_ellipsis, Hl.
      repeat split; [lia | intros; tauto |].
      intros _ (i & Hi0 & Hi & Hc).
      assert (Z.of_nat i ≤ last_space); [|lia].
      apply rfind_ge. unfold truncated. rewrite slice_to_lookup; [done|lia..].
Qed.

(** Whatever the text, the result is at most the ellipsis longer than
    [n]. *)
Lemma truncate_summary_len (s : pystr) (n : Z) :
  0 < n → len (truncate_summary s n) ≤ n + len ellipsis.
Proof.
  intros Hn. rewrite len_ellipsis. destruct (Z.le_gt_cases (len s) n) as [H|H].
  - rewrite truncate_summary_short by done. lia.
  - destruct (truncate_summary_long_len s n Hn) as [Hb _]; [lia|].
    by rewrite len_ellipsis in Hb.
Qed.

(** C3 (amended): for every string [s] and positive [n],
    [truncate_summary(s, n) == s] whenever [len(s) <= n]; otherwise the
    result has length at most [n + len("...")]; it has length at most [n]
    when the prefix [s[:n]] holds a sentence terminator at an offset
    greater than [n * 0.5], and length at most [n + 2] when the prefix
    holds no such terminator but holds a space past its first
    character. *)
Theorem truncate_summary_bound (s : pystr) (n : Z) :
  0 < n →
  (len s ≤ n → truncate_summary s n = s) ∧
  (n < len s →
     len (truncate_summary s n) ≤ n + len ellipsis ∧
     (sentence_boundary s n → len (truncate_summary s n) ≤ n) ∧
     (¬ sentence_boundary s n → inner_word_boundary s n →
        len (truncate_summary s n) ≤ n + 2)).
Proof.
  intros Hn. split.
  - apply truncate_summary_short.
  - by apply truncate_summary_long_len.
Qed.

Lemma truncate_summary_bound_witness :
  truncate_summary (lit "Hello world.") 280 = lit "Hello world."
  ∧ len (truncate_summary (lit "One two. Three four five six") 12) ≤ 12
  ∧ len (truncate_summary (lit "abcdefghi jklmnop") 10) ≤ 10 + 2.
Proof.
  split; [|split].
  - destruct (truncate_summary_bound (lit "Hello world.") 280) as [H _]; [lia|].
    apply H. by vm_compute.
  - destruct (truncate_summary_bound (lit "One two. Three four five six") 12)
      as [_ H]; [lia|].
    destruct H as (_ & H & _); [reflexivity|].
    apply H. exists 7%nat, "."%char. repeat split; lia.
  - destruct (truncate_summary_bound (lit "abcdefghi jklmnop") 10)
      as [_ H]; [lia|].
    destruct H as (_ & _ & H); [reflexivity|].
    apply H.
    + intros Hs. apply sentence_boundary_cut in Hs; [|lia|reflexivity].
      vm_compute in Hs. discriminate Hs.
    + exists 9%nat. repeat split; lia.
Defined.

(** The bounds [n + 2] and [n + len("...")] are reached. *)
Example truncate_word_boundary_max :
  inner_word_boundary (lit "abcdefghi jklmnop") 10 ∧
  len (truncate_summary (lit "abcdefghi jklmnop") 10) = 10 + 2.
Proof. split; [exists 9%nat; repeat split; lia | reflexivity]. Qed.

Example truncate_leading_space :
  word_boundary (lit " abcdefghijkl") 5 ∧
  truncate_summary (lit " abcdefghijkl") 5 = lit " abcd...".
Proof. split; [exists 0%nat; split; [lia | reflexivity] | reflexivity]. Qed.

(** ** Scorer *)

(** The float test [hours_old <= k] is a test on the age in microseconds. *)
Lemma hours_old_le (now p k : Z) :
  Qle_bool (hours_old now p) (inject_Z k) = (now - p <=? k * hour).
Proof.
  unfold hours_old, Qle_bool, hour. simpl.
  change (Z.pos (1 * 1000000 * 3600)) with 3600000000.
  destruct (Z.leb_spec ((now - p) * 1 * 1 * 1) (k * 3600000000)),
           (Z.leb_spec (now - p) (k * (3600 * 1000000))); lia.
Qed.

Lemma recency_points_age (now p : Z) :
  recency_points (hours_old now p) =
    if now - p <=? 12 * hour then 40
    else if now - p <=? 24 * hour then 30
    else if now - p <=? 48 * hour then 20
    else 10.
Proof. unfold recency_points. by rewrite !hours_old_le. Qed.

Lemma summary_points_get (s : pystr) :
  (if negb (bool_decide (s = [])) && (100 <? len s) then 10 else 0)
  = summary_points s.
Proof.
  unfold summary_points. destruct s; [done|].
  by rewrite bool_decide_eq_false_2.
Qed.

Lemma calculate_score_sum (now : Z) (a : article) :
  calculate_score now a =
    recency_points (hours_old now (published a))
    + engagement_points (engagement a)
    + source_points (source a)
    + summary_points (summary a).
Proof.
  rewrite <- summary_points_get.
  unfold calculate_score, recency_points, engagement_points, source_points.
  repeat match goal with |- context [if ?b then _ else _] => destruct b end; lia.
Qed.

Lemma recency_points_range (h : Q) : 10 ≤ recency_points h ≤ 40.
Proof.
  unfold recency_points.
  repeat match goal with |- context [if ?b then _ else _] => destruct b end; lia.
Qed.

Lemma engagement_points_range (e : Z) : 0 ≤ engagement_points e ≤ 40.
Proof.
  unfold engagement_points.
  repeat match goal with |- context [if ?b then _ else _] => destruct b end; lia.
Qed.

Lemma source_points_range (src : pystr) : 0 ≤ source_points src ≤ 20.
Proof.
  unfold source_points.
  repeat match goal with |- context [if ?b then _ else _] => destruct b end; lia.
Qed.

Lemma summary_points_range (s : pystr) : 0 ≤ summary_points s ≤ 10.
Proof. unfold summary_points. destruct (100 <? len s); lia. Qed.

(** C5: [calculate_score] is the sum of the recency, engagement, source
    and summary buckets; it lies in [10, 110]; an article published one
    hour ago with engagement 600, a high-quality source and a summary of
    150 characters scores 110; an article published sixty hours ago with
    engagement 10, an unlisted source and an empty summary scores 10. *)
Theorem calculate_score_buckets (now : Z) (a : article) :
  calculate_score now a =
    recency_points (hours_old now (published a))
    + engagement_points (engagement a)
    + source_points (source a)
    + summary_points (summary a)
  ∧ 10 ≤ calculate_score now a ≤ 110
  ∧ (now - published a = 1 * hour → engagement a = 600 →
     source a ∈ high_quality_sources → len (summary a) = 150 →
     calculate_score now a = 110)
  ∧ (now - published a = 60 * hour → engagement a = 10 →
     source a ∉ high_quality_sources → source a ∉ RSS_FEEDS_NEWS.*1 →
     summary a = [] →
     calculate_score now a = 10).
Proof.
  pose proof (calculate_score_sum now a) as E.
  split; [done|]. rewrite E. split.
  - pose proof (recency_points_range (hours_old now (published a))).
    pose proof (engagement_points_range (engagement a)).
    pose proof (source_points_range (source a)).
    pose proof (summary_points_range (summary a)). lia.
  - rewrite recency_points_age. unfold source_points, summary_points, str_in.
    split.
    + intros -> -> Hs ->. by rewrite bool_decide_eq_true_2.
    + intros -> -> Hs1 Hs2 ->. by rewrite !bool_decide_eq_false_2.
Qed.

Lemma calculate_score_buckets_witness :
  calculate_score 0 (record_A 0) = 110 ∧ calculate_score 0 (record_B 0) = 10.
Proof.
  split.
  - destruct (calculate_score_buckets 0 (record_A 0)) as (_ & _ & HA & _).
    apply HA; [reflexivity | reflexivity | | reflexivity].
    apply (bool_decide_unpack _). vm_compute. exact I.
  - destruct (calculate_score_buckets 0 (record_B 0)) as (_ & _ & _ & HB).
    apply HB; [reflexivity | reflexivity | | | reflexivity];
      apply (bool_decide_unpack _); vm_compute; exact I.
Defined.

Lemma engagement_points_mono (e1 e2 : Z) :
  e2 ≤ e1 → engagement_points e2 ≤ engagement_points e1.
Proof.
  intros H. unfold engagement_points.
  repeat match goal with
         | |- context [?x <? ?y] => destruct (Z.ltb_spec x y)
         end; lia.
Qed.

Lemma recency_points_mono (now p1 p2 : Z) :
  p2 ≤ p1 →
  recency_points (hours_old now p2) ≤ recency_points (hours_old now p1).
Proof.
  intros H. rewrite !recency_points_age.
  repeat match goal with
         | |- context [?x <=? ?y] => destruct (Z.leb_spec x y)
         end; lia.
Qed.

(** C7: with the clock fixed, raising the engagement of an article, or
    moving its publication instant later, never lowers its score. *)
Theorem calculate_score_monotone (now : Z) (a : article) :
  (∀ e1 e2, e2 < e1 →
     calculate_score now (with_engagement e2 a)
     ≤ calculate_score now (with_engagement e1 a))
  ∧ (∀ p1 p2, p2 < p1 →
     calculate_score now (with_published p2 a)
     ≤ calculate_score now (with_published p1 a)).
Proof.
  split.
  - intros e1 e2 H. rewrite !calculate_score_sum. simpl.
    pose proof (engagement_points_mono e1 e2). lia.
  - intros p1 p2 H. rewrite !calculate_score_sum. simpl.
    pose proof (recency_points_mono now p1 p2). lia.
Qed.

Lemma calculate_score_monotone_witness :
  calculate_score 0 (with_engagement 10 (record_A 0))
  ≤ calculate_score 0 (with_engagement 600 (record_A 0))
  ∧ calculate_score 0 (with_published (- 60 * hour) (record_A 0))
    ≤ calculate_score 0 (with_published (- 1 * hour) (record_A 0)).
Proof.
  destruct (calculate_score_monotone 0 (record_A 0)) as [He Hp].
  split; [apply He | apply Hp]; reflexivity.
Defined.

Example score_drops_with_age :
  calculate_score 0 (with_published (- 60 * hour) (record_A 0)) = 80 ∧
  calculate_score 0 (with_published (- 1 * hour) (record_A 0)) = 110.
Proof. split; reflexivity. Qed.

(** ** SequenceMatcher *)

Section Matcher.

Variables a b : pystr.
Variable b2j : gmap ascii (list Z).

Lemma scan_row_ok (alo i blo bhi : Z) (j2len : gmap Z Z) (js : list Z)
    (newj2len : gmap Z Z) (best : lmatch) :
  alo ≤ i →
  row_ok (i - alo) j2len →
  row_ok (i - alo + 1) newj2len →
  block_ok alo (i + 1) best →
  row_ok (i - alo + 1) (scan_row i blo bhi j2len js newj2len best).1
  ∧ block_ok alo (i + 1) (scan_row i blo bhi j2len js newj2len best).2.
Proof.
  intros Hi Hrow. revert newj2len best.
  induction js as [|j js IH]; intros newj2len best Hnew Hbest; simpl; [done|].
  destruct (j <? blo); [by apply IH|].
  destruct (bhi <=? j); [done|].
  set (k := default 0 (j2len !! (j - 1)) + 1).
  assert (Hk : 1 ≤ k ≤ i - alo + 1).
  { unfold k. destruct (j2len !! (j - 1)) as [v|] eqn:E; simpl.
    - apply Hrow in E. lia.
    - lia. }
  apply IH.
  - intros j' v. rewrite lookup_insert. case_decide; [|by apply Hnew].
    intros [= <-]. done.
  - destruct (m_size best <? k); [|done].
    unfold block_ok. simpl. lia.
Qed.

Lemma rows_ok (alo blo bhi : Z) (n : nat) :
  ∀ (i : Z) (st : gmap Z Z * lmatch),
    alo ≤ i → row_ok (i - alo) st.1 → block_ok alo i st.2 →
    block_ok alo (i + Z.of_nat n)
      (foldl (λ st i,
                scan_row i blo bhi st.1
                  (default [] (a !! Z.to_nat i ≫= λ x, b2j !! x)) ∅ st.2)
             st (seqZ i (Z.of_nat n))).2.
Proof.
  induction n as [|n IH]; intros i st Hi Hrow Hbest.
  - simpl. unfold block_ok in *. lia.
  - rewrite seqZ_cons by lia. simpl.
    replace (Z.pred (Z.of_nat (S n))) with (Z.of_nat n) by lia.
    replace (i + Z.of_nat (S n)) with (Z.succ i + Z.of_nat n) by lia.
    assert (Hempty : row_ok (i - alo + 1) ∅).
    { intros j v. by rewrite lookup_empty. }
    assert (Hbest' : block_ok alo (i + 1) st.2).
    { unfold block_ok in *. lia. }
    destruct (scan_row_ok alo i blo bhi st.1
                (default [] (a !! Z.to_nat i ≫= λ x, b2j !! x)) ∅ st.2
                Hi Hrow Hempty Hbest') as [Hr Hb].
    apply IH; [lia| |].
    + by replace (Z.succ i - alo) with (i - alo + 1) by lia.
    + by replace (Z.succ i) with (i + 1) by lia.
Qed.

Lemma longest_in_index_ok (alo ahi blo bhi : Z) :
  alo ≤ ahi → block_ok alo ahi (longest_in_index a b2j alo ahi blo bhi).
Proof.
  intros H. unfold longest_in_index.
  pose proof (rows_ok alo blo bhi (Z.to_nat (ahi - alo)) alo (∅, Match alo blo 0))
    as Hr.
  rewrite Z2Nat.id in Hr by lia.
  replace (alo + (ahi - alo)) with ahi in Hr by lia.
  apply Hr; [lia| |].
  - intros j v. simpl. by rewrite lookup_empty.
  - unfold block_ok. simpl. lia.
Qed.

Lemma extend_left_ok (fuel : nat) (alo blo hi : Z) (m : lmatch) :
  block_ok alo hi m → block_ok alo hi (extend_left fuel a b alo blo m).
Proof.
  revert m. induction fuel as [|fuel IH]; intros m Hm; simpl; [done|].
  destruct (Z.ltb_spec alo (m_a m)); simpl; [|done].
  destruct (_ && _); [|done].
  apply IH. unfold block_ok in *. simpl. lia.
Qed.

Lemma extend_right_ok (fuel : nat) (alo ahi bhi : Z) (m : lmatch) :
  block_ok alo ahi m → block_ok alo ahi (extend_right fuel a b ahi bhi m).
Proof.
  revert m. induction fuel as [|fuel IH]; intros m Hm; simpl; [done|].
  destruct (Z.ltb_spec (m_a m + m_size m) ahi); simpl; [|done].
  destruct (_ && _); [|done].
  apply IH. unfold block_ok in *. simpl. lia.
Qed.

(** The block found lies within the range of [a] searched. *)
Lemma find_longest_match_ok (alo ahi blo bhi : Z) :
  alo ≤ ahi → block_ok alo ahi (find_longest_match a b b2j alo ahi blo bhi).
Proof.
  intros H. unfold find_longest_match.
  by apply extend_right_ok, extend_left_ok, longest_in_index_ok.
Qed.

(** Both [while] loops stop on their own test: with the turns
    [find_longest_match] allows them, the test is false at the block
    returned. *)
Lemma extend_left_exit (fuel : nat) (alo blo : Z) (m : lmatch) :
  (Z.to_nat (m_a m - alo) ≤ fuel)%nat →
  let r := extend_left fuel a b alo blo m in
  (alo <? m_a r) && (blo <? m_b r) && elem_eq a b (m_a r - 1) (m_b r - 1) = false.
Proof.
  revert m. induction fuel as [|fuel IH]; intros m Hf; simpl.
  - destruct (Z.ltb_spec alo (m_a m)); [lia|done].
  - destruct ((alo <? m_a m) && (blo <? m_b m)
              && elem_eq a b (m_a m - 1) (m_b m - 1)) eqn:E; [|done].
    apply IH. simpl. apply andb_prop in E as [E _]. apply andb_prop in E as [E _].
    apply Z.ltb_lt in E. lia.
Qed.

Lemma extend_right_exit (fuel : nat) (ahi bhi : Z) (m : lmatch) :
  (Z.to_nat (ahi - (m_a m + m_size m)) ≤ fuel)%nat →
  let r := extend_right fuel a b ahi bhi m in
  (m_a r + m_size r <? ahi) && (m_b r + m_size r <? bhi)
  && elem_eq a b (m_a r + m_size r) (m_b r + m_size r) = false.
Proof.
  revert m. induction fuel as [|fuel IH]; intros m Hf; simpl.
  - destruct (Z.ltb_spec (m_a m + m_size m) ahi); [lia|done].
  - destruct ((m_a m + m_size m <? ahi) && (m_b m + m_size m <? bhi)
              && elem_eq a b (m_a m + m_size m) (m_b m + m_size m)) eqn:E;
      [|done].
    apply IH. simpl. apply andb_prop in E as [E _]. apply andb_prop in E as [E _].
    apply Z.ltb_lt in E. lia.
Qed.

Lemma extend_right_start (fuel : nat) (ahi bhi : Z) (m : lmatch) :
  m_a (extend_right fuel a b ahi bhi m) = m_a m
  ∧ m_b (extend_right fuel a b ahi bhi m) = m_b m.
Proof.
  revert m. induction fuel as [|fuel IH]; intros m; simpl; [done|].
  destruct (_ && _ && _); [|done]. apply (IH (Match _ _ _)).
Qed.

(** The block returned cannot grow on either side. *)
Lemma find_longest_match_maximal (alo ahi blo bhi : Z) :
  let r := find_longest_match a b b2j alo ahi blo bhi in
  (alo <? m_a r) && (blo <? m_b r) && elem_eq a b (m_a r - 1) (m_b r - 1) = false
  ∧ (m_a r + m_size r <? ahi) && (m_b r + m_size r <? bhi)
    && elem_eq a b (m_a r + m_size r) (m_b r + m_size r) = false.
Proof.
  unfold find_longest_match.
  set (m0 := longest_in_index a b2j alo ahi blo bhi).
  set (m1 := extend_left (Z.to_nat (m_a m0 - alo)) a b alo blo m0).
  split.
  - destruct (extend_right_start (Z.to_nat (ahi - (m_a m1 + m_size m1))) ahi bhi m1)
      as [-> ->].
    by apply extend_left_exit.
  - by apply extend_right_exit.
Qed.

(** The queue empties within [queue_weight] turns. *)
Lemma matching_blocks_loop_fuel (fuel : nat) :
  ∀ (queue : list (Z * Z * Z * Z)) (blocks : list lmatch),
    Forall (λ r, r.1.1.1 ≤ r.1.1.2) queue →
    (queue_weight queue ≤ fuel)%nat →
    is_Some (matching_blocks_loop fuel a b b2j queue blocks).
Proof.
  induction fuel as [|fuel IH]; intros queue blocks Hq Hw.
  - destruct queue as [|[[[alo ahi] blo] bhi] queue]; simpl in *; [done|lia].
  - destruct queue as [|[[[alo ahi] blo] bhi] queue]; [done|].
    apply Forall_cons in Hq as [Hr Hq]. simpl in Hr, Hw.
    pose proof (find_longest_match_ok alo ahi blo bhi Hr) as (H1 & H2 & H3).
    simpl. set (x := find_longest_match a b b2j alo ahi blo bhi) in *.
    destruct (Z.eqb_spec (m_size x) 0) as [E|E]; [apply IH; [done|lia]|].
    destruct ((alo <? m_a x) && (blo <? m_b x)) eqn:E1;
      destruct ((m_a x + m_size x <? ahi) && (m_b x + m_size x <? bhi)) eqn:E2;
      try (apply andb_prop in E1 as [E1 _]; apply Z.ltb_lt in E1);
      try (apply andb_prop in E2 as [E2 _]; apply Z.ltb_lt in E2);
      (apply IH;
       [repeat (apply Forall_cons; split; [simpl; lia|]); done
       |simpl; lia]).
Qed.

End Matcher.

(** [get_matching_blocks] never runs out of turns. *)
Lemma matching_blocks_loop_total (a b : pystr) :
  is_Some (matching_blocks_loop (blocks_fuel a) a b (chain_b b)
                                [(0, len a, 0, len b)] []).
Proof.
  apply matching_blocks_loop_fuel.
  - apply Forall_cons. split; [apply len_nonneg|done].
  - unfold blocks_fuel, len. simpl. lia.
Qed.

(** ** Deduplicator *)

Lemma exceeds_threshold_spec (q : Q) :
  exceeds_threshold q = true ↔ (6 # 10 < q)%Q.
Proof.
  unfold exceeds_threshold.
  rewrite negb_true_iff, <- not_true_iff_false, Qle_bool_iff.
  split; [apply Qnot_le_lt | apply Qlt_not_le].
Qed.

Lemma is_duplicate_spec (a : article) (accepted : list article) :
  is_duplicate (title_key a) (title_key <$> accepted) = true
  ↔ near_duplicate a accepted.
Proof.
  unfold is_duplicate, near_duplicate. rewrite existsb_exists. split.
  - intros (seen & Hin & Hr).
    apply list_elem_of_In, list_elem_of_fmap in Hin as (u & -> & Hu).
    exists u. split; [done|]. by apply exceeds_threshold_spec.
  - intros (u & Hu & Hr). exists (title_key u). split.
    + apply list_elem_of_In, list_elem_of_fmap. eauto.
    + by apply exceeds_threshold_spec.
Qed.

(** The loop keeps [seen_titles] equal to the keys of [unique]. *)
Lemma dedup_seen_titles (articles : list article) :
  (foldl dedup_step ([], []) articles).2
  = title_key <$> (foldl dedup_step ([], []) articles).1.
Proof.
  induction articles as [|a l IH] using rev_ind; [done|].
  rewrite foldl_snoc. unfold dedup_step at 1 3.
  destruct (is_duplicate _ _); [done|].
  simpl. by rewrite fmap_app, IH.
Qed.

(** One more input article: it is dropped when too close to an accepted
    one, appended otherwise. *)
Lemma deduplicate_articles_snoc (articles : list article) (a : article) :
  deduplicate_articles (articles ++ [a]) =
    if is_duplicate (title_key a) (title_key <$> deduplicate_articles articles)
    then deduplicate_articles articles
    else deduplicate_articles articles ++ [a].
Proof.
  unfold deduplicate_articles. rewrite foldl_snoc. unfold dedup_step at 1.
  rewrite dedup_seen_titles. fold (title_key a).
  by destruct (is_duplicate _ _).
Qed.

(** What is accepted keeps its input order. *)
Lemma deduplicate_articles_sublist (articles : list article) :
  deduplicate_articles articles `sublist_of` articles.
Proof.
  induction articles as [|a l IH] using rev_ind; [done|].
  rewrite deduplicate_articles_snoc. destruct (is_duplicate _ _).
  - by apply sublist_inserts_r.
  - by apply sublist_app.
Qed.

(** Later articles do not touch what was accepted before them. *)
Lemma deduplicate_articles_prefix (articles rest : list article) :
  deduplicate_articles articles `prefix_of` deduplicate_articles (articles ++ rest).
Proof.
  induction rest as [|a l IH] using rev_ind; [by rewrite app_nil_r|].
  rewrite app_assoc, deduplicate_articles_snoc. destruct (is_duplicate _ _).
  - done.
  - by apply prefix_app_r.
Qed.

(** C4: articles are taken in input order (what is accepted is a
    sub-sequence of the input, fixed once the article has been seen), and
    the next one is discarded exactly when its lower-cased title has a
    similarity ratio above 0.6 with the lower-cased title of an article
    accepted before it; of two articles the first always survives and the
    second survives exactly when that ratio is at most 0.6. *)
Theorem deduplicate_articles_threshold (articles : list article) (a b : article) :
  deduplicate_articles articles `sublist_of` articles
  ∧ (∀ rest, deduplicate_articles articles
             `prefix_of` deduplicate_articles (articles ++ rest))
  ∧ (near_duplicate a (deduplicate_articles articles) →
     deduplicate_articles (articles ++ [a]) = deduplicate_articles articles)
  ∧ (¬ near_duplicate a (deduplicate_articles articles) →
     deduplicate_articles (articles ++ [a]) = deduplicate_articles articles ++ [a])
  ∧ ((6 # 10 < ratio (title_key b) (title_key a))%Q →
     deduplicate_articles [a; b] = [a])
  ∧ ((ratio (title_key b) (title_key a) <= 6 # 10)%Q →
     deduplicate_articles [a; b] = [a; b]).
Proof.
  pose proof (deduplicate_articles_snoc articles a) as E.
  pose proof (is_duplicate_spec a (deduplicate_articles articles)) as D.
  split; [apply deduplicate_articles_sublist|].
  split; [apply deduplicate_articles_prefix|].
  split; [|split; [|split]].
  - intros H. apply D in H. by rewrite E, H.
  - intros H. rewrite E. destruct (is_duplicate _ _); [|done].
    exfalso. by apply H, D.
  - intros H. unfold deduplicate_articles. simpl.
    unfold dedup_step at 1. simpl. fold (title_key a) (title_key b).
    unfold orb. apply exceeds_threshold_spec in H. by rewrite H.
  - intros H. unfold deduplicate_articles. simpl.
    unfold dedup_step at 1. simpl. fold (title_key a) (title_key b).
    destruct (exceeds_threshold _) eqn:Hx; [|done].
    apply exceeds_threshold_spec in Hx. by apply Qlt_not_le in Hx.
Qed.

Lemma deduplicate_single (a : article) : deduplicate_articles [a] = [a].
Proof. reflexivity. Qed.

Lemma near_duplicate_single (a u : article) :
  near_duplicate a [u] ↔ (6 # 10 < ratio (title_key a) (title_key u))%Q.
Proof.
  unfold near_duplicate. split.
  - intros (v & Hv & Hr). apply list_elem_of_singleton in Hv. by subst v.
  - intros Hr. exists u. split; [apply list_elem_of_singleton|]; done.
Qed.

Lemma deduplicate_articles_threshold_witness :
  deduplicate_articles ([llm_1] ++ [llm_2]) = deduplicate_articles [llm_1]
  ∧ deduplicate_articles ([llm_1] ++ [funding])
    = deduplicate_articles [llm_1] ++ [funding]
  ∧ deduplicate_articles [llm_1; llm_2] = [llm_1]
  ∧ deduplicate_articles [llm_1; funding] = [llm_1; funding].
Proof.
  split; [|split; [|split]].
  - apply (deduplicate_articles_threshold [llm_1] llm_2 llm_2).
    rewrite deduplicate_single. apply near_duplicate_single. by vm_compute.
  - apply (deduplicate_articles_threshold [llm_1] funding funding).
    rewrite deduplicate_single, near_duplicate_single. by vm_compute.
  - apply (deduplicate_articles_threshold [] llm_1 llm_2). by vm_compute.
  - apply (deduplicate_articles_threshold [] llm_1 funding). by vm_compute.
Defined.

(** The ratios behind the specification's example. *)
Example ratio_llm :
  Qred (ratio (title_key llm_2) (title_key llm_1)) = (23 # 26)%Q.
Proof. by vm_compute. Qed.

Example ratio_funding :
  Qred (ratio (title_key funding) (title_key llm_1)) = (2 # 17)%Q.
Proof. by vm_compute. Qed.

(** What [deduplicate_articles] returns is pairwise far, with keys in
    step. *)
Lemma deduplicate_articles_far (articles : list article) :
  pairwise_far (deduplicate_articles articles).
Proof.
  induction articles as [|a l IH] using rev_ind; [constructor|].
  rewrite deduplicate_articles_snoc.
  destruct (is_duplicate _ _) eqn:E; [done|].
  constructor; [done|].
  rewrite <- is_duplicate_spec. congruence.
Qed.

(** A pairwise-far list passes through unchanged. *)
Lemma deduplicate_articles_fixed (l : list article) :
  pairwise_far l → deduplicate_articles l = l.
Proof.
  induction 1 as [|l a Hl IH Ha]; [done|].
  rewrite deduplicate_articles_snoc, IH.
  destruct (is_duplicate _ _) eqn:E; [|done].
  exfalso. by apply Ha, is_duplicate_spec.
Qed.

(** C6: [deduplicate_articles] is idempotent. *)
Theorem deduplicate_articles_idempotent (articles : list article) :
  deduplicate_articles (deduplicate_articles articles)
  = deduplicate_articles articles.
Proof. apply deduplicate_articles_fixed, deduplicate_articles_far. Qed.

Lemma lower_nil (s : pystr) : lower s = [] ↔ s = [].
Proof. unfold lower. by destruct s. Qed.

Lemma ratio_empty : ratio [] [] = 1%Q.
Proof. by vm_compute. Qed.

Lemma pairwise_far_empty_titles (l : list article) :
  pairwise_far l → (length (filter (λ a, title a = []) l) ≤ 1)%nat.
Proof.
  induction 1 as [|l a Hl IH Ha]; [simpl; lia|].
  rewrite filter_app, length_app.
  destruct (decide (title a = [])) as [Et|Et].
  - assert (Hnone : filter (λ a, title a = []) l = []).
    { destruct (filter _ l) as [|u k] eqn:Ef; [done|]. exfalso.
      assert (Hu : u ∈ filter (λ a, title a = []) l) by (rewrite Ef; left).
      apply list_elem_of_filter in Hu as [Hu1 Hu2].
      apply Ha. exists u. split; [done|].
      unfold title_key. rewrite Et, Hu1. by vm_compute. }
    rewrite Hnone, filter_singleton_True; [simpl; lia | done..].
  - rewrite filter_singleton_False; [simpl; lia | done..].
Qed.

(** C10: at most one article with an empty title survives
    [deduplicate_articles]; two empty titles have ratio 1.0. *)
Theorem deduplicate_articles_empty_titles (articles : list article) :
  ratio [] [] = 1%Q
  ∧ (length (filter (λ a, title a = []) (deduplicate_articles articles)) ≤ 1)%nat.
Proof.
  split; [apply ratio_empty|].
  apply pairwise_far_empty_titles, deduplicate_articles_far.
Qed.

Example deduplicate_empty_titles :
  deduplicate_articles [article_titled ""; llm_1; article_titled ""]
  = [article_titled ""; llm_1].
Proof. by vm_compute. Qed.

(** ** Enricher: the summary fetched *)

Example paragraph_cut :
  extract_summary plain_text page_long_paragraph = repeat "a"%char 280 ++ ellipsis.
Proof. by vm_compute. Qed.

Example description_kept :
  extract_summary plain_text page_long_description = repeat "a"%char 304.
Proof. by vm_compute. Qed.

(** C2 (as stated): a paragraph of 290 characters is cut by the default
    budget of 280, not left whole by a budget of 300; a meta description
    of 304 characters is returned whole. *)
Lemma truncates_as_stated_fails :
  ¬ truncates_as_stated plain_text page_long_paragraph
  ∧ ¬ truncates_as_stated plain_text page_long_description.
Proof.
  split; intros H; destruct H as [H1 H2]; try reflexivity.
  - vm_compute in H1. discriminate H1.
  - vm_compute in H2. by apply H2.
Qed.

Section EnricherSummary.

Variable clean_html : pystr → pystr.
Variable requests_get : nat → pystr → option response.

Lemma first_long_paragraph_cases (ps : list pystr) :
  first_long_paragraph clean_html ps = [] ∨
  ∃ p, p ∈ ps ∧ 100 < len (clean_html p) ∧
       first_long_paragraph clean_html ps
       = truncate_summary (clean_html p) default_max_length.
Proof.
  induction ps as [|p ps IH]; simpl; [by left|].
  destruct (Z.ltb_spec 100 (len (clean_html p))).
  - right. exists p. split; [left | done].
  - destruct IH as [IH|(q & Hq & Hlen & E)]; [by left|].
    right. exists q. split; [by right | done].
Qed.

Lemma first_long_paragraph_len (ps : list pystr) :
  len (first_long_paragraph clean_html ps) ≤ default_max_length + len ellipsis.
Proof.
  destruct (first_long_paragraph_cases ps) as [->|(p & _ & _ & ->)].
  - by vm_compute.
  - by apply truncate_summary_len.
Qed.

Lemma fetch_one_success (i : nat) (a : article) :
  is_comment_page (link a) = false →
  fetch_article_summary clean_html requests_get i (link a) ≠ [] →
  fetch_one clean_html requests_get i a
  = set_summary (fetch_article_summary clean_html requests_get i (link a)) a.
Proof.
  intros Hc Hs. unfold fetch_one. unfold is_comment_page in Hc. rewrite Hc.
  by rewrite bool_decide_eq_false_2.
Qed.

Lemma fetch_one_failure (i : nat) (a : article) :
  fetch_article_summary clean_html requests_get i (link a) = [] →
  fetch_one clean_html requests_get i a = a.
Proof.
  intros Hs. unfold fetch_one. rewrite Hs.
  by destruct (_ || _).
Qed.

(** C2 (amended): a summary that enrichment resolves from the first
    paragraph longer than 100 characters among the first three, the
    page having no usable meta description or og:description, has been
    passed through the Truncator with its default budget of 280
    characters; it is written back to the record as it is, so it has
    length at most 280 plus the length of the ellipsis marker. *)
Theorem paragraph_summary_truncated (i : nat) (a : article) (resp : response) :
  requests_get i (link a) = Some resp →
  status_code resp = 200 →
  is_usable (meta_description resp) = false →
  is_usable (og_description resp) = false →
  is_comment_page (link a) = false →
  let s := fetch_article_summary clean_html requests_get i (link a) in
  let a' := fetch_one clean_html requests_get i a in
  (s = [] ∧ a' = a
   ∨ ∃ p, p ∈ take 3 (default [] (paragraphs resp))
          ∧ 100 < len (clean_html p)
          ∧ s = truncate_summary (clean_html p) default_max_length
          ∧ summary a' = s ∧ needs_summary a' = false)
  ∧ len s ≤ default_max_length + len ellipsis.
Proof.
  intros Hget Hst Hm Ho Hc s a'.
  assert (Es : s = first_long_paragraph clean_html
                     (take 3 (default [] (paragraphs resp)))).
  { unfold s, fetch_article_summary, extract_summary. rewrite Hget, Hst. simpl.
    destruct (meta_description resp) as [[|]|], (og_description resp) as [[|]|],
      (paragraphs resp); try done; by rewrite ?take_nil. }
  split; [|rewrite Es; apply first_long_paragraph_len].
  destruct (decide (s = [])) as [E|E].
  - left. split; [done|]. by apply fetch_one_failure.
  - right.
    destruct (first_long_paragraph_cases (take 3 (default [] (paragraphs resp))))
      as [E'|(p & Hp & Hlen & E')]; [congruence|].
    exists p. repeat split; try done; [congruence|..];
      unfold a'; rewrite fetch_one_success by done; done.
Qed.

End EnricherSummary.

Lemma paragraph_summary_truncated_witness :
  summary (fetch_one plain_text net_long_paragraph 0 long_read)
  = repeat "a"%char 280 ++ ellipsis
  ∧ len (fetch_article_summary plain_text net_long_paragraph 0 (link long_read))
    ≤ default_max_length + len ellipsis.
Proof.
  destruct (paragraph_summary_truncated plain_text net_long_paragraph 0%nat
              long_read page_long_paragraph)
    as [[[E _]|(p & _ & _ & _ & E & _)] Hlen]; try reflexivity.
  - vm_compute in E. discriminate E.
  - split; [|exact Hlen]. rewrite E. by vm_compute.
Defined.

(** ** Enricher: the batch *)

Section EnricherBatch.

Variable clean_html : pystr → pystr.
Variable requests_get : nat → pystr → option response.
Variable finished_in_time : nat → bool.

Lemma run_tasks_length (tasks : list (nat * article)) (store : list article) :
  length (run_tasks clean_html requests_get tasks store) = length store.
Proof.
  unfold run_tasks.
  revert store. induction tasks as [|t tasks IH]; intros store; [done|].
  simpl. by rewrite IH, length_insert.
Qed.

(** A position no task owns is left as it was. *)
Lemma run_tasks_other (tasks : list (nat * article)) (store : list article) (j : nat) :
  j ∉ tasks.*1 → run_tasks clean_html requests_get tasks store !! j = store !! j.
Proof.
  unfold run_tasks.
  revert store. induction tasks as [|t tasks IH]; intros store Hj; [done|].
  rewrite fmap_cons, not_elem_of_cons in Hj. destruct Hj as [Hne Hj].
  simpl. rewrite IH by done.
  by apply list_lookup_insert_ne.
Qed.

Abbreviation fetch_article_summary :=
  (fetch_article_summary clean_html requests_get).
Abbreviation fetch_one := (fetch_one clean_html requests_get).
Abbreviation run_tasks := (run_tasks clean_html requests_get).
Abbreviation enrich_summaries :=
  (enrich_summaries clean_html requests_get finished_in_time).

(** The position of a task holds what [fetch_one] made of its article. *)
Lemma run_tasks_own (tasks : list (nat * article)) (store : list article)
    (j : nat) (b : article) :
  NoDup tasks.*1 → (j, b) ∈ tasks → (j < length store)%nat →
  run_tasks tasks store !! j = Some (fetch_one j b).
Proof.
  revert store. induction tasks as [|t tasks IH]; intros store Hnd Hin Hlt.
  - by apply not_elem_of_nil in Hin.
  - rewrite fmap_cons, NoDup_cons in Hnd. destruct Hnd as [Hfresh Hnd].
    apply elem_of_cons in Hin as [<-|Hin].
    + change (run_tasks ((j, b) :: tasks) store)
        with (run_tasks tasks (<[j:=fetch_one j b]> store)).
      rewrite run_tasks_other by done.
      by apply list_lookup_insert_eq.
    + change (run_tasks (t :: tasks) store)
        with (run_tasks tasks (<[t.1:=fetch_one t.1 t.2]> store)).
      apply IH; [done..|]. by rewrite length_insert.
Qed.

Lemma needing_elem (articles : list article) (j : nat) (b : article) :
  (j, b) ∈ needing articles ↔ articles !! j = Some b ∧ wants_summary b = true.
Proof.
  unfold needing. rewrite list_elem_of_filter, elem_of_lookup_imap. simpl.
  split.
  - intros [Hw (i & y & [= -> ->] & Hl)]. done.
  - intros [Hl Hw]. split; [done|]. by exists j, b.
Qed.

Lemma needing_NoDup (articles : list article) (n : nat) :
  NoDup (take n (needing articles)).*1.
Proof.
  apply (sublist_NoDup _ (imap (λ i a, (i, a)) articles).*1).
  - rewrite fmap_imap.
    rewrite (imap_ext _ (λ i _, i)) by done.
    rewrite (imap_seq_0 articles (λ i, i)), list_fmap_id. apply NoDup_seq.
  - apply fmap_sublist. etrans; [apply sublist_take|]. apply sublist_filter.
Qed.

Lemma tasks_elem (articles : list article) (n : nat) (j : nat) (b : article) :
  (j, b) ∈ take n (needing articles) →
  articles !! j = Some b ∧ wants_summary b = true.
Proof.
  intros H. apply needing_elem. eapply elem_of_sublist; [done|apply sublist_take].
Qed.

(** The articles as the call leaves them, on every path. *)
Lemma enrich_summaries_store (articles : list article) :
  (enrich_summaries articles).1 = run_tasks (take 20 (needing articles)) articles.
Proof.
  unfold enrich_summaries. case_bool_decide as E.
  - by rewrite E.
  - by destruct (forallb _ _).
Qed.

(** How the call ends. *)
Lemma enrich_summaries_outcome (articles : list article) :
  (enrich_summaries articles).2 =
    if forallb (λ ia, finished_in_time ia.1) (take 20 (needing articles))
    then Returned else Raised TimeoutError.
Proof.
  unfold enrich_summaries. case_bool_decide as E.
  - by rewrite E.
  - by destruct (forallb _ _).
Qed.

(** A submitted task unfinished at the deadline ends the call with
    [TimeoutError]. *)
Lemma enrich_summaries_deadline (articles : list article) (j : nat) (b : article) :
  (j, b) ∈ take 20 (needing articles) →
  finished_in_time j = false →
  (enrich_summaries articles).2 = Raised TimeoutError.
Proof.
  intros Hin Hj. rewrite enrich_summaries_outcome.
  destruct (forallb _ _) eqn:E; [|done].
  rewrite forallb_forall in E.
  apply list_elem_of_In, E in Hin. simpl in Hin. congruence.
Qed.

(** The ways a fetch fails, each ending in the empty string. *)
Lemma fetch_article_summary_failure (i : nat) (url : pystr) :
  requests_get i url = None
  ∨ (∃ resp, requests_get i url = Some resp ∧ status_code resp ≠ 200) →
  fetch_article_summary i url = [].
Proof.
  intros [E|(resp & E & Hst)].
  - change (match requests_get i url with
            | Some resp => extract_summary clean_html resp
            | None => []
            end = []).
    by rewrite E.
  - change (match requests_get i url with
            | Some resp => extract_summary clean_html resp
            | None => []
            end = []).
    rewrite E. unfold extract_summary.
    by destruct (Z.eqb_spec (status_code resp) 200).
Qed.

(** C8: an article whose fetch fails (the request raises, or the status
    is not 200) or yields the empty string for want of a usable field
    is, after [enrich_summaries], the article it was before, [summary]
    and [needs_summary] included; and every other submitted article whose
    fetch yields a summary is enriched: its [summary] is the fetched
    text, its [needs_summary] is [False], and its other keys are as
    before. *)
Theorem enrich_summaries_failure_local (articles : list article)
    (i : nat) (a : article) :
  articles !! i = Some a →
  requests_get i (link a) = None
  ∨ (∃ resp, requests_get i (link a) = Some resp ∧ status_code resp ≠ 200)
  ∨ fetch_article_summary i (link a) = [] →
  (enrich_summaries articles).1 !! i = Some a
  ∧ ∀ j b, (j, b) ∈ take 20 (needing articles) →
           is_comment_page (link b) = false →
           fetch_article_summary j (link b) ≠ [] →
           ∃ b', (enrich_summaries articles).1 !! j = Some b'
                 ∧ summary b' = fetch_article_summary j (link b)
                 ∧ needs_summary b' = false
                 ∧ title b' = title b ∧ link b' = link b
                 ∧ source b' = source b ∧ category b' = category b
                 ∧ published b' = published b
                 ∧ engagement b' = engagement b ∧ score b' = score b.
Proof.
  intros Hi Hfail.
  assert (Hempty : fetch_article_summary i (link a) = []).
  { destruct Hfail as [H|[H|H]]; [| |done];
      apply fetch_article_summary_failure; auto. }
  clear Hfail. rewrite enrich_summaries_store.
  pose proof (needing_NoDup articles 20) as Hnd.
  split.
  - destruct (decide (i ∈ (take 20 (needing articles)).*1)) as [Hin|Hout].
    + apply list_elem_of_fmap in Hin as ([i' b] & -> & Hin).
      pose proof (tasks_elem _ _ _ _ Hin) as [Hb _]. simpl in *.
      assert (b = a) as -> by congruence.
      rewrite (run_tasks_own _ _ i' a); [|done..|by eapply lookup_lt_Some].
      by rewrite (fetch_one_failure clean_html requests_get).
    + by rewrite run_tasks_other.
  - intros j b Hin Hc Hs.
    pose proof (tasks_elem _ _ _ _ Hin) as [Hb _].
    exists (fetch_one j b). split.
    + by rewrite (run_tasks_own _ _ j b); [|done..|by eapply lookup_lt_Some].
    + by rewrite (fetch_one_success clean_html requests_get).
Qed.

End EnricherBatch.

Lemma enrich_summaries_failure_local_witness :
  (enrich_summaries plain_text net_first_fails all_in_time
     [article_down; article_up]).1 !! 0%nat = Some article_down
  ∧ ∃ b', (enrich_summaries plain_text net_first_fails all_in_time
             [article_down; article_up]).1 !! 1%nat = Some b'
          ∧ summary b' = lit "What the article is about."
          ∧ summary b' ≠ summary article_up
          ∧ needs_summary b' = false
          ∧ needs_summary article_up = true.
Proof.
  destruct (enrich_summaries_failure_local plain_text net_first_fails all_in_time
              [article_down; article_up] 0%nat article_down)
    as [H0 H1]; [reflexivity | left; reflexivity |].
  split; [exact H0|].
  destruct (H1 1%nat article_up) as (b' & Hb & Hs & Hn & _);
    [|reflexivity|by vm_compute|].
  - replace (take 20 (needing [article_down; article_up]))
      with [(0%nat, article_down); (1%nat, article_up)] by (by vm_compute).
    right. left.
  - exists b'. split; [exact Hb|]. rewrite Hs. split; [reflexivity|].
    split; [by vm_compute|]. split; [exact Hn|reflexivity].
Defined.

(** C1 (code evaluated at the failing input): one article whose fetch
    is still running when the 30-second deadline passes.  The call does
    not return: it ends with [TimeoutError]; and the article has been
    rewritten by the task all the same. *)
Theorem enrich_summaries_raises_at_deadline :
  enrich_summaries plain_text net_described none_in_time [long_read]
  = ([set_summary (lit "What the article is about.") long_read],
     Raised TimeoutError).
Proof. by vm_compute. Qed.

Example enrich_summaries_returns_in_time :
  enrich_summaries plain_text net_described all_in_time [long_read]
  = ([set_summary (lit "What the article is about.") long_read], Returned).
Proof. by vm_compute. Qed.

Example enrich_summaries_skips_comment_pages :
  let hn := {| title := lit "Ask HN"; link := lit "https://news.ycombinator.com/item?id=1";
               summary := []; source := lit "Hacker News";
               category := CATEGORY_COMMUNITY; published := 0; engagement := 60;
               needs_summary := true; score := None |} in
  enrich_summaries plain_text net_described all_in_time [hn] = ([hn], Returned).
Proof. by vm_compute. Qed.

(** ** Ranker/Grouper *)

(** [by_category] maps each category that occurs to its bucket. *)
Lemma by_category_lookup (articles : list article) (c : pystr) :
  by_category articles !! c =
    if decide (bucket c articles = []) then None else Some (bucket c articles).
Proof.
  unfold by_category, bucket.
  induction articles as [|a l IH] using rev_ind; [apply lookup_empty|].
  rewrite foldl_snoc, filter_app. set (d := foldl _ ∅ l) in *.
  destruct (decide (category a = c)) as [<-|Hne].
  - rewrite (filter_singleton_True _ a []) by done.
    rewrite (decide_False (P := _ ++ [a] = [])) by (by destruct (filter _ l)).
    rewrite lookup_alter_eq. case_bool_decide as Hd.
    + destruct Hd as [l0 Hl0]. rewrite Hl0 in IH |- *.
      destruct (decide _); simplify_eq. done.
    + rewrite lookup_insert_eq. simpl.
      apply eq_None_not_Some in Hd. rewrite Hd in IH.
      destruct (decide (filter _ l = [])) as [->|]; done.
  - rewrite (filter_singleton_False _ a []), app_nil_r by done.
    rewrite lookup_alter_ne by done.
    case_bool_decide; [done|]. by rewrite lookup_insert_ne.
Qed.

(** The sections written: for each category of [category_order] with a
    non-empty bucket, the first five of the bucket. *)
Lemma format_html_email_sections (articles : list article) :
  format_html_email articles =
    omap (λ c, if decide (bucket c articles = []) then None
               else Some (c, take max_per_category (bucket c articles)))
         category_order.
Proof.
  unfold format_html_email. apply list_omap_ext, Forall2_same_length_lookup.
  split; [done|]. intros i c c' Hc Hc'. simplify_eq.
  rewrite by_category_lookup. by destruct (decide _).
Qed.

Global Instance score_ge_trans : Transitive score_ge.
Proof.
  intros a b c. unfold score_ge.
  destruct (score a), (score b), (score c); try done. lia.
Qed.

Lemma StronglySorted_sublist {A} (R : relation A) (l k : list A) :
  k `sublist_of` l → StronglySorted R l → StronglySorted R k.
Proof.
  induction 1 as [|x k l Hkl IH|x k l Hkl IH]; intros Hs; [done|..].
  - apply StronglySorted_inv in Hs as [Hs Hx].
    constructor; [by apply IH|].
    apply Forall_forall. intros y Hy.
    rewrite Forall_forall in Hx. apply Hx. by eapply elem_of_sublist.
  - apply StronglySorted_inv in Hs as [Hs _]. by apply IH.
Qed.

Lemma bucket_sorted (c : pystr) (articles : list article) :
  by_descending_score articles → StronglySorted score_ge (bucket c articles).
Proof.
  intros Hs. apply (StronglySorted_sublist _ articles).
  - apply sublist_filter.
  - apply Sorted_StronglySorted; [apply _ | exact Hs].
Qed.

(** C9: on a list sorted by descending score, the sections written are,
    for the categories New Technology, Research, Industry & Macro and
    Community Highlights in that order, leaving out those with no
    article, the first five articles of the category in their input
    order; these are in descending score order and no article of the
    category left out scores higher than one kept. *)
Theorem grouping_cap (articles : list article) :
  by_descending_score articles →
  format_html_email articles =
    omap (λ c, if decide (bucket c articles = []) then None
               else Some (c, take 5 (bucket c articles)))
         [CATEGORY_NEW_TECH; CATEGORY_RESEARCH; CATEGORY_INDUSTRY;
          CATEGORY_COMMUNITY]
  ∧ ∀ c kept, (c, kept) ∈ format_html_email articles →
      kept = take 5 (bucket c articles)
      ∧ bucket c articles `sublist_of` articles
      ∧ kept ≠ [] ∧ (length kept ≤ 5)%nat
      ∧ Sorted score_ge kept
      ∧ ∀ a b, a ∈ kept → b ∈ drop 5 (bucket c articles) → score_ge a b.
Proof.
  intros Hs. split; [apply format_html_email_sections|].
  intros c kept Hin. rewrite format_html_email_sections in Hin.
  apply list_elem_of_omap in Hin as (c' & _ & Hc').
  destruct (decide (bucket c' articles = [])) as [|Hne]; [done|].
  injection Hc' as -> <-. unfold max_per_category.
  pose proof (bucket_sorted c articles Hs) as Hb.
  split; [done|]. split; [apply sublist_filter|].
  split; [by destruct (bucket c articles)|].
  split; [rewrite length_take; lia|].
  split.
  - apply StronglySorted_Sorted.
    eapply StronglySorted_sublist; [apply sublist_take | done].
  - intros a b Ha Hb'. rewrite <- (take_drop 5 (bucket c articles)) in Hb.
    by eapply StronglySorted_app_1_elem_of.
Qed.

Lemma ranked_articles_sorted : by_descending_score ranked_articles.
Proof. repeat (constructor; try (by vm_compute)). Qed.

Lemma grouping_cap_witness :
  format_html_email ranked_articles =
    [ (CATEGORY_NEW_TECH, [scored "n1" CATEGORY_NEW_TECH 80]);
      (CATEGORY_RESEARCH,
       [scored "r1" CATEGORY_RESEARCH 110; scored "r2" CATEGORY_RESEARCH 90;
        scored "r3" CATEGORY_RESEARCH 80; scored "r4" CATEGORY_RESEARCH 70;
        scored "r5" CATEGORY_RESEARCH 60]);
      (CATEGORY_COMMUNITY, [scored "c1" CATEGORY_COMMUNITY 100]) ].
Proof.
  destruct (grouping_cap ranked_articles ranked_articles_sorted) as [E _].
  rewrite E. by vm_compute.
Defined.

(** * Further properties *)

(** ** Truncator: what the result is made of *)

Lemma slice_to_prefix (k : Z) (s : pystr) : slice_to k s `prefix_of` s.
Proof. unfold slice_to. destruct (k <? 0); apply prefix_take. Qed.

(** The position [rfind] returns is the last one: no [c] lies beyond it. *)
Lemma rfind_last (c : ascii) (s : pystr) (j : nat) :
  rfind c s < Z.of_nat j → s !! j ≠ Some c.
Proof. intros Hj Hc. apply rfind_ge in Hc. lia. Qed.

(** X1: for a [max_length] that every float holds exactly (between
    -2^53 and 2^53, negative values included), [truncate_summary] never
    rewrites the text: its result is a prefix of [text], alone or
    followed by ["..."]; on a text longer than a non-negative
    [max_length] that prefix has at most [max_length] characters. *)
Theorem truncate_summary_shape (s : pystr) (n : Z) :
  exact_half n →
  ∃ p, p `prefix_of` s
       ∧ (0 ≤ n → n < len s → len p ≤ n)
       ∧ (truncate_summary s n = p ∨ truncate_summary s n = p ++ ellipsis).
Proof.
  intros _. unfold truncate_summary.
  destruct (bool_decide (s = []) || (len s <=? n)) eqn:E.
  - exists s. split; [done|]. split; [|by left].
    intros Hn Hlen. apply orb_prop in E as [E|E].
    + apply bool_decide_eq_true in E. subst s. unfold len in Hlen. simpl in Hlen. lia.
    + apply Z.leb_le in E. lia.
  - set (truncated := slice_to n s).
    set (cut_point := Z.max _ _).
    destruct (gt_half cut_point n) eqn:Hg; [|destruct (Z.ltb_spec 0 (rfind " " truncated))].
    + exists (slice_to (cut_point + 1) s). split; [apply slice_to_prefix|].
      split; [|by left]. intros Hn Hlen.
      destruct (cut_point_range truncated) as [Hcut _]. fold cut_point in Hcut.
      pose proof (rfind_range "." truncated). pose proof (rfind_range "?" truncated).
      pose proof (rfind_range "!" truncated).
      assert (len truncated = n) by (unfold truncated; rewrite slice_to_len; lia).
      rewrite slice_to_len; lia.
    + exists (slice_to (rfind " " truncated) s). split; [apply slice_to_prefix|].
      split; [|by right]. intros Hn Hlen.
      assert (len truncated = n) by (unfold truncated; rewrite slice_to_len; lia).
      destruct (rfind_range " " truncated); rewrite slice_to_len; lia.
    + exists truncated. split; [apply slice_to_prefix|].
      split; [|by right]. intros Hn Hlen.
      unfold truncated; rewrite slice_to_len; lia.
Qed.

Lemma truncate_summary_shape_witness :
  ∃ p, p `prefix_of` lit "One two. Three four five six"
       ∧ (0 ≤ 12 → 12 < len (lit "One two. Three four five six") → len p ≤ 12)
       ∧ (truncate_summary (lit "One two. Three four five six") 12 = p
          ∨ truncate_summary (lit "One two. Three four five six") 12
            = p ++ ellipsis).
Proof.
  apply (truncate_summary_shape (lit "One two. Three four five six") 12).
  unfold exact_half. lia.
Defined.

(** X2: on a text longer than a positive [max_length] whose prefix holds
    a sentence terminator past its midpoint, the result is the text up to
    and including the last terminator of the prefix: it ends at a
    sentence end and carries no ellipsis. *)
Theorem truncate_summary_sentence (s : pystr) (n : Z) :
  0 < n → n < len s → sentence_boundary s n →
  ∃ (p : nat) (c : ascii),
    n < 2 * Z.of_nat p ∧ Z.of_nat p < n
    ∧ s !! p = Some c ∧ is_terminal c = true
    ∧ (∀ (q : nat) c', (p < q)%nat → Z.of_nat q < n → s !! q = Some c' →
                       is_terminal c' = false)
    ∧ truncate_summary s n = take (S p) s
    ∧ last (truncate_summary s n) = Some c.
Proof.
  intros Hn Hlen Hsb.
  pose proof (truncate_summary_long s n ltac:(lia) Hlen) as E. cbv zeta in E.
  pose proof (sentence_boundary_cut s n Hn Hlen) as Hcut. cbv zeta in Hcut.
  set (truncated := slice_to n s) in *.
  set (cut_point := Z.max _ _) in *.
  apply Hcut in Hsb.
  assert (Hl : len truncated = n).
  { unfold truncated. rewrite slice_to_len; lia. }
  destruct (cut_point_range truncated) as [Hr Hc]. fold cut_point in Hr, Hc.
  destruct Hc as (c & Hc & Ht); [lia|].
  assert (Hsc : s !! Z.to_nat cut_point = Some c).
  { rewrite <- Hc. unfold truncated. symmetry. apply slice_to_lookup; lia. }
  exists (Z.to_nat cut_point), c.
  split; [lia|]. split; [lia|]. split; [done|]. split; [done|].
  assert (Eres : truncate_summary s n = take (S (Z.to_nat cut_point)) s).
  { rewrite E, (proj2 (gt_half_spec cut_point n) Hsb). unfold slice_to.
    destruct (Z.ltb_spec (cut_point + 1) 0); [lia|]. f_equal. lia. }
  split; [|split; [done|]].
  - intros q c' Hq Hqn Hq'.
    destruct (is_terminal c') eqn:Ht'; [exfalso|done].
    assert (Hq'' : truncated !! q = Some c').
    { unfold truncated. rewrite slice_to_lookup; [done|lia..]. }
    assert (Z.of_nat q ≤ cut_point); [|lia].
    unfold is_terminal in Ht'. apply orb_prop in Ht' as [Ht'|Ht'];
      [apply orb_prop in Ht' as [Ht'|Ht']|];
      apply Ascii.eqb_eq in Ht'; subst c';
      apply rfind_ge in Hq''; lia.
  - rewrite Eres. erewrite take_S_r by done. apply last_snoc.
Qed.

Lemma truncate_summary_sentence_witness :
  truncate_summary (lit "One two. Three four five six") 12
  = take 8 (lit "One two. Three four five six").
Proof.
  destruct (truncate_summary_sentence (lit "One two. Three four five six") 12)
    as (p & c & Hp1 & Hp2 & _ & _ & _ & E & _); [lia | reflexivity | |].
  - exists 7%nat, "."%char. repeat split; lia.
  - rewrite E. by vm_compute.
Defined.

(** X3: on a text longer than a positive [max_length] with no sentence
    terminator past the midpoint of the prefix, the result is the text up
    to (not including) the last space of the prefix, followed by
    ["..."], when the prefix holds a space past its first character;
    otherwise it is the whole prefix followed by ["..."], which has
    [max_length + 3] characters and is longer than the text itself when
    the text exceeds [max_length] by one or two characters. *)
Theorem truncate_summary_fallback (s : pystr) (n : Z) :
  0 < n → n < len s → ¬ sentence_boundary s n →
  (inner_word_boundary s n →
     ∃ q : nat,
       (0 < q)%nat ∧ Z.of_nat q < n ∧ s !! q = Some " "%char
       ∧ (∀ r : nat, (q < r)%nat → Z.of_nat r < n → s !! r ≠ Some " "%char)
       ∧ truncate_summary s n = take q s ++ ellipsis)
  ∧ (¬ inner_word_boundary s n →
     truncate_summary s n = take (Z.to_nat n) s ++ ellipsis
     ∧ len (truncate_summary s n) = n + 3
     ∧ (len s < n + 3 → len s < len (truncate_summary s n))).
Proof.
  intros Hn Hlen Hns.
  pose proof (truncate_summary_long s n ltac:(lia) Hlen) as E. cbv zeta in E.
  pose proof (sentence_boundary_cut s n Hn Hlen) as Hcut. cbv zeta in Hcut.
  set (truncated := slice_to n s) in *.
  set (cut_point := Z.max _ _) in *.
  set (last_space := rfind " " truncated) in *.
  assert (Hl : len truncated = n).
  { unfold truncated. rewrite slice_to_len; lia. }
  assert (Hg : gt_half cut_point n = false).
  { apply not_true_is_false. rewrite gt_half_spec. tauto. }
  rewrite Hg in E.
  assert (Hsp : last_space = -1 ∨ 0 ≤ last_space < n).
  { rewrite <- Hl. apply rfind_range. }
  assert (Hinner : inner_word_boundary s n ↔ 0 < last_space).
  { split.
    - intros (i & Hi0 & Hi & Hc).
      assert (Z.of_nat i ≤ last_space); [|lia].
      apply rfind_ge. unfold truncated. rewrite slice_to_lookup; [done|lia..].
    - intros Hpos. exists (Z.to_nat last_space).
      split; [lia|]. split; [lia|].
      rewrite <- (slice_to_lookup n) by lia. apply rfind_hit.
      fold truncated last_space. lia. }
  split.
  - intros Hi. apply Hinner in Hi. exists (Z.to_nat last_space).
    split; [lia|]. split; [lia|]. split; [|split].
    + rewrite <- (slice_to_lookup n) by lia. apply rfind_hit.
      fold truncated last_space. lia.
    + intros r Hr Hrn Hc. apply (rfind_last " " truncated r).
      * fold last_space. lia.
      * unfold truncated. rewrite slice_to_lookup; [done|lia..].
    + rewrite E. destruct (Z.ltb_spec 0 last_space); [|lia].
      unfold slice_to. destruct (Z.ltb_spec last_space 0); [lia|done].
  - intros Hi. rewrite Hinner in Hi.
    assert (Eres : truncate_summary s n = take (Z.to_nat n) s ++ ellipsis).
    { rewrite E. destruct (Z.ltb_spec 0 last_space); [lia|].
      unfold truncated, slice_to. destruct (Z.ltb_spec n 0); [lia|done]. }
    assert (Elen : len (truncate_summary s n) = n + 3).
    { rewrite E. destruct (Z.ltb_spec 0 last_space); [lia|].
      rewrite len_app, len_ellipsis. lia. }
    split; [done|]. split; [done|]. lia.
Qed.

Lemma truncate_summary_fallback_witness :
  (∃ q : nat, truncate_summary (lit "abcdefghi jklmnop") 10
              = take q (lit "abcdefghi jklmnop") ++ ellipsis)
  ∧ truncate_summary (lit "abcdefghijk") 10 = lit "abcdefghij..."
  ∧ len (lit "abcdefghijk") < len (truncate_summary (lit "abcdefghijk") 10).
Proof.
  assert (Hns : ∀ s, rfind "." (slice_to 10 s) = -1 → rfind "?" (slice_to 10 s) = -1 →
                     rfind "!" (slice_to 10 s) = -1 → 10 < len s →
                     ¬ sentence_boundary s 10).
  { intros s H1 H2 H3 Hlen Hs. apply sentence_boundary_cut in Hs; [|lia|done].
    rewrite H1, H2, H3 in Hs. simpl in Hs. lia. }
  assert (Hni : ¬ inner_word_boundary (lit "abcdefghijk") 10).
  { intros (i & _ & _ & Hc). apply rfind_ge in Hc.
    assert (Hr : rfind " " (lit "abcdefghijk") = -1) by reflexivity. lia. }
  split; [|split].
  - destruct (truncate_summary_fallback (lit "abcdefghi jklmnop") 10)
      as [H _]; [lia | reflexivity | by apply Hns |].
    destruct H as (q & _ & _ & _ & _ & E); [|by exists q].
    exists 9%nat. repeat split; lia.
  - destruct (truncate_summary_fallback (lit "abcdefghijk") 10)
      as [_ H]; [lia | reflexivity | by apply Hns |].
    destruct (H Hni) as (E & _ & _). rewrite E. reflexivity.
  - destruct (truncate_summary_fallback (lit "abcdefghijk") 10)
      as [_ H]; [lia | reflexivity | by apply Hns |].
    destruct (H Hni) as (_ & _ & Hlonger). apply Hlonger. reflexivity.
Defined.

(** ** Enricher: what a batch may change *)

Section EnricherFrame.

Variable clean_html : pystr → pystr.
Variable requests_get : nat → pystr → option response.
Variable finished_in_time : nat → bool.

Abbreviation fetched i a := (fetch_article_summary clean_html requests_get i (link a)).
Abbreviation enriched articles :=
  (enrich_summaries clean_html requests_get finished_in_time articles).1.

(** [fetch_one] returns its article, or the article with the fetched,
    non-empty summary. *)
Lemma fetch_one_cases (i : nat) (a : article) :
  fetch_one clean_html requests_get i a = a
  ∨ (is_comment_page (link a) = false ∧ fetched i a ≠ []
     ∧ fetch_one clean_html requests_get i a = set_summary (fetched i a) a).
Proof.
  destruct (is_comment_page (link a)) eqn:Hc.
  - left. unfold fetch_one. unfold is_comment_page in Hc. by rewrite Hc.
  - destruct (decide (fetched i a = [])) as [E|E].
    + left. by apply fetch_one_failure.
    + right. split; [done|]. split; [done|]. by apply fetch_one_success.
Qed.

(** Each position holds its article, or what [fetch_one] made of it. *)
Lemma enriched_lookup (articles : list article) (i : nat) (a : article) :
  articles !! i = Some a →
  enriched articles !! i = Some a
  ∨ ((i, a) ∈ take 20 (needing articles)
     ∧ enriched articles !! i = Some (fetch_one clean_html requests_get i a)).
Proof.
  intros Hi. rewrite enrich_summaries_store.
  destruct (decide (i ∈ (take 20 (needing articles)).*1)) as [Hin|Hout].
  - right. apply list_elem_of_fmap in Hin as ([i' b] & -> & Hin).
    pose proof (tasks_elem _ _ _ _ Hin) as [Hb _]. simpl in *.
    assert (b = a) as -> by congruence. split; [done|].
    apply run_tasks_own; [apply needing_NoDup | done | by eapply lookup_lt_Some].
  - left. by rewrite run_tasks_other.
Qed.

(** X4: [enrich_summaries] keeps the length of the list and, at every
    position, the title, link, source, category, publication instant,
    engagement and score of the article; an article it changes ends with
    the non-empty summary fetched for it and [needs_summary] cleared. *)
Theorem enrich_summaries_frame (articles : list article) :
  length (enriched articles) = length articles
  ∧ ∀ i a, articles !! i = Some a →
      ∃ a', enriched articles !! i = Some a'
        ∧ title a' = title a ∧ link a' = link a ∧ source a' = source a
        ∧ category a' = category a ∧ published a' = published a
        ∧ engagement a' = engagement a ∧ score a' = score a
        ∧ (a' = a
           ∨ (summary a' = fetched i a ∧ summary a' ≠ []
              ∧ needs_summary a' = false)).
Proof.
  split.
  - rewrite enrich_summaries_store. apply run_tasks_length.
  - intros i a Hi.
    destruct (enriched_lookup articles i a Hi) as [E|[_ E]].
    + exists a. repeat split; auto.
    + destruct (fetch_one_cases i a) as [F|(_ & Hs & F)]; rewrite F in E.
      * exists a. repeat split; auto.
      * exists (set_summary (fetched i a) a). repeat split; auto.
Qed.

(** The candidates found in a list, counted. *)
Lemma filter_imap_length {A} (P : A → Prop) `{∀ x, Decision (P x)}
    (f : nat → nat) (l : list A) :
  length (filter (λ ia, P ia.2) (imap (λ i a, (f i, a)) l)) = length (filter P l).
Proof.
  revert f. induction l as [|x l IH]; intros f; [done|].
  rewrite imap_cons, !filter_cons. simpl.
  specialize (IH (f ∘ S)).
  destruct (decide (P x)); simpl; by rewrite <- IH.
Qed.

Lemma needing_length (articles : list article) :
  length (needing articles)
  = length (filter (λ a, wants_summary a = true) articles).
Proof.
  unfold needing.
  exact (filter_imap_length (λ a, wants_summary a = true) (λ i, i) articles).
Qed.

(** A submitted article has fewer than 20 candidates before it. *)
Lemma tasks_position (articles : list article) (i : nat) (a : article) :
  (i, a) ∈ take 20 (needing articles) → (candidates_before i articles < 20)%nat.
Proof.
  intros Hin. unfold candidates_before. rewrite <- needing_length.
  destruct (tasks_elem _ _ _ _ Hin) as [Hi _].
  destruct (decide (length (needing (take i articles)) < 20)%nat) as [|Hge]; [done|].
  exfalso.
  rewrite <- (take_drop i articles) in Hin at 1.
  unfold needing in Hin at 1. rewrite imap_app, filter_app in Hin.
  fold (needing (take i articles)) in Hin.
  rewrite take_app_le in Hin by lia.
  assert (Hin' : (i, a) ∈ needing (take i articles)).
  { eapply elem_of_sublist; [done|apply sublist_take]. }
  apply needing_elem in Hin' as [Hl _].
  apply lookup_lt_Some in Hl. rewrite length_take in Hl. lia.
Qed.

(** X5: whatever the network answers, [enrich_summaries] leaves an
    article as it is when [needs_summary] is off, when its link is
    empty, when the link is a Reddit or Hacker News page, or when 20
    candidates precede it; and there are at most 20 positions outside of
    which the list is unchanged. *)
Theorem enrich_summaries_untouched (articles : list article) :
  (∀ i a, articles !! i = Some a →
     needs_summary a = false ∨ link a = []
     ∨ is_comment_page (link a) = true
     ∨ (20 ≤ candidates_before i articles)%nat →
     enriched articles !! i = Some a)
  ∧ ∃ touched : list nat,
      (length touched ≤ 20)%nat
      ∧ ∀ i, i ∉ touched → enriched articles !! i = articles !! i.
Proof.
  split.
  - intros i a Hi Hwhy.
    destruct (enriched_lookup articles i a Hi) as [E|[Hin E]]; [done|].
    rewrite E. f_equal.
    destruct (tasks_elem _ _ _ _ Hin) as [_ Hw].
    apply tasks_position in Hin.
    unfold wants_summary in Hw. apply andb_prop in Hw as [Hn Hl].
    destruct Hwhy as [H|[H|[H|H]]]; [congruence| | |lia].
    + rewrite H in Hl. done.
    + unfold fetch_one. unfold is_comment_page in H. by rewrite H.
  - exists (take 20 (needing articles)).*1. split.
    + rewrite length_fmap, length_take. lia.
    + intros i Hi. rewrite enrich_summaries_store. by apply run_tasks_other.
Qed.

(** X6: enrichment never lowers the score of an article whose summary
    had at most 100 characters, which is the case of every article that
    asks for one when [needs_summary] stands for a summary shorter than
    100 characters; the score rises, by 10, exactly when the summary
    fetched has more than 100 characters. *)
Theorem enrichment_score (now : Z) (articles : list article) (i : nat) (a a' : article) :
  articles !! i = Some a →
  enriched articles !! i = Some a' →
  (needs_summary a = true → len (summary a) ≤ 100) →
  calculate_score now a ≤ calculate_score now a'
  ∧ (calculate_score now a' = calculate_score now a + 10
     ∨ calculate_score now a' = calculate_score now a)
  ∧ (calculate_score now a' = calculate_score now a + 10
     ↔ a' ≠ a ∧ 100 < len (fetched i a)).
Proof.
  intros Hi Hi' Hshort.
  destruct (enriched_lookup articles i a Hi) as [E|[Hin E]].
  - assert (a' = a) as -> by congruence.
    split; [lia|]. split; [by right|]. split; [lia|]. intros [? _]. done.
  - assert (a' = fetch_one clean_html requests_get i a) as -> by congruence.
    destruct (tasks_elem _ _ _ _ Hin) as [_ Hw].
    unfold wants_summary in Hw. apply andb_prop in Hw as [Hn _].
    specialize (Hshort Hn).
    destruct (fetch_one_cases i a) as [F|(_ & Hs & F)]; rewrite F.
    + split; [lia|]. split; [by right|]. split; [lia|]. intros [? _]. done.
    + rewrite !calculate_score_sum. simpl.
      assert (H0 : summary_points (summary a) = 0).
      { unfold summary_points. destruct (Z.ltb_spec 100 (len (summary a))); lia. }
      rewrite H0. unfold summary_points.
      destruct (Z.ltb_spec 100 (len (fetched i a))) as [Hlong|Hlong].
      * split; [lia|]. split; [left; lia|]. split; [|lia]. intros _. split; [|done].
        intros Heq. apply (f_equal summary) in Heq. simpl in Heq.
        rewrite Heq in Hlong. lia.
      * split; [lia|]. split; [right; lia|]. split; [lia|]. intros [_ ?]. lia.
Qed.

End EnricherFrame.

Lemma enrich_summaries_frame_witness :
  ∃ a', (enrich_summaries plain_text net_first_fails all_in_time
           [article_down; article_up]).1 !! 1%nat = Some a'
        ∧ title a' = title article_up ∧ link a' = link article_up
        ∧ source a' = source article_up ∧ category a' = category article_up
        ∧ published a' = published article_up
        ∧ engagement a' = engagement article_up ∧ score a' = score article_up
        ∧ (a' = article_up
           ∨ (summary a'
              = fetch_article_summary plain_text net_first_fails 1 (link article_up)
              ∧ summary a' ≠ [] ∧ needs_summary a' = false)).
Proof.
  destruct (enrich_summaries_frame plain_text net_first_fails all_in_time
              [article_down; article_up]) as [_ H].
  apply (H 1%nat article_up). reflexivity.
Defined.

Lemma enrich_summaries_untouched_witness :
  (enrich_summaries plain_text net_described all_in_time
     [article_titled ""; llm_1; scored "r1" CATEGORY_RESEARCH 110]).1 !! 2%nat
  = Some (scored "r1" CATEGORY_RESEARCH 110).
Proof.
  destruct (enrich_summaries_untouched plain_text net_described all_in_time
              [article_titled ""; llm_1; scored "r1" CATEGORY_RESEARCH 110])
    as [H _].
  apply H; [reflexivity | left; reflexivity].
Defined.

Lemma enrichment_score_witness :
  calculate_score 0 article_up
  ≤ calculate_score 0 (set_summary (lit "What the article is about.") article_up).
Proof.
  destruct (enrichment_score plain_text net_first_fails all_in_time 0
              [article_down; article_up] 1%nat article_up
              (set_summary (lit "What the article is about.") article_up))
    as [H _]; [reflexivity | by vm_compute | by vm_compute | exact H].
Defined.

(** ** Deduplicator: what survives *)

(** In a pairwise-far list, a later article is never above the
    threshold against an earlier one. *)
Lemma pairwise_far_lookup (l : list article) :
  pairwise_far l →
  ∀ (i j : nat) u v, (i < j)%nat → l !! i = Some u → l !! j = Some v →
    (ratio (title_key v) (title_key u) <= 6 # 10)%Q.
Proof.
  induction 1 as [|l a Hl IH Ha]; intros i j u v Hij Hu Hv; [done|].
  destruct (decide (j < length l)%nat) as [Hj|Hj].
  - rewrite lookup_app_l in Hu, Hv by lia. by apply (IH i j u v).
  - assert (j = length l) as ->.
    { apply lookup_lt_Some in Hv. rewrite length_app in Hv. simpl in Hv. lia. }
    rewrite lookup_app_l in Hu by lia.
    rewrite list_lookup_middle in Hv by done. injection Hv as <-.
    apply Qnot_lt_le. intros Hr. apply Ha. exists u. split; [|done].
    by eapply list_elem_of_lookup_2.
Qed.

(** X7: in what [deduplicate_articles] returns, no article has a ratio
    above 0.6 against one placed before it; every input article is
    either returned or has such a ratio against a returned article that
    precedes it in the input; and the first input article is always
    returned first. *)
Theorem deduplicate_articles_cover (articles : list article) :
  (∀ (i j : nat) u v, (i < j)%nat →
     deduplicate_articles articles !! i = Some u →
     deduplicate_articles articles !! j = Some v →
     (ratio (title_key v) (title_key u) <= 6 # 10)%Q)
  ∧ (∀ pre a post, articles = pre ++ a :: post →
       a ∈ deduplicate_articles articles
       ∨ ∃ u, u ∈ pre ∧ u ∈ deduplicate_articles articles
              ∧ (6 # 10 < ratio (title_key a) (title_key u))%Q)
  ∧ head (deduplicate_articles articles) = head articles.
Proof.
  split; [|split].
  - apply pairwise_far_lookup, deduplicate_articles_far.
  - intros pre a post ->.
    replace (pre ++ a :: post) with ((pre ++ [a]) ++ post)
      by (by rewrite <- app_assoc).
    pose proof (deduplicate_articles_prefix (pre ++ [a]) post) as Hp1.
    pose proof (deduplicate_articles_prefix pre ([a] ++ post)) as Hp2.
    rewrite app_assoc in Hp2.
    rewrite deduplicate_articles_snoc in Hp1.
    destruct (is_duplicate _ _) eqn:E.
    + right. apply is_duplicate_spec in E as (u & Hu & Hr).
      exists u. split; [|split; [|done]].
      * eapply elem_of_sublist; [done|apply deduplicate_articles_sublist].
      * destruct Hp2 as [k ->]. apply elem_of_app. by left.
    + left. destruct Hp1 as [k ->]. rewrite <- app_assoc.
      apply elem_of_app. right. left.
  - destruct articles as [|a l]; [done|].
    pose proof (deduplicate_articles_prefix [a] l) as [k Hk].
    simpl in Hk. by rewrite Hk.
Qed.

Lemma deduplicate_articles_cover_witness :
  llm_2 ∈ deduplicate_articles [llm_1; llm_2; funding]
  ∨ ∃ u, u ∈ [llm_1] ∧ u ∈ deduplicate_articles [llm_1; llm_2; funding]
         ∧ (6 # 10 < ratio (title_key llm_2) (title_key u))%Q.
Proof.
  destruct (deduplicate_articles_cover [llm_1; llm_2; funding]) as (_ & H & _).
  apply (H [llm_1] llm_2 [funding]). reflexivity.
Defined.

Example deduplicate_example :
  deduplicate_articles [llm_1; llm_2; funding] = [llm_1; funding].
Proof. by vm_compute. Qed.

(** ** SequenceMatcher: empty sequences *)

Lemma get_matching_blocks_nil_l (b : pystr) : get_matching_blocks [] b = [].
Proof. reflexivity. Qed.

(** With nothing indexed, no row of the search moves the best block. *)
Lemma longest_in_index_empty (a : pystr) (blo bhi : Z) (rows : list Z)
    (st : gmap Z Z * lmatch) :
  (foldl (λ st i,
            scan_row i blo bhi st.1
              (default [] (a !! Z.to_nat i ≫= λ x, (∅ : gmap ascii (list Z)) !! x))
              ∅ st.2)
         st rows).2 = st.2.
Proof.
  revert st. induction rows as [|i rows IH]; intros st; [done|].
  simpl. rewrite IH.
  destruct (a !! Z.to_nat i) as [x|]; simpl; [rewrite lookup_empty|]; done.
Qed.

Lemma extend_right_empty (fuel : nat) (a : pystr) (ahi : Z) (m : lmatch) :
  0 ≤ m_b m → 0 ≤ m_size m → extend_right fuel a [] ahi 0 m = m.
Proof.
  intros Hb Hs. destruct fuel as [|fuel]; [done|]. simpl.
  destruct (Z.ltb_spec (m_b m + m_size m) 0); [lia|]. by destruct (_ <? _).
Qed.

Lemma get_matching_blocks_nil_r (a : pystr) : get_matching_blocks a [] = [].
Proof.
  unfold get_matching_blocks, blocks_fuel.
  replace (2 * length a + 1)%nat with (S (2 * length a)) by lia.
  change (chain_b []) with (∅ : gmap ascii (list Z)).
  change (len []) with 0. simpl matching_blocks_loop.
  assert (E : find_longest_match a [] ∅ 0 (len a) 0 0 = Match 0 0 0).
  { unfold find_longest_match, longest_in_index.
    rewrite longest_in_index_empty. simpl.
    apply extend_right_empty; simpl; lia. }
  rewrite E. simpl. by destruct (length a + _)%nat.
Qed.

(** The ratio of an empty sequence against a non-empty one has no
    matching element, and stays below the threshold. *)
Lemma calculate_ratio_zero (length : Z) :
  exceeds_threshold (calculate_ratio 0 length) = (length =? 0).
Proof. unfold exceeds_threshold, calculate_ratio. by destruct length. Qed.

Lemma ratio_nil_l (b : pystr) :
  exceeds_threshold (ratio [] b) = bool_decide (b = []).
Proof.
  unfold ratio. rewrite get_matching_blocks_nil_l. simpl foldr.
  rewrite calculate_ratio_zero. by destruct b.
Qed.

Lemma ratio_nil_r (a : pystr) :
  exceeds_threshold (ratio a []) = bool_decide (a = []).
Proof.
  unfold ratio. rewrite get_matching_blocks_nil_r. simpl foldr.
  rewrite calculate_ratio_zero. by destruct a.
Qed.

Lemma title_key_nil (a : article) : title_key a = [] ↔ title a = [].
Proof. apply lower_nil. Qed.

(** X8: an article with an empty title is too close to an accepted
    article exactly when that one has an empty title too, and an accepted
    article with an empty title is never too close to one with a title:
    articles without title are de-duplicated among themselves only. *)
Theorem empty_title_isolated (a u : article) :
  (title a = [] →
     ((6 # 10 < ratio (title_key a) (title_key u))%Q ↔ title u = []))
  ∧ (title u = [] →
     ((6 # 10 < ratio (title_key a) (title_key u))%Q ↔ title a = [])).
Proof.
  split; intros H; apply title_key_nil in H; rewrite H;
    rewrite <- exceeds_threshold_spec, <- title_key_nil.
  - rewrite ratio_nil_l. apply bool_decide_eq_true.
  - rewrite ratio_nil_r. apply bool_decide_eq_true.
Qed.

Lemma empty_title_isolated_witness :
  ¬ (6 # 10 < ratio (title_key (article_titled "")) (title_key llm_1))%Q.
Proof.
  destruct (empty_title_isolated (article_titled "") llm_1) as [H _].
  intros Hr. apply H in Hr; [|reflexivity]. discriminate Hr.
Defined.

(** ** SequenceMatcher: the size of the match *)

Section MatcherSize.

Variables a b : pystr.
Variable b2j : gmap ascii (list Z).

Lemma scan_row_ok_b (i blo bhi : Z) (j2len : gmap Z Z) (js : list Z)
    (newj2len : gmap Z Z) (best : lmatch) :
  row_ok_b blo bhi j2len →
  row_ok_b blo bhi newj2len →
  block_ok_b blo bhi best →
  row_ok_b blo bhi (scan_row i blo bhi j2len js newj2len best).1
  ∧ block_ok_b blo bhi (scan_row i blo bhi j2len js newj2len best).2.
Proof.
  intros Hrow. revert newj2len best.
  induction js as [|j js IH]; intros newj2len best Hnew Hbest; simpl; [done|].
  destruct (Z.ltb_spec j blo); [by apply IH|].
  destruct (Z.leb_spec bhi j); [done|].
  set (k := default 0 (j2len !! (j - 1)) + 1).
  assert (Hk : k ≤ j - blo + 1).
  { unfold k. destruct (j2len !! (j - 1)) as [v|] eqn:E; simpl.
    - apply Hrow in E. lia.
    - lia. }
  apply IH.
  - intros j' v. rewrite lookup_insert. case_decide; [|by apply Hnew].
    intros [= <-]. subst j'. lia.
  - destruct (m_size best <? k); [|done].
    unfold block_ok_b. simpl. lia.
Qed.

Lemma rows_ok_b (blo bhi : Z) (rows : list Z) (st : gmap Z Z * lmatch) :
  row_ok_b blo bhi st.1 → block_ok_b blo bhi st.2 →
  block_ok_b blo bhi
    (foldl (λ st i,
              scan_row i blo bhi st.1
                (default [] (a !! Z.to_nat i ≫= λ x, b2j !! x)) ∅ st.2)
           st rows).2.
Proof.
  revert st. induction rows as [|i rows IH]; intros st Hrow Hbest; [done|].
  simpl.
  assert (Hempty : row_ok_b blo bhi ∅).
  { intros j v. by rewrite lookup_empty. }
  destruct (scan_row_ok_b i blo bhi st.1
              (default [] (a !! Z.to_nat i ≫= λ x, b2j !! x)) ∅ st.2
              Hrow Hempty Hbest) as [Hr Hb].
  by apply IH.
Qed.

Lemma extend_left_ok_b (fuel : nat) (alo blo hi : Z) (m : lmatch) :
  block_ok_b blo hi m → block_ok_b blo hi (extend_left fuel a b alo blo m).
Proof.
  revert m. induction fuel as [|fuel IH]; intros m Hm; simpl; [done|].
  destruct (alo <? m_a m); simpl; [|done].
  destruct (Z.ltb_spec blo (m_b m)); simpl; [|done].
  destruct (elem_eq _ _ _ _); [|done].
  apply IH. unfold block_ok_b in *. simpl. lia.
Qed.

Lemma extend_right_ok_b (fuel : nat) (blo ahi bhi : Z) (m : lmatch) :
  block_ok_b blo bhi m → block_ok_b blo bhi (extend_right fuel a b ahi bhi m).
Proof.
  revert m. induction fuel as [|fuel IH]; intros m Hm; simpl; [done|].
  destruct (m_a m + m_size m <? ahi); simpl; [|done].
  destruct (Z.ltb_spec (m_b m + m_size m) bhi); simpl; [|done].
  destruct (elem_eq _ _ _ _); [|done].
  apply IH. unfold block_ok_b in *. simpl. lia.
Qed.

(** The block found lies within the range of [b] searched. *)
Lemma find_longest_match_ok_b (alo ahi blo bhi : Z) :
  blo ≤ bhi → block_ok_b blo bhi (find_longest_match a b b2j alo ahi blo bhi).
Proof.
  intros H. unfold find_longest_match.
  apply extend_right_ok_b, extend_left_ok_b. unfold longest_in_index.
  apply rows_ok_b.
  - intros j v. simpl. by rewrite lookup_empty.
  - unfold block_ok_b. simpl. lia.
Qed.

Lemma blocks_total_snoc (blocks : list lmatch) (x : lmatch) :
  blocks_total (blocks ++ [x]) = blocks_total blocks + m_size x.
Proof.
  unfold blocks_total. rewrite fmap_app.
  induction (m_size <$> blocks) as [|y l IH]; simpl in *; lia.
Qed.

(** The blocks collected never cover more than the ranges handed to the
    queue, in [a] and in [b]. *)
Lemma matching_blocks_loop_size (fuel : nat) :
  ∀ (queue : list (Z * Z * Z * Z)) (blocks res : list lmatch),
    Forall (λ r, r.1.1.1 ≤ r.1.1.2 ∧ r.1.2 ≤ r.2) queue →
    matching_blocks_loop fuel a b b2j queue blocks = Some res →
    blocks_total blocks ≤ blocks_total res
    ∧ blocks_total res ≤ blocks_total blocks + queue_span_a queue
    ∧ blocks_total res ≤ blocks_total blocks + queue_span_b queue.
Proof.
  induction fuel as [|fuel IH]; intros queue blocks res Hq Hres.
  - destruct queue as [|[[[alo ahi] blo] bhi] queue]; [|done].
    injection Hres as <-. simpl. lia.
  - destruct queue as [|[[[alo ahi] blo] bhi] queue].
    { injection Hres as <-. simpl. lia. }
    apply Forall_cons in Hq as [[Hra Hrb] Hq]. simpl in Hra, Hrb.
    pose proof (find_longest_match_ok a b b2j alo ahi blo bhi Hra) as (A1 & A2 & A3).
    pose proof (find_longest_match_ok_b alo ahi blo bhi Hrb) as (B1 & B2).
    simpl in Hres. set (x := find_longest_match a b b2j alo ahi blo bhi) in *.
    destruct (Z.eqb_spec (m_size x) 0) as [E|E].
    { apply IH in Hres; [|done]. simpl. lia. }
    destruct ((alo <? m_a x) && (blo <? m_b x)) eqn:E1;
      destruct ((m_a x + m_size x <? ahi) && (m_b x + m_size x <? bhi)) eqn:E2;
      try (apply andb_prop in E1 as [E1a E1b];
           apply Z.ltb_lt in E1a; apply Z.ltb_lt in E1b);
      try (apply andb_prop in E2 as [E2a E2b];
           apply Z.ltb_lt in E2a; apply Z.ltb_lt in E2b);
      (apply IH in Hres;
       [rewrite blocks_total_snoc in Hres; simpl in *; lia
       |repeat (apply Forall_cons; split; [simpl; lia|]); done]).
Qed.

End MatcherSize.

(** The matched elements number at most the length of either sequence. *)
Lemma blocks_total_bound (a b : pystr) :
  0 ≤ blocks_total (get_matching_blocks a b)
  ∧ blocks_total (get_matching_blocks a b) ≤ len a
  ∧ blocks_total (get_matching_blocks a b) ≤ len b.
Proof.
  unfold get_matching_blocks.
  destruct (matching_blocks_loop_total a b) as [res Hres]. rewrite Hres. simpl.
  apply matching_blocks_loop_size in Hres.
  - simpl in Hres. change (blocks_total []) with 0 in Hres. lia.
  - apply Forall_cons. split; [|done]. simpl.
    pose proof (len_nonneg a). pose proof (len_nonneg b). lia.
Qed.

Lemma calculate_ratio_range (matches length : Z) :
  0 ≤ matches → 2 * matches ≤ length →
  (0 <= calculate_ratio matches length <= 1)%Q.
Proof.
  intros Hm Hl. unfold calculate_ratio.
  destruct (Z.eqb_spec length 0) as [_|Hne]; [done|].
  destruct length as [|p|p]; [done| |lia].
  unfold Qle, Qdiv, Qmult, Qinv. simpl. lia.
Qed.

(** X9: the ratio lies between 0 and 1: the matching blocks cover at
    most as many elements as the shorter sequence has. *)
Theorem ratio_range (a b : pystr) :
  (0 <= ratio a b <= 1)%Q
  ∧ 0 ≤ blocks_total (get_matching_blocks a b) ≤ Z.min (len a) (len b).
Proof.
  pose proof (blocks_total_bound a b) as (H0 & Ha & Hb).
  split; [|lia]. unfold ratio. apply calculate_ratio_range; [done|].
  fold (blocks_total (get_matching_blocks a b)). lia.
Qed.

Lemma calculate_ratio_below (matches length : Z) :
  0 < length → 10 * matches ≤ 3 * length →
  (calculate_ratio matches length <= 6 # 10)%Q.
Proof.
  intros Hl Hm. unfold calculate_ratio.
  destruct (Z.eqb_spec length 0) as [|_]; [lia|].
  destruct length as [|p|p]; [lia| |lia].
  unfold Qle, Qdiv, Qmult, Qinv. simpl. lia.
Qed.

(** X10: two titles of which one, once lower-cased, is at least 7/3
    times as long as the other, lower-cased too, are never taken for
    duplicates: the ratio cannot exceed 0.6, so of two such articles
    both are kept.  The lengths are those of the strings compared,
    [title.lower()]. *)
Theorem length_gap_keeps_both (u a : article) :
  0 < Z.max (len (lower (title a))) (len (lower (title u))) →
  7 * Z.min (len (lower (title a))) (len (lower (title u)))
  ≤ 3 * Z.max (len (lower (title a))) (len (lower (title u))) →
  (ratio (lower (title a)) (lower (title u)) <= 6 # 10)%Q
  ∧ deduplicate_articles [u; a] = [u; a].
Proof.
  intros Hpos Hgap.
  assert (Hr : (ratio (title_key a) (title_key u) <= 6 # 10)%Q).
  { pose proof (blocks_total_bound (title_key a) (title_key u)) as (H0 & Ha & Hb).
    unfold title_key in *.
    unfold ratio. fold (blocks_total (get_matching_blocks (lower (title a))
                                                          (lower (title u)))).
    apply calculate_ratio_below; lia. }
  split; [done|].
  unfold deduplicate_articles. simpl. unfold dedup_step at 1. simpl.
  fold (title_key a) (title_key u).
  destruct (exceeds_threshold _) eqn:Hx; [|done].
  apply exceeds_threshold_spec in Hx. by apply Qlt_not_le in Hx.
Qed.

Lemma length_gap_keeps_both_witness :
  deduplicate_articles [llm_1; article_titled "New LLM"]
  = [llm_1; article_titled "New LLM"].
Proof.
  apply (length_gap_keeps_both llm_1 (article_titled "New LLM")); by vm_compute.
Defined.

(** ** The sort of [main] *)

Lemma insert_desc_perm (x : Z * article) (l : list (Z * article)) :
  insert_desc x l ≡ₚ x :: l.
Proof.
  induction l as [|y l IH]; simpl; [done|].
  destruct (x.1 <? y.1); [|done].
  rewrite IH. apply Permutation_swap.
Qed.

Lemma sort_desc_perm (l : list (Z * article)) : sort_desc l ≡ₚ l.
Proof.
  induction l as [|x l IH]; simpl; [done|].
  by rewrite insert_desc_perm, IH.
Qed.

Lemma insert_desc_sorted (x : Z * article) (l : list (Z * article)) :
  keyed_ok x → Forall keyed_ok l →
  StronglySorted keyed_ge l → StronglySorted keyed_ge (insert_desc x l).
Proof.
  intros Hx Hok. induction 1 as [|y l Hl IH Hy]; simpl.
  - repeat constructor.
  - apply Forall_cons in Hok as [Hyok Hok].
    destruct (Z.ltb_spec x.1 y.1) as [Hlt|Hge].
    + constructor; [by apply IH|]. rewrite insert_desc_perm. constructor; [|done].
      repeat split; [lia|done..].
    + constructor; [by constructor|]. constructor.
      * repeat split; [lia|done..].
      * eapply Forall_impl; [exact Hy|].
        intros z (Hz & _ & Hzok). repeat split; [lia|done..].
Qed.

Lemma sort_desc_sorted (l : list (Z * article)) :
  Forall keyed_ok l → StronglySorted keyed_ge (sort_desc l).
Proof.
  induction 1 as [|x l Hx Hl IH]; simpl; [constructor|].
  apply insert_desc_sorted; [done| |done].
  by rewrite sort_desc_perm.
Qed.

(** Insertion passes over strictly greater keys only, so the articles
    of any one key keep their order. *)
Lemma insert_desc_stable (k : Z) (x : Z * article) (l : list (Z * article)) :
  filter (λ p, p.1 = k) (insert_desc x l) = filter (λ p, p.1 = k) (x :: l).
Proof.
  induction l as [|y l IH]; simpl; [done|].
  destruct (Z.ltb_spec x.1 y.1) as [Hlt|Hge]; [|done].
  rewrite (filter_cons _ y), IH, !filter_cons.
  destruct (decide (y.1 = k)), (decide (x.1 = k)); try done. lia.
Qed.

Lemma sort_desc_stable (k : Z) (l : list (Z * article)) :
  filter (λ p, p.1 = k) (sort_desc l) = filter (λ p, p.1 = k) l.
Proof.
  induction l as [|x l IH]; simpl; [done|].
  rewrite insert_desc_stable, !filter_cons, IH. done.
Qed.

(** The keys computed are the scores stored. *)
Lemma keyed_articles (articles : list article) (keyed : list (Z * article)) :
  mapM (λ a, (λ x, (x, a)) <$> score a) articles = Some keyed →
  keyed.*2 = articles ∧ Forall keyed_ok keyed.
Proof.
  intros H. apply mapM_Some_1 in H.
  induction H as [|a p l k Hp Hl [IH1 IH2]]; [done|].
  destruct (score a) as [x|] eqn:E; [|done]. injection Hp as <-.
  split; [by rewrite fmap_cons, IH1|]. by constructor.
Qed.

Lemma filter_keyed (k : Z) (keyed : list (Z * article)) :
  Forall keyed_ok keyed →
  filter (λ a, score a = Some k) keyed.*2 = (filter (λ p, p.1 = k) keyed).*2.
Proof.
  induction 1 as [|p l Hp Hl IH]; [done|].
  rewrite fmap_cons, !filter_cons, IH. unfold keyed_ok in Hp.
  destruct (decide (score p.2 = Some k)), (decide (p.1 = k)); try done; congruence.
Qed.

(** The sort succeeds exactly when every article carries a score. *)
Lemma sort_by_score_is_Some (articles : list article) :
  is_Some (sort_by_score articles) ↔ Forall (λ a, is_Some (score a)) articles.
Proof.
  unfold sort_by_score. split.
  - intros [sorted H]. apply bind_Some in H as (keyed & Hk & _).
    assert (Hs : is_Some (mapM (λ a, (λ x, (x, a)) <$> score a) articles)) by eauto.
    apply mapM_is_Some_1 in Hs. eapply Forall_impl; [exact Hs|].
    intros a [p Hp]. simpl in Hp. destruct (score a); [eauto|done].
  - intros H.
    assert (Hs : is_Some (mapM (λ a, (λ x, (x, a)) <$> score a) articles)).
    { apply mapM_is_Some_2. eapply Forall_impl; [exact H|].
      intros a [x Hx]. simpl. rewrite Hx. eauto. }
    destruct Hs as [keyed ->]. simpl. eauto.
Qed.

(** What it returns: a stable rearrangement by descending score. *)
Lemma sort_by_score_Some (articles sorted : list article) :
  sort_by_score articles = Some sorted →
  sorted ≡ₚ articles
  ∧ by_descending_score sorted
  ∧ ∀ k, filter (λ a, score a = Some k) sorted
         = filter (λ a, score a = Some k) articles.
Proof.
  intros H. unfold sort_by_score in H.
  apply bind_Some in H as (keyed & Hk & [= <-]).
  apply keyed_articles in Hk as [<- Hok].
  assert (Hok' : Forall keyed_ok (sort_desc keyed)) by (by rewrite sort_desc_perm).
  split; [by rewrite sort_desc_perm|]. split.
  - apply StronglySorted_Sorted.
    apply (StronglySorted_fmap snd keyed_ge score_ge); [|by apply sort_desc_sorted].
    intros p q (Hle & Hp & Hq). unfold score_ge, keyed_ok in *.
    by rewrite Hp, Hq.
  - intros k. by rewrite !filter_keyed, sort_desc_stable.
Qed.

(** X11: when every article carries a score, the sort of [main] returns
    a rearrangement of the list, by descending score, in which the
    articles of equal score keep their input order; it fails only on an
    article without score. *)
Theorem sort_by_score_stable (articles : list article) :
  (is_Some (sort_by_score articles) ↔ Forall (λ a, is_Some (score a)) articles)
  ∧ ∀ sorted, sort_by_score articles = Some sorted →
      sorted ≡ₚ articles
      ∧ by_descending_score sorted
      ∧ ∀ k, filter (λ a, score a = Some k) sorted
             = filter (λ a, score a = Some k) articles.
Proof.
  split; [apply sort_by_score_is_Some|]. intros sorted. apply sort_by_score_Some.
Qed.

Lemma sort_by_score_stable_witness :
  ∃ sorted,
    sort_by_score [scored "b" CATEGORY_RESEARCH 40; scored "a" CATEGORY_RESEARCH 80;
                   scored "c" CATEGORY_RESEARCH 40] = Some sorted
    ∧ sorted ≡ₚ [scored "b" CATEGORY_RESEARCH 40; scored "a" CATEGORY_RESEARCH 80;
                 scored "c" CATEGORY_RESEARCH 40]
    ∧ by_descending_score sorted
    ∧ ∀ k, filter (λ a, score a = Some k) sorted
           = filter (λ a, score a = Some k)
               [scored "b" CATEGORY_RESEARCH 40; scored "a" CATEGORY_RESEARCH 80;
                scored "c" CATEGORY_RESEARCH 40].
Proof.
  eexists. split; [reflexivity|].
  destruct (sort_by_score_stable
              [scored "b" CATEGORY_RESEARCH 40; scored "a" CATEGORY_RESEARCH 80;
               scored "c" CATEGORY_RESEARCH 40]) as [_ H].
  apply H. reflexivity.
Defined.

Example sort_by_score_ties :
  sort_by_score [scored "b" CATEGORY_RESEARCH 40; scored "a" CATEGORY_RESEARCH 80;
                 scored "c" CATEGORY_RESEARCH 40]
  = Some [scored "a" CATEGORY_RESEARCH 80; scored "b" CATEGORY_RESEARCH 40;
          scored "c" CATEGORY_RESEARCH 40].
Proof. reflexivity. Qed.

(** ** The pipeline of [main] *)

Lemma calculate_score_range (now : Z) (a : article) :
  10 ≤ calculate_score now a ≤ 110.
Proof.
  rewrite calculate_score_sum.
  pose proof (recency_points_range (hours_old now (published a))).
  pose proof (engagement_points_range (engagement a)).
  pose proof (source_points_range (source a)).
  pose proof (summary_points_range (summary a)). lia.
Qed.

(** The e-mail lists at most five articles in each of at most four
    sections. *)
Lemma format_html_email_size (articles : list article) :
  (length (concat (format_html_email articles).*2) ≤ 20)%nat.
Proof.
  rewrite format_html_email_sections. unfold category_order, max_per_category.
  simpl. repeat (destruct (decide _); simpl);
    repeat rewrite length_app; repeat rewrite length_take; simpl length; lia.
Qed.

Lemma format_html_email_section (articles : list article) (c : pystr)
    (kept : list article) :
  by_descending_score articles →
  (c, kept) ∈ format_html_email articles →
  Sorted score_ge kept ∧ (length kept ≤ 5)%nat.
Proof.
  intros Hs Hin. rewrite format_html_email_sections in Hin.
  apply list_elem_of_omap in Hin as (c' & _ & Hc').
  destruct (decide (bucket c' articles = [])); [done|].
  injection Hc' as -> <-. unfold max_per_category. split.
  - apply StronglySorted_Sorted.
    eapply StronglySorted_sublist; [apply sublist_take | by apply bucket_sorted].
  - rewrite length_take. lia.
Qed.

Section PipelineProperties.

Variable clean_html : pystr → pystr.
Variable requests_get : nat → pystr → option response.
Variable finished_in_time : nat → bool.
Variable clock : nat → Z.

Lemma score_articles_scored (articles : list article) :
  Forall (λ a, is_Some (score a)) (score_articles clock articles).
Proof.
  apply Forall_forall. intros a Ha.
  apply elem_of_lookup_imap in Ha as (i & a0 & -> & _). simpl. eauto.
Qed.

(** The list [main] ranks: sorted, scored from the enriched articles. *)
Lemma ranked_sorted (enriched : list article) :
  by_descending_score (ranked clock enriched)
  ∧ ∀ a, a ∈ ranked clock enriched →
      ∃ i a0, enriched !! i = Some a0
              ∧ a = set_score (calculate_score (clock i) a0) a0.
Proof.
  unfold ranked.
  destruct (proj2 (sort_by_score_is_Some (score_articles clock enriched))
                  (score_articles_scored enriched)) as [sorted Es].
  rewrite Es. simpl. destruct (sort_by_score_Some _ _ Es) as (Hperm & Hdesc & _).
  split.
  - apply StronglySorted_Sorted.
    eapply StronglySorted_sublist; [apply deduplicate_articles_sublist|].
    apply Sorted_StronglySorted; [apply _ | exact Hdesc].
  - intros a Ha.
    assert (Ha' : a ∈ score_articles clock enriched).
    { rewrite <- Hperm. eapply elem_of_sublist; [done|].
      apply deduplicate_articles_sublist. }
    apply elem_of_lookup_imap in Ha' as (i & a0 & -> & Hi). eauto.
Qed.

(** X12: when [main] gets as far as the digest, enrichment returned and
    the sections come from a list sorted by descending score, so the
    grouping works on the input it expects; every article listed is an
    enriched article with its score, between 10 and 110, stored; each
    section lists at most five articles by descending score, and the
    e-mail at most 20 in all. *)
Theorem main_digest (all_articles : list article)
    (sections : list (pystr * list article)) :
  main clean_html requests_get finished_in_time clock all_articles = Digest sections →
  ∃ enriched,
    enrich_summaries clean_html requests_get finished_in_time all_articles
    = (enriched, Returned)
    ∧ sections = format_html_email (ranked clock enriched)
    ∧ by_descending_score (ranked clock enriched)
    ∧ (∀ c kept a, (c, kept) ∈ sections → a ∈ kept →
         category a = c
         ∧ ∃ i a0 x, enriched !! i = Some a0 ∧ a = set_score x a0
                     ∧ x = calculate_score (clock i) a0 ∧ 10 ≤ x ≤ 110)
    ∧ (∀ c kept, (c, kept) ∈ sections →
         Sorted score_ge kept ∧ (length kept ≤ 5)%nat)
    ∧ (length (concat sections.*2) ≤ 20)%nat.
Proof.
  unfold main. case_bool_decide; [done|].
  destruct (enrich_summaries _ _ _ _) as [enriched [|e]] eqn:E; [|done].
  intros [= <-]. exists enriched.
  destruct (ranked_sorted enriched) as [Hdesc Hfrom].
  split; [done|]. split; [done|]. split; [done|]. split; [|split].
  - intros c kept a Hin Ha.
    rewrite format_html_email_sections in Hin.
    apply list_elem_of_omap in Hin as (c' & _ & Hc').
    destruct (decide (bucket c' (ranked clock enriched) = [])); [done|].
    injection Hc' as -> <-.
    assert (Hb : a ∈ bucket c (ranked clock enriched)).
    { eapply elem_of_sublist; [done|apply sublist_take]. }
    apply list_elem_of_filter in Hb as [Hcat Hr]. split; [done|].
    destruct (Hfrom a Hr) as (i & a0 & Hi & ->).
    exists i, a0, (calculate_score (clock i) a0).
    split; [done|]. split; [done|]. split; [done|]. apply calculate_score_range.
  - intros c kept Hin. by eapply format_html_email_section.
  - apply format_html_email_size.
Qed.

End PipelineProperties.

Example main_run :
  main plain_text net_described all_in_time (λ _, 0) [llm_1; llm_2; funding]
  = Digest
      [ (CATEGORY_COMMUNITY,
         [ set_score 40 (set_summary (lit "What the article is about.") llm_1);
           set_score 40 (set_summary (lit "What the article is about.") funding) ]) ].
Proof. by vm_compute. Qed.

Lemma main_digest_witness :
  ∃ enriched,
    enrich_summaries plain_text net_described all_in_time [llm_1; llm_2; funding]
    = (enriched, Returned)
    ∧ by_descending_score (ranked (λ _, 0) enriched).
Proof.
  destruct (main_digest plain_text net_described all_in_time (λ _, 0)
              [llm_1; llm_2; funding] _ main_run)
    as (enriched & E & _ & Hd & _).
  by exists enriched.
Defined.

Example main_crash :
  main plain_text net_described none_in_time (λ _, 0) [llm_1; llm_2; funding]
  = Crashed TimeoutError.
Proof. by vm_compute. Qed.

(** ** The grouping of the plain-text digest *)

Lemma first_seen_elem (l : list pystr) (c : pystr) :
  c ∈ first_seen l ↔ c ∈ l.
Proof.
  unfold first_seen. induction l as [|x l IH] using rev_ind.
  - done.
  - rewrite foldl_snoc, elem_of_app, list_elem_of_singleton, <- IH.
    case_bool_decide as Hx; [|rewrite elem_of_app, list_elem_of_singleton; tauto].
    split; [tauto|]. intros [?| ->]; done.
Qed.

Lemma first_seen_NoDup (l : list pystr) : NoDup (first_seen l).
Proof.
  unfold first_seen. induction l as [|x l IH] using rev_ind; [constructor|].
  rewrite foldl_snoc. case_bool_decide as Hx; [done|].
  apply NoDup_app. split; [done|]. split; [|apply NoDup_singleton].
  intros y Hy Hy'. apply list_elem_of_singleton in Hy'. by subst y.
Qed.

Lemma bucket_nil (c : pystr) (articles : list article) :
  bucket c articles = [] ↔ c ∉ category <$> articles.
Proof.
  unfold bucket. rewrite list_elem_of_fmap. split.
  - intros E (a & -> & Ha).
    assert (Hin : a ∈ filter (λ a0, category a0 = category a) articles)
      by (by apply list_elem_of_filter).
    rewrite E in Hin. by apply not_elem_of_nil in Hin.
  - intros Hn. destruct (filter _ articles) as [|a k] eqn:E; [done|]. exfalso.
    assert (Hin : a ∈ filter (λ a0, category a0 = c) articles) by (rewrite E; left).
    apply list_elem_of_filter in Hin as [<- Hin]. apply Hn. eauto.
Qed.

(** The ordered dictionary holds, for each category in the order of
    first occurrence, its bucket. *)
Lemma by_category_items_buckets (articles : list article) :
  by_category_items articles
  = (λ c, (c, bucket c articles)) <$> first_seen (category <$> articles).
Proof.
  unfold by_category_items, first_seen.
  induction articles as [|a l IH] using rev_ind; [done|].
  rewrite fmap_app. change (category <$> [a]) with [category a].
  rewrite !foldl_snoc, IH. clear IH.
  fold (first_seen (category <$> l)).
  unfold items_append. rewrite <- list_fmap_compose.
  rewrite (list_fmap_ext (fst ∘ (λ c, (c, bucket c l))) id) by done.
  rewrite list_fmap_id.
  assert (Hmap : ∀ k : list pystr,
    (λ kv : pystr * list article,
       if bool_decide (kv.1 = category a) then (kv.1, kv.2 ++ [a]) else kv)
      <$> ((λ c, (c, bucket c l)) <$> k)
    = (λ c, (c, bucket c (l ++ [a]))) <$> k).
  { intros k. rewrite <- list_fmap_compose. apply list_fmap_ext.
    intros i c _. simpl. unfold bucket. rewrite filter_app.
    case_bool_decide as Hc.
    - subst c. by rewrite (filter_singleton_True _ a []).
    - rewrite (filter_singleton_False _ a []), app_nil_r by done. done. }
  case_bool_decide as Hin.
  - apply Hmap.
  - rewrite !fmap_app, Hmap. f_equal. simpl.
    rewrite bool_decide_eq_true_2 by done. f_equal. f_equal.
    rewrite first_seen_elem in Hin. apply bucket_nil in Hin.
    unfold bucket in *. rewrite filter_app, Hin.
    by rewrite (filter_singleton_True _ a []).
Qed.

Lemma plain_sections_elem (articles : list article) (c : pystr)
    (kept : list article) :
  (c, kept) ∈ format_plain_text articles
  ↔ bucket c articles ≠ [] ∧ kept = take max_per_category (bucket c articles).
Proof.
  unfold format_plain_text. rewrite by_category_items_buckets.
  rewrite <- list_fmap_compose, list_elem_of_fmap. simpl.
  rewrite bucket_nil. split.
  - intros (c' & [= -> ->] & Hc). apply (proj1 (first_seen_elem _ _)) in Hc.
    split; [intros H; by apply H|done].
  - intros [Hc ->]. exists c. split; [done|].
    apply first_seen_elem. by apply dec_stable.
Qed.

Lemma html_sections_elem (articles : list article) (c : pystr)
    (kept : list article) :
  (c, kept) ∈ format_html_email articles
  ↔ c ∈ category_order
    ∧ bucket c articles ≠ [] ∧ kept = take max_per_category (bucket c articles).
Proof.
  rewrite format_html_email_sections, list_elem_of_omap. split.
  - intros (c' & Hc & E). destruct (decide (bucket c' articles = [])); [done|].
    by injection E as -> ->.
  - intros (Hc & Hne & ->). exists c. split; [done|].
    by destruct (decide (bucket c articles = [])).
Qed.

(** X13: the plain-text digest has one section for each category that
    occurs, in the order in which the categories first occur in the list,
    each with the first five articles of the category; the HTML e-mail
    has exactly those of these sections whose category is one of the four
    it knows, so both list the same articles under a known category, and
    an article of any other category appears in the plain text only. *)
Theorem format_plain_text_sections (articles : list article) :
  (format_plain_text articles).*1 = first_seen (category <$> articles)
  ∧ NoDup (format_plain_text articles).*1
  ∧ (∀ c kept, (c, kept) ∈ format_plain_text articles
       ↔ bucket c articles ≠ [] ∧ kept = take 5 (bucket c articles))
  ∧ (∀ c kept, (c, kept) ∈ format_html_email articles
       ↔ c ∈ category_order ∧ (c, kept) ∈ format_plain_text articles).
Proof.
  assert (Hkeys : (format_plain_text articles).*1
                  = first_seen (category <$> articles)).
  { unfold format_plain_text. rewrite by_category_items_buckets.
    rewrite <- !list_fmap_compose.
    rewrite (list_fmap_ext _ id (first_seen (category <$> articles))) by done.
    apply list_fmap_id. }
  split; [done|]. split; [rewrite Hkeys; apply first_seen_NoDup|].
  split; [apply plain_sections_elem|].
  intros c kept. rewrite html_sections_elem, plain_sections_elem. tauto.
Qed.

Example format_plain_text_order :
  (format_plain_text ranked_articles).*1
  = [CATEGORY_RESEARCH; CATEGORY_COMMUNITY; CATEGORY_NEW_TECH].
Proof. by vm_compute. Qed.

Example format_plain_text_other_category :
  format_plain_text [scored "x" (lit "Podcasts") 50]
  = [(lit "Podcasts", [scored "x" (lit "Podcasts") 50])]
  ∧ format_html_email [scored "x" (lit "Podcasts") 50] = [].
Proof. by vm_compute. Qed.

(** ** Connectors *)

Example str_of_int_id : str_of_int 38123456 = lit "38123456".
Proof. reflexivity. Qed.

(** The float test of the age is a test on microseconds. *)
Lemma older_than_spec (limit now pub_date : Z) :
  older_than limit now pub_date = false ↔ now - pub_date ≤ limit * 1000000.
Proof.
  unfold older_than, total_seconds.
  rewrite negb_false_iff, Qle_bool_iff. unfold Qle. simpl. lia.
Qed.

Section ConnectorProperties.

Variable clean_html : pystr → pystr.

Lemma rss_article_Some (now_1 now_2 : Z) (source : pystr) (entry : feed_entry)
    (a : article) :
  rss_article clean_html now_1 now_2 source entry = Some a →
  (summary a = [] ∨ 50 ≤ len (summary a))
  ∧ len (summary a) ≤ 283
  ∧ needs_summary a = (len (summary a) <? 100)
  ∧ now_2 - published a ≤ 48 * hour
  ∧ engagement a = 0.
Proof.
  unfold rss_article. intros H.
  destruct (older_than _ _ _) eqn:Hold; [done|]. injection H as <-. simpl.
  apply older_than_spec in Hold.
  set (s := truncate_summary _ _).
  pose proof (truncate_summary_len
                (clean_html match entry_summary entry with
                            | Some s0 => s0
                            | None => default [] (entry_description entry)
                            end) default_max_length ltac:(done)) as Hlen.
  fold s in Hlen. rewrite len_ellipsis in Hlen. unfold default_max_length in Hlen.
  repeat split; try done; try (unfold hour; lia).
  - destruct (Z.ltb_spec (len s) 50); [by left|right; lia].
  - destruct (Z.ltb_spec (len s) 50); [by vm_compute|lia].
Qed.

Lemma papers_with_code_article_Some (now_1 now_2 : Z) (entry : feed_entry)
    (a : article) :
  papers_with_code_article clean_html now_1 now_2 entry = Some a →
  len (summary a) ≤ 303
  ∧ needs_summary a = (len (summary a) <? 100)
  ∧ link a ≠ []
  ∧ now_2 - published a ≤ 7 * 24 * hour
  ∧ engagement a = 0.
Proof.
  unfold papers_with_code_article. intros H.
  case_bool_decide as Hl; [done|].
  destruct (older_than _ _ _) eqn:Hold; [done|]. injection H as <-. simpl.
  apply older_than_spec in Hold.
  pose proof (truncate_summary_len
                (clean_html (default [] (entry_summary entry))) 300 ltac:(done))
    as Hlen.
  rewrite len_ellipsis in Hlen.
  repeat split; try done; unfold hour; lia.
Qed.

Lemma arxiv_article_Some (now : Z) (entry : arxiv_entry) (a : article) :
  arxiv_article now entry = Some a →
  len (summary a) ≤ 303
  ∧ needs_summary a = false
  ∧ now - published a ≤ 7 * 24 * hour
  ∧ engagement a = 0.
Proof.
  unfold arxiv_article. intros H.
  destruct (arxiv_title entry) as [t|]; [|done].
  destruct (arxiv_abstract entry) as [abstract|]; [|done].
  destruct (arxiv_id entry) as [l|]; [|done].
  destruct (arxiv_published entry) as [p|]; [|done]. simpl in H.
  destruct (older_than _ _ _) eqn:Hold; [done|]. injection H as <-. simpl.
  apply older_than_spec in Hold.
  pose proof (truncate_summary_len abstract 300 ltac:(done)) as Hlen.
  rewrite len_ellipsis in Hlen.
  repeat split; try done; unfold hour; lia.
Qed.

Lemma reddit_article_Some (now : Z) (subreddit category : pystr)
    (post_data : reddit_post) (a : article) :
  reddit_article clean_html now subreddit category post_data = Some a →
  len (summary a) ≤ 303
  ∧ needs_summary a = (len (summary a) <? 100)
  ∧ (summary a ≠ [] → 50 < len (default [] (post_selftext post_data)))
  ∧ now - published a ≤ 48 * hour
  ∧ 50 ≤ engagement a.
Proof.
  unfold reddit_article. intros H.
  destruct (post_stickied post_data); [done|].
  destruct (Z.ltb_spec (default 0 (post_ups post_data)) 50); [done|].
  destruct (older_than _ _ _) eqn:Hold; [done|]. injection H as <-. simpl.
  apply older_than_spec in Hold.
  pose proof (truncate_summary_len
                (clean_html (default [] (post_selftext post_data))) 300
                ltac:(done)) as Hlen.
  rewrite len_ellipsis in Hlen.
  repeat split; try done; try (unfold hour; lia).
  - destruct (_ && _); [lia|by vm_compute].
  - destruct (negb _); simpl; [|done].
    destruct (Z.ltb_spec 50 (len (default [] (post_selftext post_data)))); done.
Qed.

End ConnectorProperties.

Lemma hn_article_Some (now story_id : Z) (item : option hn_story) (a : article) :
  hn_article now story_id item = Some a →
  summary a = [] ∧ needs_summary a = true
  ∧ now - published a ≤ 48 * hour
  ∧ 50 ≤ engagement a
  ∧ any_term_in ai_terms (lower (title a)) = true
  ∧ any_term_in generic_terms (lower (title a)) = false.
Proof.
  unfold hn_article. intros H.
  apply bind_Some in H as (story & -> & H).
  destruct (negb (bool_decide _)); [done|].
  destruct (negb (any_term_in ai_terms _)) eqn:Hai; [done|].
  apply negb_false_iff in Hai.
  destruct (any_term_in generic_terms _) eqn:Hgen; [done|].
  destruct (Z.ltb_spec (default 0 (story_score story)) 50); [done|].
  destruct (older_than _ _ _) eqn:Hold; [done|]. injection H as <-. simpl.
  apply older_than_spec in Hold.
  repeat split; try done; unfold hour; lia.
Qed.

(** X14: what the connectors promise about the summary of an article
    they append.  From an RSS feed it is empty or has 50 to 283
    characters; elsewhere it has at most 303.  For RSS, Papers With Code
    and Reddit [needs_summary] is set exactly when it has fewer than 100
    characters; a Hacker News article has no summary and asks for one; an
    arXiv article never asks for one, however short its abstract. *)
Theorem connector_summary (clean_html : pystr → pystr) (a : article) :
  (∀ now_1 now_2 source entry,
     rss_article clean_html now_1 now_2 source entry = Some a →
     (summary a = [] ∨ 50 ≤ len (summary a) ≤ 283)
     ∧ needs_summary a = (len (summary a) <? 100))
  ∧ (∀ now_1 now_2 entry,
     papers_with_code_article clean_html now_1 now_2 entry = Some a →
     len (summary a) ≤ 303 ∧ needs_summary a = (len (summary a) <? 100))
  ∧ (∀ now subreddit category post_data,
     reddit_article clean_html now subreddit category post_data = Some a →
     len (summary a) ≤ 303 ∧ needs_summary a = (len (summary a) <? 100))
  ∧ (∀ now story_id item,
     hn_article now story_id item = Some a →
     summary a = [] ∧ needs_summary a = true)
  ∧ (∀ now entry,
     arxiv_article now entry = Some a →
     len (summary a) ≤ 303 ∧ needs_summary a = false).
Proof.
  split; [|split; [|split; [|split]]].
  - intros now_1 now_2 source entry H.
    apply rss_article_Some in H as (H1 & H2 & H3 & _). split; [|done].
    destruct H1 as [?|?]; [by left|right; lia].
  - intros now_1 now_2 entry H.
    by apply papers_with_code_article_Some in H as (H1 & H2 & _).
  - intros now subreddit category post_data H.
    by apply reddit_article_Some in H as (H1 & H2 & _).
  - intros now story_id item H.
    by apply hn_article_Some in H as (H1 & H2 & _).
  - intros now entry H.
    by apply arxiv_article_Some in H as (H1 & H2 & _).
Qed.

Lemma connector_summary_witness :
  match arxiv_article 0 arxiv_short with
  | Some a => len (summary a) ≤ 303 ∧ needs_summary a = false
  | None => False
  end.
Proof.
  destruct (arxiv_article 0 arxiv_short) as [a|] eqn:E; [|discriminate E].
  destruct (connector_summary plain_text a) as (_ & _ & _ & _ & H).
  exact (H 0 arxiv_short E).
Defined.

Example rss_short_summary_dropped :
  ∃ a, rss_article plain_text 0 0 (lit "OpenAI Blog") entry_short = Some a
       ∧ summary a = [] ∧ needs_summary a = true
       ∧ category a = CATEGORY_NEW_TECH.
Proof. eexists. split; [reflexivity|]. repeat split. Qed.

Example arxiv_short_abstract :
  ∃ a, arxiv_article 0 arxiv_short = Some a
       ∧ len (summary a) = 19 ∧ needs_summary a = false.
Proof. eexists. split; [reflexivity|]. by vm_compute. Qed.

(** X15: at the instant of its age test an article from an RSS feed,
    Hacker News or Reddit is at most 48 hours old, and so earns at least
    20 recency points there; one from arXiv or Papers With Code is at most
    7 days old.  Hacker News and Reddit articles have an engagement of 50
    or more. *)
Theorem connector_freshness (clean_html : pystr → pystr) (a : article) :
  (∀ now_1 now_2 source entry,
     rss_article clean_html now_1 now_2 source entry = Some a →
     now_2 - published a ≤ 48 * hour
     ∧ 20 ≤ recency_points (hours_old now_2 (published a)))
  ∧ (∀ now subreddit category post_data,
     reddit_article clean_html now subreddit category post_data = Some a →
     now - published a ≤ 48 * hour
     ∧ 20 ≤ recency_points (hours_old now (published a))
     ∧ 50 ≤ engagement a)
  ∧ (∀ now story_id item,
     hn_article now story_id item = Some a →
     now - published a ≤ 48 * hour
     ∧ 20 ≤ recency_points (hours_old now (published a))
     ∧ 50 ≤ engagement a)
  ∧ (∀ now_1 now_2 entry,
     papers_with_code_article clean_html now_1 now_2 entry = Some a →
     now_2 - published a ≤ 7 * 24 * hour)
  ∧ (∀ now entry,
     arxiv_article now entry = Some a →
     now - published a ≤ 7 * 24 * hour).
Proof.
  assert (Hrec : ∀ now p, now - p ≤ 48 * hour →
                          20 ≤ recency_points (hours_old now p)).
  { intros now p H. rewrite recency_points_age.
    repeat match goal with
           | |- context [?x <=? ?y] => destruct (Z.leb_spec x y)
           end; lia. }
  split; [|split; [|split; [|split]]].
  - intros now_1 now_2 source entry H.
    apply rss_article_Some in H as (_ & _ & _ & H & _). auto.
  - intros now subreddit category post_data H.
    apply reddit_article_Some in H as (_ & _ & _ & H & He). auto.
  - intros now story_id item H.
    apply hn_article_Some in H as (_ & _ & H & He & _). auto.
  - intros now_1 now_2 entry H.
    by apply papers_with_code_article_Some in H as (_ & _ & _ & H & _).
  - intros now entry H.
    by apply arxiv_article_Some in H as (_ & _ & H & _).
Qed.

Lemma connector_freshness_witness :
  match hn_article 0 38123456 (Some story_ask) with
  | Some a => 0 - published a ≤ 48 * hour
              ∧ 20 ≤ recency_points (hours_old 0 (published a))
              ∧ 50 ≤ engagement a
  | None => False
  end.
Proof.
  destruct (hn_article 0 38123456 (Some story_ask)) as [a|] eqn:E;
    [|vm_compute in E; discriminate E].
  destruct (connector_freshness plain_text a) as (_ & _ & H & _).
  exact (H 0 38123456 (Some story_ask) E).
Defined.

(** [contains] finds a block wherever it stands. *)
Lemma starts_with_app (needle rest : pystr) : starts_with needle (needle ++ rest) = true.
Proof.
  induction needle as [|c needle IH]; simpl; [by destruct rest|].
  by rewrite Ascii.eqb_refl.
Qed.

Lemma contains_starts (needle hay : pystr) :
  starts_with needle hay = true → contains needle hay = true.
Proof. intros H. destruct hay; simpl; by rewrite H. Qed.

Lemma contains_app (needle before rest : pystr) :
  contains needle (before ++ needle ++ rest) = true.
Proof.
  induction before as [|c before IH].
  - rewrite app_nil_l. apply contains_starts, starts_with_app.
  - simpl. rewrite IH. apply orb_true_r.
Qed.

(** X16: a Reddit post whose url is missing, empty or on reddit.com gets
    its permalink on reddit.com as link, and a Hacker News story without
    url gets its item page; such articles are comment pages for the
    enrichment, which returns them as they are whatever the network
    serves. *)
Theorem community_links_untouched (clean_html : pystr → pystr)
    (requests_get : nat → pystr → option response) (i : nat) (a : article) :
  (∀ now subreddit category post_data,
     reddit_article clean_html now subreddit category post_data = Some a →
     contains (lit "reddit.com") (default [] (post_url post_data)) = true
     ∨ default [] (post_url post_data) = [] →
     link a = lit "https://reddit.com" ++ default [] (post_permalink post_data)
     ∧ is_comment_page (link a) = true
     ∧ fetch_one clean_html requests_get i a = a)
  ∧ (∀ now story_id story,
     hn_article now story_id (Some story) = Some a →
     story_url story = None →
     link a = lit "https://news.ycombinator.com/item?id=" ++ str_of_int story_id
     ∧ is_comment_page (link a) = true
     ∧ fetch_one clean_html requests_get i a = a).
Proof.
  assert (Hskip : ∀ b, is_comment_page (link b) = true →
                       fetch_one clean_html requests_get i b = b).
  { intros b Hb. unfold fetch_one. unfold is_comment_page in Hb. by rewrite Hb. }
  split.
  - intros now subreddit category post_data H Hurl.
    assert (Hl : link a = lit "https://reddit.com"
                          ++ default [] (post_permalink post_data)).
    { unfold reddit_article in H.
      destruct (post_stickied post_data); [done|].
      destruct (_ <? 50); [done|].
      destruct (older_than _ _ _); [done|].
      assert (E : contains (lit "reddit.com") (default [] (post_url post_data))
                  || bool_decide (default [] (post_url post_data) = []) = true).
      { destruct Hurl as [Hu|Hu]; rewrite Hu; [done|]. apply orb_true_r. }
      rewrite E in H. by injection H as <-. }
    assert (Hc : is_comment_page (link a) = true).
    { rewrite Hl. unfold is_comment_page.
      change (lit "https://reddit.com") with (lit "https://" ++ lit "reddit.com").
      rewrite <- app_assoc, contains_app. done. }
    auto.
  - intros now story_id story H Hurl.
    assert (Hl : link a = lit "https://news.ycombinator.com/item?id="
                          ++ str_of_int story_id).
    { unfold hn_article in H. apply bind_Some in H as (story' & [= <-] & H).
      destruct (negb (bool_decide _)); [done|].
      destruct (negb (any_term_in ai_terms _)); [done|].
      destruct (any_term_in generic_terms _); [done|].
      destruct (_ <? 50); [done|].
      destruct (older_than _ _ _); [done|]. rewrite Hurl in H.
      by injection H as <-. }
    assert (Hc : is_comment_page (link a) = true).
    { rewrite Hl. unfold is_comment_page.
      change (lit "https://news.ycombinator.com/item?id=")
        with (lit "https://" ++ lit "news.ycombinator.com" ++ lit "/item?id=").
      rewrite <- !app_assoc, (contains_app (lit "news.ycombinator.com")).
      apply orb_true_r. }
    auto.
Qed.

Lemma community_links_untouched_witness :
  match reddit_article plain_text 0 (lit "LocalLLaMA") CATEGORY_NEW_TECH post_self with
  | Some a => link a = lit "https://reddit.com/r/LocalLLaMA/comments/1/x/"
              ∧ fetch_one plain_text net_described 0 a = a
  | None => False
  end.
Proof.
  destruct (reddit_article plain_text 0 (lit "LocalLLaMA") CATEGORY_NEW_TECH post_self)
    as [a|] eqn:E; [|vm_compute in E; discriminate E].
  destruct (community_links_untouched plain_text net_described 0 a) as [H _].
  destruct (H 0 (lit "LocalLLaMA") CATEGORY_NEW_TECH post_self E) as (Hl & _ & Hf).
  - left. reflexivity.
  - split; [exact Hl | exact Hf].
Defined.

(** The loop never holds more than ten articles, and each is a Hacker
    News article made from one of the items. *)
Lemma hn_loop_limit (clock : nat → Z) (items : list (Z * option hn_story)) :
  ∀ (i : nat) (articles : list article),
    (length articles ≤ 10)%nat →
    Forall (λ a, source a = lit "Hacker News" ∧ 50 ≤ engagement a) articles →
    (length (hn_loop clock i items articles) ≤ 10)%nat
    ∧ Forall (λ a, source a = lit "Hacker News" ∧ 50 ≤ engagement a)
             (hn_loop clock i items articles)
    ∧ articles `prefix_of` hn_loop clock i items articles.
Proof.
  induction items as [|[story_id item] items IH]; intros i articles Hlen Hall.
  - done.
  - simpl. destruct (Z.leb_spec 10 (Z.of_nat (length articles))); [done|].
    destruct (hn_article (clock i) story_id item) as [a|] eqn:E.
    + destruct (IH (S i) (articles ++ [a])) as (H1 & H2 & H3).
      * rewrite length_app. simpl. lia.
      * apply Forall_app. split; [done|]. constructor; [|done].
        pose proof (hn_article_Some _ _ _ _ E) as (_ & _ & _ & He & _).
        split; [|done]. unfold hn_article in E.
        apply bind_Some in E as (story & _ & E).
        destruct (negb (bool_decide _)); [done|].
        destruct (negb (any_term_in ai_terms _)); [done|].
        destruct (any_term_in generic_terms _); [done|].
        destruct (_ <? 50); [done|].
        destruct (older_than _ _ _); [done|]. by injection E as <-.
      * split; [done|]. split; [done|].
        etrans; [|exact H3]. by apply prefix_app_r.
    + by apply IH.
Qed.

(** Once the loop holds ten articles, further items change nothing. *)
Lemma hn_loop_full (clock : nat → Z) (items rest : list (Z * option hn_story)) :
  ∀ (i : nat) (articles : list article),
    length (hn_loop clock i items articles) = 10%nat →
    hn_loop clock i (items ++ rest) articles = hn_loop clock i items articles.
Proof.
  induction items as [|[story_id item] items IH]; intros i articles Hfull.
  - simpl in *. destruct rest as [|[story_id item] rest]; [done|]. simpl.
    destruct (Z.leb_spec 10 (Z.of_nat (length articles))); [done|lia].
  - simpl in *. destruct (10 <=? Z.of_nat (length articles)); [done|].
    destruct (hn_article (clock i) story_id item); by apply IH.
Qed.

(** X17: [fetch_hacker_news] returns at most ten articles, all from
    Hacker News with an engagement of 50 or more; once ten are found the
    remaining stories are not looked at, and stories past the first
    hundred never are. *)
Theorem fetch_hacker_news_limit (clock : nat → Z)
    (items more : list (Z * option hn_story)) :
  (length (fetch_hacker_news clock items) ≤ 10)%nat
  ∧ Forall (λ a, source a = lit "Hacker News" ∧ 50 ≤ engagement a)
           (fetch_hacker_news clock items)
  ∧ ((100 ≤ length items)%nat ∨ length (fetch_hacker_news clock items) = 10%nat →
     fetch_hacker_news clock (items ++ more) = fetch_hacker_news clock items).
Proof.
  unfold fetch_hacker_news.
  destruct (hn_loop_limit clock (take 100 items) 0 []) as (H1 & H2 & _);
    [simpl; lia | constructor |].
  split; [done|]. split; [done|].
  intros [Hlen|Hfull].
  - by rewrite take_app_le by lia.
  - rewrite take_app. by apply hn_loop_full.
Qed.

Lemma fetch_hacker_news_limit_witness :
  fetch_hacker_news (λ _, 0) (repeat (38123456, Some story_ask) 100
                              ++ [(1, Some story_ask)])
  = fetch_hacker_news (λ _, 0) (repeat (38123456, Some story_ask) 100).
Proof.
  apply (fetch_hacker_news_limit (λ _, 0)). left. by vm_compute.
Defined.

Example fetch_hacker_news_ten :
  length (fetch_hacker_news (λ _, 0) (repeat (38123456, Some story_ask) 12)) = 10%nat.
Proof. by vm_compute. Qed.

(** ** SequenceMatcher: a sequence against itself *)

Section SelfMatch.

Variable s : pystr.
Variable b2j : gmap ascii (list Z).
Hypothesis b2j_index_of : index_of s b2j.

Lemma window_one (i : Z) : indexed s b2j i → window s b2j i 1.
Proof. intros H t Ht. by replace (i - t) with i by lia. Qed.

Lemma window_extend (i v : Z) :
  indexed s b2j i → window s b2j (i - 1) v → window s b2j i (v + 1).
Proof.
  intros Hi Hw t Ht. destruct (decide (t = 0)) as [->|Hne].
  - by replace (i - 0) with i by lia.
  - replace (i - t) with (i - 1 - (t - 1)) by lia. apply Hw. lia.
Qed.

Lemma window_pred (i k : Z) : window s b2j i k → window s b2j (i - 1) (k - 1).
Proof.
  intros Hw t Ht. replace (i - 1 - t) with (i - (t + 1)) by lia. apply Hw. lia.
Qed.

Lemma window_indexed (i k : Z) : 1 ≤ k → window s b2j i k → indexed s b2j i.
Proof. intros Hk Hw. replace i with (i - 0) by lia. apply Hw. lia. Qed.

(** The row of an indexed position is its list, which holds the
    position itself; the row of any other position is empty. *)
Lemma row_js_indexed (i : Z) :
  indexed s b2j i →
  ∃ x, s !! Z.to_nat i = Some x ∧ b2j !! x = Some (row_js s b2j i)
       ∧ i ∈ row_js s b2j i.
Proof.
  intros [Hi (x & js & Hx & Hjs)]. exists x. unfold row_js.
  rewrite Hx. simpl. rewrite Hjs. simpl. split; [done|]. split; [done|].
  destruct b2j_index_of as (_ & Hc & _).
  rewrite <- (Z2Nat.id i) at 1 by done. by eapply Hc.
Qed.

Lemma row_js_other (i : Z) : 0 ≤ i → ¬ indexed s b2j i → row_js s b2j i = [].
Proof.
  intros Hi Hn. unfold row_js.
  destruct (s !! Z.to_nat i) as [x|] eqn:Hx; [|done]. simpl.
  destruct (b2j !! x) as [js|] eqn:Hjs; [|done].
  destruct Hn. split; [done|]. by exists x, js.
Qed.

Lemma row_js_elem (i j : Z) :
  indexed s b2j i → j ∈ row_js s b2j i →
  0 ≤ j < len s ∧ indexed s b2j j.
Proof.
  intros Hi Hj. destruct (row_js_indexed i Hi) as (x & Hx & Hjs & _).
  destruct b2j_index_of as (Hs & _ & _).
  destruct (Hs x _ j Hjs Hj) as [H0 Hl].
  split.
  - apply lookup_lt_Some in Hl. unfold len. lia.
  - split; [done|]. by exists x, (row_js s b2j i).
Qed.

(** The inner loop on the row of an indexed position [i]: [seen] are
    the indices already visited. *)
Lemma scan_row_self (i : Z) (j2len : gmap Z Z) :
  indexed s b2j i →
  runs_sound s b2j (i - 1) j2len →
  diagonal_full s b2j (i - 1) j2len →
  ∀ (rest seen : list Z) (newj2len : gmap Z Z) (best : lmatch),
    seen ++ rest = row_js s b2j i →
    best_inv s b2j i best →
    runs_sound s b2j i newj2len →
    (i ∈ seen → best_inv s b2j (i + 1) best ∧ diagonal_full s b2j i newj2len) →
    let st := scan_row i 0 (len s) j2len rest newj2len best in
    best_inv s b2j (i + 1) st.2 ∧ runs_sound s b2j i st.1
    ∧ diagonal_full s b2j i st.1.
Proof.
  intros Hi Hruns Hdiag.
  destruct (row_js_indexed i Hi) as (x & Hx & Hjs & Hin).
  assert (Hsorted : StronglySorted Z.lt (row_js s b2j i)).
  { destruct b2j_index_of as (_ & _ & Hs). by eapply Hs. }
  induction rest as [|j rest IH]; intros seen newj2len best Hsplit Hbest Hnew Hseen.
  - simpl. rewrite app_nil_r in Hsplit. subst seen.
    destruct (Hseen Hin) as [H1 H2]. done.
  - assert (Hj : j ∈ row_js s b2j i).
    { rewrite <- Hsplit. apply elem_of_app. right. by left. }
    destruct (row_js_elem i j Hi Hj) as [Hjr Hji].
    assert (Hs' : StronglySorted Z.lt (seen ++ j :: rest)) by (by rewrite Hsplit).
    assert (Hbefore : ∀ p, p ∈ seen → p < j).
    { intros p Hp. eapply (StronglySorted_app_1_elem_of _ _ _ _ _ Hs' Hp). by left. }
    assert (Hafter : ∀ r, r ∈ rest → j < r).
    { apply StronglySorted_app_1_r, StronglySorted_cons in Hs' as [Hf _].
      intros r Hr. by eapply Forall_forall in Hf. }
    assert (Hpos : i ∈ seen ∨ i = j ∨ j < i).
    { rewrite <- Hsplit in Hin. apply elem_of_app in Hin as [?|Hin]; [by left|].
      apply elem_of_cons in Hin as [?|Hin]; [by right; left|].
      right; right. by apply Hafter. }
    simpl.
    destruct (Z.ltb_spec j 0) as [?|_]; [lia|].
    destruct (Z.leb_spec (len s) j) as [?|_]; [lia|].
    set (k := default 0 (j2len !! (j - 1)) + 1).
    assert (Hk : 1 ≤ k ∧ window s b2j i k ∧ window s b2j j k).
    { unfold k. destruct (j2len !! (j - 1)) as [v|] eqn:E; simpl.
      - destruct (Hruns _ _ E) as (Hv & Hwi & Hwj).
        split; [lia|]. split; by apply window_extend.
      - split; [lia|]. split; by apply window_one. }
    destruct Hk as (Hk1 & Hki & Hkj).
    destruct Hbest as (Hb0 & Hbd & Hbm).
    assert (Hupd : m_size best < k → j = i).
    { intros Hlt. destruct Hpos as [Hp|[->|Hp]]; [|done|].
      - destruct (Hseen Hp) as [(_ & _ & Hm) _].
        assert (0 ≤ i) by apply Hi.
        specialize (Hm i k ltac:(lia) Hki). lia.
      - specialize (Hbm j k ltac:(lia) Hkj). lia. }
    assert (Hmax : j = i → ∀ k', window s b2j i k' → k' ≤ k).
    { intros -> k' Hw. destruct (decide (k' ≤ 1)) as [?|Hk']; [lia|].
      destruct (Hdiag (k' - 1)) as (v & Hv & Hle); [lia|by apply window_pred|].
      unfold k. rewrite Hv. simpl. lia. }
    set (best' := if m_size best <? k then Match (i - k + 1) (j - k + 1) k else best).
    assert (Hgrow : m_size best ≤ m_size best' ∧ (m_size best < k → k ≤ m_size best')
                    ∧ (k ≤ m_size best' ∨ best' = best)
                    ∧ m_a best' = m_b best').
    { unfold best'. destruct (Z.ltb_spec (m_size best) k) as [Hlt|Hge]; simpl.
      - rewrite (Hupd Hlt). lia.
      - repeat split; try lia. }
    destruct Hgrow as (Hg1 & Hg2 & Hg3 & Hg4).
    apply (IH (seen ++ [j])).
    + by rewrite <- app_assoc.
    + split; [lia|]. split; [done|]. intros r k' Hr Hw. specialize (Hbm r k' Hr Hw). lia.
    + intros j' v. rewrite lookup_insert. case_decide as Hjj; [|by apply Hnew].
      intros Hv. injection Hv as <-. rewrite <- Hjj. auto.
    + intros Hi'. apply elem_of_app in Hi' as [Hp|Hp].
      * destruct (Hseen Hp) as [(_ & _ & Hm) Hd].
        specialize (Hbefore _ Hp). split.
        -- split; [lia|]. split; [done|]. intros r k' Hr Hw.
           specialize (Hm r k' Hr Hw). lia.
        -- intros k' Hk' Hw. rewrite lookup_insert_ne by lia. by apply Hd.
      * apply list_elem_of_singleton in Hp. symmetry in Hp.
        specialize (Hmax Hp). split.
        -- split; [lia|]. split; [done|]. intros r k' Hr Hw.
           destruct (decide (r = i)) as [->|Hne].
           ++ specialize (Hmax k' Hw). lia.
           ++ specialize (Hbm r k' ltac:(lia) Hw). lia.
        -- intros k' Hk' Hw. exists k. subst j. rewrite lookup_insert.
           case_decide; [|done]. split; [done|]. by apply Hmax.
Qed.

(** One row of the outer loop. *)
Lemma row_self (i : Z) (st : gmap Z Z * lmatch) :
  0 ≤ i →
  best_inv s b2j i st.2 →
  runs_sound s b2j (i - 1) st.1 →
  diagonal_full s b2j (i - 1) st.1 →
  let st' := scan_row i 0 (len s) st.1 (row_js s b2j i) ∅ st.2 in
  best_inv s b2j (i + 1) st'.2 ∧ runs_sound s b2j i st'.1
  ∧ diagonal_full s b2j i st'.1.
Proof.
  intros Hi Hbest Hruns Hdiag.
  assert (Hempty : runs_sound s b2j i ∅).
  { intros j v. by rewrite lookup_empty. }
  assert (Hcases : indexed s b2j i ∨ ¬ indexed s b2j i).
  { destruct (s !! Z.to_nat i) as [x|] eqn:Hx.
    - destruct (b2j !! x) as [js|] eqn:Hjs.
      + left. split; [done|]. by exists x, js.
      + right. intros (_ & y & js & Hy & Hjs'). congruence.
    - right. intros (_ & y & js & Hy & _). congruence. }
  destruct Hcases as [Hin|Hout].
  - apply (scan_row_self i st.1 Hin Hruns Hdiag (row_js s b2j i) []); try done.
    intros H. by apply elem_of_nil in H.
  - rewrite (row_js_other i Hi Hout). simpl.
    destruct Hbest as (Hb0 & Hbd & Hbm).
    split; [|split; [done|]].
    + split; [done|]. split; [done|]. intros r k Hr Hw.
      destruct (decide (r = i)) as [->|Hne]; [|apply (Hbm r k); [lia|done]].
      destruct (decide (1 ≤ k)) as [Hk|Hk]; [|lia].
      destruct Hout. by apply (window_indexed i k).
    + intros k Hk Hw. destruct Hout. by apply (window_indexed i k).
Qed.

Lemma rows_self (n : nat) :
  ∀ (i : Z) (st : gmap Z Z * lmatch),
    0 ≤ i →
    best_inv s b2j i st.2 →
    runs_sound s b2j (i - 1) st.1 →
    diagonal_full s b2j (i - 1) st.1 →
    best_inv s b2j (i + Z.of_nat n)
      (foldl (λ st i,
                scan_row i 0 (len s) st.1
                  (default [] (s !! Z.to_nat i ≫= λ x, b2j !! x)) ∅ st.2)
             st (seqZ i (Z.of_nat n))).2.
Proof.
  induction n as [|n IH]; intros i st Hi Hbest Hruns Hdiag.
  - simpl. by replace (i + Z.of_nat 0) with i by lia.
  - rewrite seqZ_cons by lia. simpl.
    replace (Z.pred (Z.of_nat (S n))) with (Z.of_nat n) by lia.
    replace (i + Z.of_nat (S n)) with (Z.succ i + Z.of_nat n) by lia.
    destruct (row_self i st Hi Hbest Hruns Hdiag) as (H1 & H2 & H3).
    apply IH; [lia| | |].
    + by replace (Z.succ i) with (i + 1) by lia.
    + by replace (Z.succ i - 1) with i by lia.
    + by replace (Z.succ i - 1) with i by lia.
Qed.

(** The block the index search settles on lies on the diagonal. *)
Lemma longest_in_index_self :
  m_a (longest_in_index s b2j 0 (len s) 0 (len s))
  = m_b (longest_in_index s b2j 0 (len s) 0 (len s)).
Proof.
  unfold longest_in_index.
  pose proof (rows_self (Z.to_nat (len s - 0)) 0 (∅, Match 0 0 0)) as Hr.
  rewrite Z2Nat.id in Hr by (pose proof (len_nonneg s); lia).
  apply Hr; [done| | |].
  - split; [done|]. split; [done|]. intros r k Hr'. lia.
  - intros j v. simpl. by rewrite lookup_empty.
  - intros k Hk Hw. apply (window_indexed _ _ Hk) in Hw as [Hw _]. lia.
Qed.

End SelfMatch.

Lemma extend_left_diagonal (fuel : nat) (a b : pystr) (alo blo : Z) (m : lmatch) :
  m_a m = m_b m →
  m_a (extend_left fuel a b alo blo m) = m_b (extend_left fuel a b alo blo m).
Proof.
  revert m. induction fuel as [|fuel IH]; intros m Hm; simpl; [done|].
  destruct (_ && _ && _); [|done]. apply IH. simpl. lia.
Qed.

Lemma elem_eq_refl (s : pystr) (i : Z) : 0 ≤ i < len s → elem_eq s s i i = true.
Proof.
  intros Hi. unfold elem_eq.
  destruct (s !! Z.to_nat i) as [x|] eqn:E.
  - rewrite !bool_decide_eq_true_2 by lia. simpl. apply Ascii.eqb_refl.
  - apply lookup_ge_None in E. unfold len in Hi. lia.
Qed.

(** Against itself a sequence matches as one block: whatever the index
    search finds lies on the diagonal, and the two [while] loops grow it
    to the whole sequence. *)
Lemma find_longest_match_self (s : pystr) (b2j : gmap ascii (list Z)) :
  index_of s b2j →
  find_longest_match s s b2j 0 (len s) 0 (len s) = Match 0 0 (len s).
Proof.
  intros Hidx.
  pose proof (len_nonneg s) as Hn.
  pose proof (find_longest_match_ok s s b2j 0 (len s) 0 (len s) Hn) as (H1 & H2 & H3).
  pose proof (find_longest_match_maximal s s b2j 0 (len s) 0 (len s)) as [Hl Hr].
  assert (Hd : m_a (find_longest_match s s b2j 0 (len s) 0 (len s))
               = m_b (find_longest_match s s b2j 0 (len s) 0 (len s))).
  { unfold find_longest_match.
    set (m0 := longest_in_index s b2j 0 (len s) 0 (len s)).
    set (m1 := extend_left (Z.to_nat (m_a m0 - 0)) s s 0 0 m0).
    destruct (extend_right_start s s (Z.to_nat (len s - (m_a m1 + m_size m1)))
                (len s) (len s) m1) as [-> ->].
    by apply extend_left_diagonal, longest_in_index_self. }
  cbv zeta in Hl, Hr.
  destruct (find_longest_match s s b2j 0 (len s) 0 (len s)) as [i j k].
  simpl in *. subst j.
  assert (i = 0) as ->.
  { destruct (Z.ltb_spec 0 i) as [Hlt|]; [|lia]. simpl in Hl.
    rewrite elem_eq_refl in Hl by lia. done. }
  assert (k = len s) as ->; [|done].
  destruct (Z.ltb_spec (0 + k) (len s)) as [Hlt|]; [|lia]. simpl in Hr.
  rewrite elem_eq_refl in Hr by lia. done.
Qed.

(** *** The index built by [__chain_b] *)

Lemma b2j_index_snoc (p : pystr) (c : ascii) :
  b2j_index (p ++ [c])
  = <[c := default [] (b2j_index p !! c) ++ [len p]]> (b2j_index p).
Proof.
  unfold b2j_index. rewrite imap_app, foldl_app. simpl.
  by rewrite Nat.add_0_r.
Qed.

Lemma b2j_index_spec (b : pystr) :
  (∀ x js j, b2j_index b !! x = Some js → j ∈ js →
             0 ≤ j < len b ∧ b !! Z.to_nat j = Some x)
  ∧ (∀ x (j : nat), b !! j = Some x →
                    ∃ js, b2j_index b !! x = Some js ∧ Z.of_nat j ∈ js)
  ∧ (∀ x js, b2j_index b !! x = Some js → StronglySorted Z.lt js).
Proof.
  induction b as [|c p (Hs & Hc & Ho)] using rev_ind.
  - split; [|split]; intros *; unfold b2j_index; simpl; by rewrite ?lookup_empty.
  - assert (Hold : ∀ j, j ∈ default [] (b2j_index p !! c) →
                        0 ≤ j < len p ∧ p !! Z.to_nat j = Some c).
    { intros j. destruct (b2j_index p !! c) as [js|] eqn:E; simpl.
      - by apply Hs.
      - intros H. by apply elem_of_nil in H. }
    assert (Hgrow : ∀ x j, 0 ≤ j < len p ∧ p !! Z.to_nat j = Some x →
                           0 ≤ j < len (p ++ [c])
                           ∧ (p ++ [c]) !! Z.to_nat j = Some x).
    { intros x j [Hj Hx]. rewrite len_app. unfold len in *. simpl. split; [lia|].
      by rewrite lookup_app_l by lia. }
    rewrite b2j_index_snoc. split; [|split].
    + intros x js j. rewrite lookup_insert. case_decide as Hx.
      * subst x. intros [= <-] Hj. apply elem_of_app in Hj as [Hj|Hj].
        -- by apply Hgrow, Hold.
        -- apply list_elem_of_singleton in Hj as ->.
           rewrite len_app. unfold len. simpl. split; [lia|].
           rewrite Nat2Z.id. by apply list_lookup_middle.
      * intros Hjs Hj. by apply Hgrow, (Hs x js).
    + intros x j Hj. unfold pystr in Hj. rewrite lookup_insert.
      destruct (decide (j < length p)%nat) as [Hlt|Hge].
      * rewrite lookup_app_l in Hj by done.
        destruct (Hc x j Hj) as (js & Hjs & Hin).
        case_decide as Hx.
        -- subst x. rewrite Hjs. simpl. eexists. split; [done|].
           apply elem_of_app. by left.
        -- by exists js.
      * rewrite lookup_app_r in Hj by lia.
        destruct (j - length p)%nat as [|d] eqn:Hd; [|done].
        injection Hj as <-. rewrite decide_True by done.
        eexists. split; [done|]. apply elem_of_app. right.
        apply list_elem_of_singleton. unfold len. lia.
    + intros x js. rewrite lookup_insert. case_decide as Hx; [|apply Ho].
      intros [= <-]. apply StronglySorted_app_2.
      * intros j1 j2 H1 H2. apply list_elem_of_singleton in H2 as ->.
        apply Hold in H1. lia.
      * destruct (b2j_index p !! c) as [js|] eqn:E; simpl; [by eapply Ho|].
        constructor.
      * repeat constructor.
Qed.

(** Dropping the popular elements keeps an index an index. *)
Lemma chain_b_index (s : pystr) : index_of s (chain_b s).
Proof.
  destruct (b2j_index_spec s) as (Hs & Hc & Ho).
  assert (Hall : index_of s (b2j_index s)).
  { split; [|split]; [| |done].
    - intros x js j Hjs Hj. destruct (Hs x js j Hjs Hj). split; [lia|done].
    - intros x js j Hjs Hj. destruct (Hc x j Hj) as (js' & Hjs' & Hin). congruence. }
  unfold chain_b. cbv zeta. destruct (200 <=? len s); [|done].
  destruct Hall as (H1 & H2 & H3).
  split; [|split].
  - intros x js j [Hjs _]%map_lookup_filter_Some. by apply H1.
  - intros x js j [Hjs _]%map_lookup_filter_Some. by apply H2.
  - intros x js [Hjs _]%map_lookup_filter_Some. by eapply H3.
Qed.

(** The blocks of a non-empty sequence against itself: the whole
    sequence, once. *)
Lemma get_matching_blocks_self (s : pystr) :
  s ≠ [] → get_matching_blocks s s = [Match 0 0 (len s)].
Proof.
  intros Hne. unfold get_matching_blocks, blocks_fuel.
  replace (2 * length s + 1)%nat with (S (2 * length s)) by lia.
  simpl matching_blocks_loop.
  rewrite (find_longest_match_self s (chain_b s) (chain_b_index s)).
  cbn [m_a m_b m_size].
  assert (0 < len s) by (destruct s; [done|unfold len; simpl; lia]).
  destruct (Z.eqb_spec (len s) 0); [lia|].
  rewrite Z.add_0_l, !Z.ltb_irrefl. simpl.
  by destruct (length s + _)%nat.
Qed.

(** The ratio of a sequence against itself is 1. *)
Lemma ratio_self (s : pystr) : (ratio s s == 1)%Q.
Proof.
  destruct (decide (s = [])) as [->|Hne]; [done|].
  unfold ratio. rewrite (get_matching_blocks_self s Hne). simpl foldr.
  assert (0 < len s) by (destruct s; [done|unfold len; simpl; lia]).
  unfold calculate_ratio. destruct (Z.eqb_spec (len s + len s) 0); [lia|].
  rewrite Z.add_0_r. unfold Qeq, Qdiv, Qmult, Qinv, inject_Z. simpl.
  destruct (len s + len s) eqn:E; simpl; lia.
Qed.

Lemma ratio_self_exceeds (s : pystr) : (6 # 10 < ratio s s)%Q.
Proof. rewrite ratio_self. done. Qed.

(** ** Deduplicator: titles equal up to case *)

(** Every input article is accepted or too close to an accepted one. *)
Lemma deduplicate_articles_covers (articles : list article) (u : article) :
  u ∈ articles →
  u ∈ deduplicate_articles articles
  ∨ near_duplicate u (deduplicate_articles articles).
Proof.
  induction articles as [|a l IH] using rev_ind.
  - intros H. by apply elem_of_nil in H.
  - intros Hu. rewrite deduplicate_articles_snoc.
    destruct (is_duplicate _ _) eqn:E.
    + apply elem_of_app in Hu as [Hu|Hu]; [by apply IH|].
      apply list_elem_of_singleton in Hu as ->.
      right. by apply is_duplicate_spec.
    + apply elem_of_app in Hu as [Hu|Hu].
      * destruct (IH Hu) as [H|(w & Hw & Hr)].
        -- left. apply elem_of_app. by left.
        -- right. exists w. split; [|done]. apply elem_of_app. by left.
      * left. apply elem_of_app. by right.
Qed.

(** An article is too close to the accepted ones as soon as an earlier
    input article has its title, up to case. *)
Lemma same_key_near_duplicate (articles : list article) (u a : article) :
  u ∈ articles → title_key u = title_key a →
  near_duplicate a (deduplicate_articles articles).
Proof.
  intros Hu Hkey.
  destruct (deduplicate_articles_covers articles u Hu) as [H|(w & Hw & Hr)].
  - exists u. split; [done|]. rewrite Hkey. apply ratio_self_exceeds.
  - exists w. split; [done|]. by rewrite <- Hkey.
Qed.

(** X18: the articles that [deduplicate_articles] returns have pairwise
    different titles, up to the case of their letters: the ratio of a
    title against itself is 1, above the threshold. *)
Theorem deduplicate_articles_distinct_titles (articles : list article) :
  NoDup (title_key <$> deduplicate_articles articles).
Proof.
  induction articles as [|a l IH] using rev_ind; [constructor|].
  rewrite deduplicate_articles_snoc.
  destruct (is_duplicate _ _) eqn:E; [done|].
  rewrite fmap_app. apply NoDup_app. split; [done|]. split.
  - intros t Ht Ha. apply list_elem_of_singleton in Ha as ->.
    apply list_elem_of_fmap in Ht as (u & Hkey & Hu).
    apply not_true_iff_false in E. apply E, is_duplicate_spec.
    exists u. split; [done|]. rewrite <- Hkey. apply ratio_self_exceeds.
  - apply NoDup_singleton.
Qed.

(** X19: an article whose title is, up to case, the title of an article
    earlier in the input leaves no trace: the result is the one of the
    input without it, whether the earlier article was accepted or
    not. *)
Theorem repeated_title_dropped (pre post : list article) (u a : article) :
  u ∈ pre → lower (title u) = lower (title a) →
  deduplicate_articles (pre ++ a :: post) = deduplicate_articles (pre ++ post).
Proof.
  intros Hu Hkey. unfold deduplicate_articles.
  rewrite !foldl_app. simpl foldl. f_equal. f_equal.
  unfold dedup_step at 1. rewrite dedup_seen_titles.
  fold (title_key a) (deduplicate_articles pre).
  assert (E : is_duplicate (title_key a) (title_key <$> deduplicate_articles pre)
              = true); [|by rewrite E].
  by apply is_duplicate_spec, (same_key_near_duplicate pre u a).
Qed.

Lemma repeated_title_dropped_witness :
  deduplicate_articles ([llm_1; funding] ++ llm_shout :: [llm_2])
  = deduplicate_articles ([llm_1; funding] ++ [llm_2]).
Proof.
  apply (repeated_title_dropped [llm_1; funding] [llm_2] llm_1 llm_shout).
  - by left.
  - reflexivity.
Defined.

(** X20: two titles that are equal up to case have a similarity ratio
    of exactly 1: against itself a title matches as a single block, also
    when it is long enough for popular characters to leave the index. *)
Theorem equal_titles_ratio (a u : article) :
  lower (title a) = lower (title u) →
  (ratio (lower (title a)) (lower (title u)) == 1)%Q.
Proof. intros <-. apply ratio_self. Qed.

Lemma equal_titles_ratio_witness :
  (ratio (lower (title llm_shout)) (lower (title llm_1)) == 1)%Q.
Proof. apply (equal_titles_ratio llm_shout llm_1). reflexivity. Defined.
